(** * Options pricing, Greeks, implied volatility and delta hedging

    A shallow embedding of the Python package [src/]:
    - [black_scholes.py]      (module [BlackScholes]),
    - [greeks.py]             (module [Greeks]),
    - [implied_volatility.py] (module [ImpliedVolatility]),
    - [delta_hedging.py]      (module [DeltaHedging]),
    - [volatility_smile.py]   (module [VolatilitySmile]).

    Numbers.  In these modules Python and NumPy floats are idealised as
    real numbers: every arithmetic operation is the exact one, [np.exp],
    [np.log] and [np.sqrt] are [exp], [ln] and [sqrt], and no rounding,
    overflow or not-a-number value is modelled (the one not-a-number the
    code builds on purpose, [np.nan] in [calculate_implied_vol], is a
    constructor of its own).  A property proved on them is a property of
    the code in exact arithmetic.  Two things follow.
    - [ln], [sqrt] and [/] are total functions on the reals, where NumPy
      returns an infinity or a not-a-number for the logarithm of a number
      <= 0, the square root of a negative number and a division by zero.
      The two agree for S > 0, K > 0, sigma > 0 and T >= 0; the properties
      that depend on the values of these functions are stated there.
    - What rounding, underflow and saturation do to the code is not
      visible on the reals.  Module [Binary64] has the numeric core once
      more on IEEE 754 doubles; where a property holds in exact
      arithmetic and fails on doubles, the failing run is computed there.

    Exceptions.  A Python function that can raise returns a [result]; the
    exceptions are the ones the modelled code can raise on numbers and
    strings: [ValueError] (the explicit [raise]), [ZeroDivisionError]
    (a division of Python numbers by zero), [UnboundLocalError] (a local
    read before its first assignment) and [IndexError]. *)

From Stdlib Require Import Reals Lra Lia ZArith List String Ascii Bool.
From Stdlib Require Import Permutation Sorted.
From Stdlib Require PrimFloat.
Import ListNotations.
Open Scope R_scope.

(** ** The Python fragment the code uses *)

Module Py.

Inductive exn : Type :=
| ValueError
| ZeroDivisionError
| UnboundLocalError
| IndexError.

Inductive result (A : Type) : Type :=
| Ok (a : A)
| Raise (e : exn).

Arguments Ok {A} a.
Arguments Raise {A} e.

Definition bind {A B : Type} (m : result A) (f : A -> result B) : result B :=
  match m with
  | Ok a => f a
  | Raise e => Raise e
  end.

Definition raises {A : Type} (m : result A) : Prop := exists e, m = Raise e.

(** [x / y] on Python numbers: a zero divisor raises. *)
Definition py_div (x y : R) : result R :=
  if Req_dec_T y 0 then Raise ZeroDivisionError else Ok (x / y).

(** [str.lower()], on the ASCII letters.  No character outside ASCII
    lowers to a letter of ['call'] or ['put'], so the comparisons the code
    makes after [.lower()] are the ones made here. *)
Definition lower_ascii (c : ascii) : ascii :=
  let n := nat_of_ascii c in
  if (65 <=? n)%nat && (n <=? 90)%nat then ascii_of_nat (n + 32) else c.

Fixpoint lower (s : string) : string :=
  match s with
  | EmptyString => EmptyString
  | String c s' => String (lower_ascii c) (lower s')
  end.

(** [sub in s] on strings. *)
Definition str_in (sub s : string) : bool :=
  match index 0 sub s with
  | Some _ => true
  | None => false
  end.

(** A NumPy array of floats, read and written at a non-negative index;
    an index past the end raises. *)
Definition array : Type := list R.

Definition np_zeros (n : nat) : array := repeat 0 n.

Definition getitem (a : array) (i : nat) : result R :=
  match nth_error a i with
  | Some x => Ok x
  | None => Raise IndexError
  end.

Fixpoint upd (a : array) (i : nat) (v : R) : array :=
  match a, i with
  | [], _ => []
  | _ :: a', O => v :: a'
  | x :: a', S i' => x :: upd a' i' v
  end.

Definition setitem (a : array) (i : nat) (v : R) : result array :=
  if (i <? List.length a)%nat then Ok (upd a i v) else Raise IndexError.

(** [a[-1]], the last element. *)
Definition getitem_last (a : array) : result R :=
  match a with
  | [] => Raise IndexError
  | x :: a' => Ok (last a' x)
  end.

(** [for i in range(lo, lo + count): s = body i s]. *)
Fixpoint for_range {St : Type} (lo count : nat) (body : nat -> St -> result St)
  (s : St) : result St :=
  match count with
  | O => Ok s
  | S count' => bind (body lo s) (for_range (S lo) count' body)
  end.

(** A keyword argument with a default value: [None] when the caller
    leaves it out. *)
Definition kwarg {A : Type} (default : A) (given : option A) : A :=
  match given with
  | Some a => a
  | None => default
  end.

End Py.

Export Py.

Declare Scope py_scope.
Delimit Scope py_scope with py.
Notation "x <- m ;; k" := (bind m (fun x => k))
  (at level 61, m at next level, right associativity) : py_scope.
Open Scope py_scope.

(** ** The standard normal distribution ([scipy.stats.norm])

    The density is proportional to [exp (- t^2 / 2)]; the distribution
    function is the integral of the density, normalised by the total mass
    of [exp (- t^2 / 2)] over the real line.  That mass is [2 * half_mass],
    where [half_mass] is the integral over the positive half line, built
    here as the least upper bound of the integrals over [[0, x]]; its
    closed form, [sqrt (2 * PI)], is the Gaussian integral and is not
    needed for what follows.

    The integral and the least upper bound are Stdlib's [RiemannInt] and
    [completeness], which ask for proofs (integrability, boundedness)
    before they give a number: the lemmas in this module are the ones those
    two definitions need.  The properties of [norm_cdf] come later. *)

Module NormalDist.

Definition gauss (t : R) : R := exp (- (t * t) / 2).

Lemma gauss_pos t : 0 < gauss t.
Proof. apply exp_pos. Qed.

Lemma dlim_ext (f g : R -> R) x l :
  (forall y, f y = g y) -> derivable_pt_lim f x l -> derivable_pt_lim g x l.
Proof.
  intros E D eps He. destruct (D eps He) as [d Hd]. exists d.
  intros h Hh Hlt. rewrite <- !E. now apply Hd.
Qed.

Lemma dlim_affine a b x : derivable_pt_lim (fun t => a * t + b) x a.
Proof.
  intros eps He. exists (mkposreal 1 Rlt_0_1). intros h Hh _.
  replace ((a * (x + h) + b - (a * x + b)) / h - a) with 0 by (field; exact Hh).
  rewrite Rabs_R0. exact He.
Qed.

Lemma dlim_halfsq x : derivable_pt_lim (fun t => - (t * t) / 2) x (- x).
Proof.
  intros eps He. exists (mkposreal eps He). simpl. intros h Hh Hlt.
  replace ((- ((x + h) * (x + h)) / 2 - - (x * x) / 2) / h - - x) with (- h / 2)
    by (field; exact Hh).
  unfold Rdiv. rewrite Rabs_mult, Rabs_Ropp, (Rabs_pos_eq (/ 2)) by lra.
  pose proof (Rabs_pos h). lra.
Qed.

Lemma dlim_exp_comp (u : R -> R) x l :
  derivable_pt_lim u x l -> derivable_pt_lim (fun t => exp (u t)) x (exp (u x) * l).
Proof.
  intros D. apply (derivable_pt_lim_comp u exp x l (exp (u x)) D).
  apply derivable_pt_lim_exp.
Qed.

Lemma gauss_deriv x : derivable_pt_lim gauss x (gauss x * - x).
Proof. unfold gauss. apply (dlim_exp_comp (fun t => - (t * t) / 2)), dlim_halfsq. Qed.

Lemma gauss_continuity : continuity gauss.
Proof.
  intro x. apply derivable_continuous_pt. exists (gauss x * - x). apply gauss_deriv.
Qed.

Lemma gauss_integrable a b : Riemann_integrable gauss a b.
Proof.
  destruct (Rle_dec a b) as [Hab | Hab].
  - apply continuity_implies_RiemannInt; [exact Hab | intros; apply gauss_continuity].
  - apply RiemannInt_P1, continuity_implies_RiemannInt; [lra | intros; apply gauss_continuity].
Qed.

Definition G (x : R) : R := RiemannInt (gauss_integrable 0 x).

Lemma G_0 : G 0 = 0.
Proof. apply RiemannInt_P9. Qed.

Lemma dlim_local (f g : R -> R) x l (d : R) :
  0 < d -> (forall y, Rabs (y - x) < d -> f y = g y) ->
  derivable_pt_lim f x l -> derivable_pt_lim g x l.
Proof.
  intros Hd E D eps He. destruct (D eps He) as [d1 Hd1].
  assert (Hm : 0 < Rmin d d1) by (apply Rmin_pos; [exact Hd | apply cond_pos]).
  exists (mkposreal _ Hm). simpl. intros h Hh Hlt.
  rewrite <- (E (x + h)), <- (E x).
  - apply Hd1; [exact Hh |]. eapply Rlt_le_trans; [exact Hlt | apply Rmin_r].
  - replace (x - x) with 0 by ring. rewrite Rabs_R0. exact Hd.
  - replace (x + h - x) with h by ring. eapply Rlt_le_trans; [exact Hlt | apply Rmin_l].
Qed.

Lemma G_deriv x : derivable_pt_lim G x (gauss x).
Proof.
  set (a := Rmin 0 x - 1). set (b := Rmax 0 x + 1).
  assert (Ha0 : a < 0) by (unfold a; pose proof (Rmin_l 0 x); lra).
  assert (Hax : a < x) by (unfold a; pose proof (Rmin_r 0 x); lra).
  assert (Hb0 : 0 < b) by (unfold b; pose proof (Rmax_l 0 x); lra).
  assert (Hxb : x < b) by (unfold b; pose proof (Rmax_r 0 x); lra).
  assert (h : a <= b) by lra.
  assert (C0 : forall y, a <= y <= b -> continuity_pt gauss y)
    by (intros; apply gauss_continuity).
  assert (Hin : a <= x <= b) by lra.
  pose proof (RiemannInt_P28 h C0 Hin) as D.
  set (c := RiemannInt (gauss_integrable a 0)).
  assert (D' : derivable_pt_lim (fun y => primitive h (FTC_P1 h C0) y - c) x (gauss x)).
  { replace (gauss x) with (gauss x - 0) by ring.
    apply (derivable_pt_lim_minus _ (fct_cte c)); [exact D | apply derivable_pt_lim_const]. }
  assert (Hd : 0 < Rmin (x - a) (b - x)) by (apply Rmin_pos; lra).
  apply (dlim_local (fun y => primitive h (FTC_P1 h C0) y - c) G x (gauss x) _ Hd); [| exact D'].
  intros y Hy.
  assert (Hya : a <= y <= b).
  { pose proof (Rmin_l (x - a) (b - x)). pose proof (Rmin_r (x - a) (b - x)).
    apply Rabs_def2 in Hy. lra. }
  unfold primitive. destruct (Rle_dec a y) as [r1 | n1]; [| lra].
  destruct (Rle_dec y b) as [r2 | n2]; [| lra].
  unfold G, c.
  rewrite <- (RiemannInt_P26 (gauss_integrable a 0) (gauss_integrable 0 y)
                 (FTC_P1 h C0 r1 r2)).
  ring.
Qed.

Lemma G_derivable : derivable G.
Proof. intro x. exists (gauss x). apply G_deriv. Qed.

Lemma G_strict_increasing : strict_increasing G.
Proof.
  apply (positive_derivative G G_derivable). intro x.
  rewrite (derive_pt_eq_0 _ _ _ (G_derivable x) (G_deriv x)). apply gauss_pos.
Qed.

Lemma G_increasing x y : x <= y -> G x <= G y.
Proof.
  intros [H | ->]; [left; now apply G_strict_increasing | right; reflexivity].
Qed.

Lemma gauss_le_exp t : gauss t <= exp (1 / 2 - t).
Proof.
  unfold gauss. destruct (Req_dec t 1) as [-> | Hne].
  - right. f_equal. lra.
  - left. apply exp_increasing. nra.
Qed.

Lemma G_upper x : G x <= exp (1 / 2).
Proof.
  destruct (Rle_dec x 0) as [Hx | Hx].
  - pose proof (G_increasing x 0 Hx) as H. rewrite G_0 in H.
    pose proof (exp_pos (1 / 2)). lra.
  - set (v := fun t => - exp (1 / 2 - t) - G t).
    assert (D : forall t, derivable_pt_lim v t (exp (1 / 2 - t) - gauss t)).
    { intro t. unfold v.
      apply (derivable_pt_lim_minus (fun t => - exp (1 / 2 - t)) G); [| apply G_deriv].
      replace (exp (1 / 2 - t)) with (- (exp (1 / 2 - t) * -1)) at 1 by ring.
      apply (derivable_pt_lim_opp (fun t => exp (1 / 2 - t))).
      apply (dlim_exp_comp (fun t => 1 / 2 - t)).
      apply (dlim_ext (fun t => -1 * t + 1 / 2)); [intro; ring | apply dlim_affine]. }
    assert (Hd : derivable v) by (intro t; eexists; apply D).
    assert (Hi : increasing v).
    { apply (nonneg_derivative_1 v Hd). intro t.
      rewrite (derive_pt_eq_0 _ _ _ (Hd t) (D t)). pose proof (gauss_le_exp t). lra. }
    assert (H0 : v 0 <= v x) by (apply Hi; lra).
    unfold v in H0. rewrite G_0 in H0.
    replace (1 / 2 - 0) with (1 / 2) in H0 by ring.
    pose proof (exp_pos (1 / 2 - x)). lra.
Qed.

Definition G_values (y : R) : Prop := exists x, y = G x.

Lemma G_values_bound : bound G_values.
Proof. exists (exp (1 / 2)). intros y [x ->]. apply G_upper. Qed.

Lemma G_values_inhabited : exists y, G_values y.
Proof. exists (G 0), 0. reflexivity. Qed.

Definition half_mass : R := proj1_sig (completeness G_values G_values_bound G_values_inhabited).

Definition norm_const : R := 2 * half_mass.

(** [norm.pdf] *)
Definition norm_pdf (x : R) : R := gauss x / norm_const.

(** [norm.cdf] *)
Definition norm_cdf (x : R) : R := (half_mass + G x) / norm_const.

End NormalDist.

Import NormalDist.

(** ** [black_scholes.py] *)

Module BlackScholes.

(** [d1] returns [0.0] when [T <= 0].  The quotient [S / K] is a division
    of Python numbers; the last division is NumPy's and does not raise. *)
Definition d1 (S K T r sigma : R) : result R :=
  if Rle_dec T 0 then Ok 0
  else
    q <- py_div S K ;;
    let numerator := ln q + (r + 0.5 * sigma ^ 2) * T in
    let denominator := sigma * sqrt T in
    Ok (numerator / denominator).

Definition d2 (S K T r sigma : R) : result R :=
  d_1 <- d1 S K T r sigma ;;
  Ok (d_1 - sigma * sqrt T).

Definition black_scholes_price (S K T r sigma : R) (option_type : string)
  : result R :=
  d_1 <- d1 S K T r sigma ;;
  d_2 <- d2 S K T r sigma ;;
  let discount := exp (- r * T) in
  if (lower option_type =? "call")%string then
    Ok (S * norm_cdf d_1 - K * discount * norm_cdf d_2)
  else if (lower option_type =? "put")%string then
    Ok (K * discount * norm_cdf (- d_2) - S * norm_cdf (- d_1))
  else
    Raise ValueError.

(** [put_call_parity_check], the dictionary it returns as a record. *)
Record ParityCheck : Type := mkParityCheck {
  left_side : R;
  right_side : R;
  difference : R;
  is_valid : bool;
  message : string
}.

Definition put_call_parity_check (S K T r call_price put_price : R)
  : ParityCheck :=
  let left_side := call_price + K * exp (- r * T) in
  let right_side := put_price + S in
  let difference := Rabs (left_side - right_side) in
  let tolerance := 0.01 * S in
  let is_valid := if Rlt_dec difference tolerance then true else false in
  mkParityCheck left_side right_side difference is_valid
    (if is_valid then "Parité respectée"%string
     else "Violation de la parité Put-Call"%string).

End BlackScholes.

Import BlackScholes.

(** ** [greeks.py] *)

Module Greeks.

Definition delta (S K T r sigma : R) (option_type : string) : result R :=
  d_1 <- d1 S K T r sigma ;;
  if (lower option_type =? "call")%string then Ok (norm_cdf d_1)
  else Ok (norm_cdf d_1 - 1).

Definition gamma (S K T r sigma : R) : result R :=
  d_1 <- d1 S K T r sigma ;;
  let n_d1 := norm_pdf d_1 in
  Ok (n_d1 / (S * sigma * sqrt T)).

Definition vega (S K T r sigma : R) : result R :=
  d_1 <- d1 S K T r sigma ;;
  let n_d1 := norm_pdf d_1 in
  Ok (S * sqrt T * n_d1 / 100).

Definition theta (S K T r sigma : R) (option_type : string) : result R :=
  d_1 <- d1 S K T r sigma ;;
  d_2 <- d2 S K T r sigma ;;
  let n_d1 := norm_pdf d_1 in
  let first_term := - (S * n_d1 * sigma) / (2 * sqrt T) in
  let second_term :=
    if (lower option_type =? "call")%string
    then - r * K * exp (- r * T) * norm_cdf d_2
    else r * K * exp (- r * T) * norm_cdf (- d_2) in
  let theta_annual := first_term + second_term in
  let theta_daily := theta_annual / 365 in
  Ok theta_daily.

Definition rho (S K T r sigma : R) (option_type : string) : result R :=
  d_2 <- d2 S K T r sigma ;;
  let rho_value :=
    if (lower option_type =? "call")%string
    then K * T * exp (- r * T) * norm_cdf d_2
    else - K * T * exp (- r * T) * norm_cdf (- d_2) in
  Ok (rho_value / 100).

Record GreeksResult : Type := mkGreeks {
  g_delta : R;
  g_gamma : R;
  g_vega : R;
  g_theta : R;
  g_rho : R
}.

Definition calculate_all_greeks (S K T r sigma : R) (option_type : string)
  : result GreeksResult :=
  v_delta <- delta S K T r sigma option_type ;;
  v_gamma <- gamma S K T r sigma ;;
  v_vega <- vega S K T r sigma ;;
  v_theta <- theta S K T r sigma option_type ;;
  v_rho <- rho S K T r sigma option_type ;;
  Ok (mkGreeks v_delta v_gamma v_vega v_theta v_rho).

End Greeks.

Import Greeks.

(** ** [implied_volatility.py]

    Keyword arguments with a default ([initial_vol], [tolerance],
    [max_iterations], [vol_low], [vol_high]) are [option]s read through
    [kwarg]; [option_type], which defaults to ['call'], is passed by every
    caller and is an ordinary argument here. *)

Module ImpliedVolatility.

Record SolverResult : Type := mkSolverResult {
  implied_vol : R;
  converged : bool;
  iterations : Z;
  final_error : R
}.

(** How a [for] loop with a [return] and a [break] in its body ends:
    the function returned from inside the loop, or control reached the
    statement after the loop with the locals it had then. *)
Inductive loop_end (L : Type) : Type :=
| Returned (res : SolverResult)
| Fell (locals : L).

Arguments Returned {L} res.
Arguments Fell {L} locals.

Section Newton.

Variables (market_price S K T r : R) (option_type : string) (tolerance : R).

(** The loop of [implied_volatility_newton]: [todo] iterations are left,
    [i] is the loop variable and [sigma] the current volatility. *)
Fixpoint newton_loop (todo : nat) (i : Z) (sigma : R) : result (loop_end R) :=
  match todo with
  | O => Ok (Fell sigma)
  | Datatypes.S todo' =>
      bs_price <- black_scholes_price S K T r sigma option_type ;;
      let price_diff := bs_price - market_price in
      if Rlt_dec (Rabs price_diff) tolerance then
        Ok (Returned (mkSolverResult sigma true (i + 1) (Rabs price_diff)))
      else
        v <- vega S K T r sigma ;;
        let option_vega := v * 100 in
        if Rlt_dec (Rabs option_vega) 1e-10 then Ok (Fell sigma)
        else
          let sigma1 := sigma - price_diff / option_vega in
          let sigma2 := if Rle_dec sigma1 0 then 0.01 else sigma1 in
          newton_loop todo' (i + 1)%Z sigma2
  end.

End Newton.

Definition implied_volatility_newton (market_price S K T r : R)
  (option_type : string) (initial_vol tolerance : option R)
  (max_iterations : option Z) : result SolverResult :=
  let initial_vol := kwarg 0.2 initial_vol in
  let tolerance := kwarg 1e-6 tolerance in
  let max_iterations := kwarg 100%Z max_iterations in
  let sigma := initial_vol in
  out <- newton_loop market_price S K T r option_type tolerance
           (Z.to_nat max_iterations) 0%Z sigma ;;
  match out with
  | Returned res => Ok res
  | Fell sigma =>
      p <- black_scholes_price S K T r sigma option_type ;;
      Ok (mkSolverResult sigma false max_iterations (Rabs (p - market_price)))
  end.

Section Bisection.

Variables (market_price S K T r : R) (option_type : string) (tolerance : R).

(** The locals of [implied_volatility_bisection] that outlive an
    iteration; [vol_mid] is unbound until the first iteration assigns it. *)
Record bisection_locals : Type := mkBisection {
  vol_low : R;
  vol_high : R;
  vol_mid : option R
}.

Fixpoint bisection_loop (todo : nat) (i : Z) (l : bisection_locals)
  : result (loop_end bisection_locals) :=
  match todo with
  | O => Ok (Fell l)
  | Datatypes.S todo' =>
      let mid := (vol_low l + vol_high l) / 2 in
      price_mid <- black_scholes_price S K T r mid option_type ;;
      let diff := price_mid - market_price in
      if Rlt_dec (Rabs diff) tolerance then
        Ok (Returned (mkSolverResult mid true (i + 1) (Rabs diff)))
      else if Rlt_dec 0 diff then
        bisection_loop todo' (i + 1)%Z (mkBisection (vol_low l) mid (Some mid))
      else
        bisection_loop todo' (i + 1)%Z (mkBisection mid (vol_high l) (Some mid))
  end.

End Bisection.

Definition implied_volatility_bisection (market_price S K T r : R)
  (option_type : string) (vol_low vol_high tolerance : option R)
  (max_iterations : option Z) : result SolverResult :=
  let vol_low := kwarg 0.001 vol_low in
  let vol_high := kwarg 3.0 vol_high in
  let tolerance := kwarg 1e-6 tolerance in
  let max_iterations := kwarg 100%Z max_iterations in
  out <- bisection_loop market_price S K T r option_type tolerance
           (Z.to_nat max_iterations) 0%Z (mkBisection vol_low vol_high None) ;;
  match out with
  | Returned res => Ok res
  | Fell l =>
      match vol_mid l with
      | None => Raise UnboundLocalError
      | Some mid =>
          p <- black_scholes_price S K T r mid option_type ;;
          Ok (mkSolverResult mid false max_iterations (Rabs (p - market_price)))
      end
  end.

(** The value [calculate_implied_vol] returns: a float, or [np.nan]. *)
Inductive volatility : Type :=
| Vol (sigma : R)
| NaN.

(** The solvers [calculate_implied_vol] calls, in the order it calls them. *)
Inductive solver : Type :=
| NewtonRaphson
| BisectionMethod.

(** [calculate_implied_vol], paired with the list of the solvers it
    called.  The source keeps no such list; it is recorded here so that
    which solver ran can be stated. *)
Definition calculate_implied_vol_traced (market_price S K T r : R)
  (option_type : string) : list solver * result volatility :=
  match implied_volatility_newton market_price S K T r option_type
          None None None with
  | Raise e => ([NewtonRaphson], Raise e)
  | Ok result =>
      if converged result then ([NewtonRaphson], Ok (Vol (implied_vol result)))
      else
        match implied_volatility_bisection market_price S K T r option_type
                None None None None with
        | Raise e => ([NewtonRaphson; BisectionMethod], Raise e)
        | Ok result =>
            if converged result
            then ([NewtonRaphson; BisectionMethod], Ok (Vol (implied_vol result)))
            else ([NewtonRaphson; BisectionMethod], Ok NaN)
        end
  end.

Definition calculate_implied_vol (market_price S K T r : R)
  (option_type : string) : result volatility :=
  snd (calculate_implied_vol_traced market_price S K T r option_type).

End ImpliedVolatility.

Import ImpliedVolatility.

(** ** [delta_hedging.py] *)

Module DeltaHedging.

(** [np.linspace(start, stop, num)]: [num] evenly spaced points, both
    ends included. *)
Definition np_linspace (start stop : R) (num : nat) : array :=
  map (fun i => start + INR i * ((stop - start) / INR (num - 1))) (seq 0 num).

(** [simulate_stock_path].  [standard_normal k] is the [k]-th variate that
    [np.random.standard_normal()] hands out during the call, counted from
    0; a seed fixes the whole sequence. *)
Definition simulate_stock_path (S0 r sigma T : R) (n_steps : nat)
  (standard_normal : nat -> R) : result array :=
  dt <- py_div T (INR n_steps) ;;
  let path := np_zeros (n_steps + 1) in
  path <- setitem path 0 S0 ;;
  for_range 1 n_steps
    (fun i path =>
       let Z := standard_normal (i - 1)%nat in
       prev <- getitem path (i - 1) ;;
       setitem path i
         (prev * exp ((r - 0.5 * sigma ^ 2) * dt + sigma * sqrt dt * Z)))
    path.

(** The arrays the rebalancing loop fills. *)
Record HedgeArrays : Type := mkArrays {
  a_deltas : array;
  a_shares : array;
  a_option_values : array;
  a_cash : array;
  a_portfolio_values : array
}.

(** The columns of the returned [pd.DataFrame]. *)
Record DataFrame : Type := mkDataFrame {
  col_time : array;
  col_stock_price : array;
  col_delta : array;
  col_shares_held : array;
  col_option_value : array;
  col_cash : array;
  col_portfolio_value : array
}.

Record Summary : Type := mkSummary {
  option_premium : R;
  final_stock_price : R;
  option_payoff : R;
  theoretical_pnl : R;
  hedge_portfolio_value : R;
  hedging_error : R;
  error_percent : R
}.

Section Rebalancing.

Variables (K T r sigma dt : R) (option_type : string) (times stock_path : array).

(** One pass through the body of the rebalancing loop. *)
Definition hedge_step (i : nat) (a : HedgeArrays) : result HedgeArrays :=
  S <- getitem stock_path i ;;
  t <- getitem times i ;;
  let tau := T - t in
  valued <-
    (if Rlt_dec 0.0001 tau then
       v <- black_scholes_price S K tau r sigma option_type ;;
       option_values <- setitem (a_option_values a) i v ;;
       d <- delta S K tau r sigma option_type ;;
       deltas <- setitem (a_deltas a) i d ;;
       Ok (option_values, deltas)
     else if (option_type =? "call")%string then
       option_values <- setitem (a_option_values a) i (Rmax (S - K) 0) ;;
       deltas <- setitem (a_deltas a) i (if Rlt_dec K S then 1 else 0) ;;
       Ok (option_values, deltas)
     else
       option_values <- setitem (a_option_values a) i (Rmax (K - S) 0) ;;
       deltas <- setitem (a_deltas a) i (if Rlt_dec S K then -1 else 0) ;;
       Ok (option_values, deltas)) ;;
  let option_values := fst valued in
  let deltas := snd valued in
  delta_i <- getitem deltas i ;;
  shares_prev <- getitem (a_shares a) (i - 1) ;;
  let delta_change := delta_i - shares_prev in
  delta_i <- getitem deltas i ;;
  shares <- setitem (a_shares a) i delta_i ;;
  cash_prev <- getitem (a_cash a) (i - 1) ;;
  let interest := cash_prev * (exp (r * dt) - 1) in
  let transaction_cost := delta_change * S in
  cash_prev <- getitem (a_cash a) (i - 1) ;;
  cash <- setitem (a_cash a) i (cash_prev + interest - transaction_cost) ;;
  cash_i <- getitem cash i ;;
  shares_i <- getitem shares i ;;
  option_value_i <- getitem option_values i ;;
  portfolio_values <-
    setitem (a_portfolio_values a) i (cash_i + shares_i * S - option_value_i) ;;
  Ok (mkArrays deltas shares option_values cash portfolio_values).

End Rebalancing.

(** [simulate_delta_hedging]; [n_steps] defaults to 252 and [position] to
    ['short_call'] in the source. *)
Definition simulate_delta_hedging (S0 K T r sigma : R) (n_steps : nat)
  (position : string) (standard_normal : nat -> R)
  : result (DataFrame * Summary) :=
  dt <- py_div T (INR n_steps) ;;
  let times := np_linspace 0 T (n_steps + 1) in
  stock_path <- simulate_stock_path S0 r sigma T n_steps standard_normal ;;
  let option_type :=
    if str_in "call" (lower position) then "call"%string else "put"%string in
  let deltas := np_zeros (n_steps + 1) in
  let shares := np_zeros (n_steps + 1) in
  let option_values := np_zeros (n_steps + 1) in
  let cash := np_zeros (n_steps + 1) in
  let portfolio_values := np_zeros (n_steps + 1) in
  option_premium <- black_scholes_price S0 K T r sigma option_type ;;
  delta_0 <- delta S0 K T r sigma option_type ;;
  deltas <- setitem deltas 0 delta_0 ;;
  delta_0 <- getitem deltas 0 ;;
  shares <- setitem shares 0 delta_0 ;;
  shares_0 <- getitem shares 0 ;;
  cash <- setitem cash 0 (option_premium - shares_0 * S0) ;;
  option_values <- setitem option_values 0 option_premium ;;
  cash_0 <- getitem cash 0 ;;
  shares_0 <- getitem shares 0 ;;
  portfolio_values <-
    setitem portfolio_values 0 (cash_0 + shares_0 * S0 - option_premium) ;;
  a <- for_range 1 n_steps
         (hedge_step K T r sigma dt option_type times stock_path)
         (mkArrays deltas shares option_values cash portfolio_values) ;;
  let df := mkDataFrame times stock_path (a_deltas a) (a_shares a)
              (a_option_values a) (a_cash a) (a_portfolio_values a) in
  final_S <- getitem_last stock_path ;;
  let option_payoff :=
    if (option_type =? "call")%string
    then Rmax (final_S - K) 0 else Rmax (K - final_S) 0 in
  let hedge_pnl := option_premium - option_payoff in
  portfolio_final <- getitem_last (a_portfolio_values a) ;;
  let summary :=
    mkSummary option_premium final_S option_payoff hedge_pnl
      portfolio_final portfolio_final
      (if Rlt_dec 0 option_premium
       then Rabs portfolio_final / option_premium * 100 else 0) in
  Ok (df, summary).

(** NumPy reductions over an array.  [np.mean] and [np.std] of an empty
    array are not-a-number in NumPy (0 here); [run_multiple_simulations]
    never returns them, because [np.max] raises on an empty array before
    the function returns. *)
Definition np_sum (a : array) : R := fold_right Rplus 0 a.

Definition np_mean (a : array) : R := np_sum a / INR (List.length a).

Definition np_std (a : array) : R :=
  sqrt (np_mean (map (fun x => Rabs (x - np_mean a) ^ 2) a)).

Definition np_abs (a : array) : array := map Rabs a.

Definition np_max (a : array) : result R :=
  match a with
  | [] => Raise ValueError
  | x :: a' => Ok (fold_left Rmax a' x)
  end.

Record SimulationStats : Type := mkStats {
  mean_error : R;
  std_error : R;
  mean_error_percent : R;
  std_error_percent : R;
  max_error : R;
  errors : array
}.

(** [run_multiple_simulations]; [n_simulations] defaults to 100 and
    [n_steps] to 252 in the source.  Run [i] is seeded with [i]:
    [standard_normal_seeded i] is the sequence of draws that seed fixes. *)
Definition run_multiple_simulations (S0 K T r sigma : R)
  (n_simulations n_steps : nat) (standard_normal_seeded : nat -> nat -> R)
  : result SimulationStats :=
  lists <- for_range 0 n_simulations
             (fun i lists =>
                out <- simulate_delta_hedging S0 K T r sigma n_steps
                         "short_call" (standard_normal_seeded i) ;;
                let summary := snd out in
                Ok (fst lists ++ [hedging_error summary],
                    snd lists ++ [error_percent summary]))
             ([], []) ;;
  let errors := fst lists in
  let error_percents := snd lists in
  let mean_error := np_mean errors in
  let std_error := np_std errors in
  let mean_error_percent := np_mean error_percents in
  let std_error_percent := np_std error_percents in
  max_error <- np_max (np_abs errors) ;;
  Ok (mkStats mean_error std_error mean_error_percent std_error_percent
        max_error errors).

End DeltaHedging.

Import DeltaHedging.

(** ** [volatility_smile.py]

    [calculate_moneyness], [analyze_volatility_smile] and
    [generate_synthetic_smile_data].  An option of [option_data] is a
    dictionary with the keys ['strike'], ['price'], ['type'] and, when it
    comes from the generator, ['true_vol']; it is a record of optional
    fields here, [None] standing for an absent key, so that reading an
    absent key raises.  The data frame is the list of its rows. *)

Module VolatilitySmile.

(** What can end a call: an exception of the pricing code, or a
    [KeyError] naming the key. *)
Inductive failure : Type :=
| Raised (e : exn)
| KeyError (key : string).

Inductive outcome (A : Type) : Type :=
| Done (a : A)
| Failed (f : failure).

Arguments Done {A} a.
Arguments Failed {A} f.

Definition and_then {A B : Type} (m : outcome A) (f : A -> outcome B)
  : outcome B :=
  match m with
  | Done a => f a
  | Failed e => Failed e
  end.

Definition lift {A : Type} (m : result A) : outcome A :=
  match m with
  | Ok a => Done a
  | Raise e => Failed (Raised e)
  end.

Record OptionQuote : Type := mkQuote {
  q_strike : option R;
  q_price : option R;
  q_type : option string;
  q_true_vol : option R
}.

(** [option[key]] *)
Definition getkey {A : Type} (key : string) (field : option A) : outcome A :=
  match field with
  | Some a => Done a
  | None => Failed (KeyError key)
  end.

Definition calculate_moneyness (S K : R) : result R := py_div K S.

Record SmileRow : Type := mkRow {
  row_strike : R;
  row_moneyness : R;
  row_price : R;
  row_type : string;
  row_implied_vol : volatility
}.

(** The body of the loop of [analyze_volatility_smile]: the row it appends
    for one option. *)
Definition smile_row (S T r : R) (option : OptionQuote) : outcome SmileRow :=
  and_then (getkey "strike" (q_strike option)) (fun K =>
  and_then (getkey "price" (q_price option)) (fun price =>
  and_then (getkey "type" (q_type option)) (fun opt_type =>
  and_then (lift (calculate_implied_vol price S K T r opt_type)) (fun iv =>
  and_then (lift (calculate_moneyness S K)) (fun moneyness =>
  Done (mkRow K moneyness price opt_type iv)))))).

Fixpoint smile_results (S T r : R) (option_data : list OptionQuote)
  : outcome (list SmileRow) :=
  match option_data with
  | [] => Done []
  | option :: rest =>
      and_then (smile_row S T r option) (fun row =>
      and_then (smile_results S T r rest) (fun results =>
      Done (row :: results)))
  end.

Section Sorting.

(** [df.sort_values('strike')] on the rows.  pandas sorts with NumPy's
    default sort, which does not say in which order it leaves rows of
    equal strike: the sort is a parameter, and what is known of it is
    [sorts_by_strike] below. *)
Variable sort_values : list SmileRow -> list SmileRow.

(** An empty list of dictionaries makes a data frame without columns, and
    sorting it by ['strike'] raises [KeyError]. *)
Definition analyze_volatility_smile (option_data : list OptionQuote)
  (S T r : R) : outcome (list SmileRow) :=
  and_then (smile_results S T r option_data) (fun results =>
  match results with
  | [] => Failed (KeyError "strike")
  | _ :: _ => Done (sort_values results)
  end).

End Sorting.

(** Strikes from 80% to 120% of the spot, in steps of 5%. *)
Definition default_strikes (S : R) : list R :=
  map (fun i => S * (0.80 + INR i * 0.05)) (seq 0 9).

Fixpoint synthetic_options (S T r base_vol skew convexity : R)
  (strikes : list R) : result (list OptionQuote) :=
  match strikes with
  | [] => Ok []
  | K :: rest =>
      m <- py_div K S ;;
      let sigma := base_vol + skew * (m - 1) + convexity * (m - 1) ^ 2 in
      let sigma := Rmax sigma 0.05 in
      let opt_type := if Rle_dec S K then "call"%string else "put"%string in
      price <- black_scholes_price S K T r sigma opt_type ;;
      option_data <- synthetic_options S T r base_vol skew convexity rest ;;
      Ok (mkQuote (Some K) (Some price) (Some opt_type) (Some sigma)
            :: option_data)
  end.

Definition generate_synthetic_smile_data (S T r : R)
  (base_vol skew convexity : option R) (strikes : option (list R))
  : result (list OptionQuote) :=
  let base_vol := kwarg 0.2 base_vol in
  let skew := kwarg (-0.1) skew in
  let convexity := kwarg 0.05 convexity in
  let strikes :=
    match strikes with
    | None => default_strikes S
    | Some strikes => strikes
    end in
  synthetic_options S T r base_vol skew convexity strikes.

End VolatilitySmile.

Import VolatilitySmile.

(** ** The numeric core on IEEE 754 doubles

    Python floats and NumPy's [float64] are IEEE 754 binary64 numbers: the
    primitive floats of Rocq, with the same correctly rounded [+], [-],
    [*], [/] and square root, and the same reading of decimal literals.
    The module below is the numeric core of [black_scholes.py],
    [implied_volatility_bisection], [simulate_stock_path] and the cash
    line of [simulate_delta_hedging] once more, on these numbers, to
    compute what the code returns where rounding, underflow or a special
    value decides.

    [np.exp], [np.log] and [norm.cdf] are library routines, and their last
    digit depends on the library.  Only the values that every
    implementation returns are recorded; a computation that needs any
    other value of them is [Unknown]. *)

Module Binary64.

Import PrimFloat.
#[local] Set Warnings "-inexact-float".
Local Open Scope float_scope.

(** How a call ends: with a value, with an exception, or at a value of a
    library routine that is not recorded here. *)
Inductive outcome (A : Type) : Type :=
| Returns (a : A)
| Throws (e : exn)
| Unknown.

Arguments Returns {A} a.
Arguments Throws {A} e.
Arguments Unknown {A}.

Definition and_then {A B : Type} (m : outcome A) (f : A -> outcome B)
  : outcome B :=
  match m with
  | Returns a => f a
  | Throws e => Throws e
  | Unknown => Unknown
  end.

Notation "x <~ m ;; k" := (and_then m (fun x => k))
  (at level 61, m at next level, right associativity).

(** [np.exp]: [exp(+0) = exp(-0) = 1], and [exp(x)] underflows to [0.0]
    once [e^x] is below half the smallest positive double,
    [2^-1075 = e^-745.13...]; it is recorded from [x < -750] on, where
    [e^x] is less than a hundredth of that double. *)
Definition np_exp (x : float) : outcome float :=
  if x =? 0 then Returns 1
  else if x <? -750 then Returns 0
  else Unknown.

(** [np.log]: [log(1) = 0]. *)
Definition np_log (x : float) : outcome float :=
  if x =? 1 then Returns 0 else Unknown.

(** [norm.cdf]: [cdf(+0) = cdf(-0) = 0.5]. *)
Definition norm_cdf (x : float) : outcome float :=
  if x =? 0 then Returns 0.5 else Unknown.

(** [np.sqrt] is the correctly rounded square root; it is not-a-number on
    a negative argument. *)
Definition np_sqrt (x : float) : float := sqrt x.

(** [x / y] on Python floats: a zero divisor, of either sign, raises. *)
Definition py_div (x y : float) : outcome float :=
  if y =? 0 then Throws ZeroDivisionError else Returns (x / y).

(** [x ** 2].  Python calls C's [pow], which returns the exact square
    whenever that is a double (as for the small integers squared below);
    it is read as [x * x]. *)
Definition square (x : float) : float := x * x.

(** An [int] read as a float. *)
Fixpoint of_nat (n : nat) : float :=
  match n with
  | O => 0
  | S n' => of_nat n' + 1
  end.

Definition d1 (S K T r sigma : float) : outcome float :=
  if T <=? 0 then Returns 0
  else
    q <~ py_div S K ;;
    l <~ np_log q ;;
    let numerator := l + (r + 0.5 * square sigma) * T in
    let denominator := sigma * np_sqrt T in
    Returns (numerator / denominator).

Definition d2 (S K T r sigma : float) : outcome float :=
  d_1 <~ d1 S K T r sigma ;;
  Returns (d_1 - sigma * np_sqrt T).

Definition black_scholes_price (S K T r sigma : float) (option_type : string)
  : outcome float :=
  d_1 <~ d1 S K T r sigma ;;
  d_2 <~ d2 S K T r sigma ;;
  discount <~ np_exp (- r * T) ;;
  if (lower option_type =? "call")%string then
    n_1 <~ norm_cdf d_1 ;;
    n_2 <~ norm_cdf d_2 ;;
    Returns (S * n_1 - K * discount * n_2)
  else if (lower option_type =? "put")%string then
    n_2 <~ norm_cdf (- d_2) ;;
    n_1 <~ norm_cdf (- d_1) ;;
    Returns (K * discount * n_2 - S * n_1)
  else
    Throws ValueError.

Record SolverResult : Type := mkSolverResult {
  implied_vol : float;
  converged : bool;
  iterations : Z;
  final_error : float
}.

Section Bisection.

Variables (market_price S K T r : float) (option_type : string)
  (tolerance : float).

Record bisection_locals : Type := mkBisection {
  vol_low : float;
  vol_high : float;
  vol_mid : option float
}.

Fixpoint bisection_loop (todo : nat) (i : Z) (l : bisection_locals)
  : outcome (SolverResult + bisection_locals) :=
  match todo with
  | O => Returns (inr l)
  | Datatypes.S todo' =>
      let mid := (vol_low l + vol_high l) / 2 in
      price_mid <~ black_scholes_price S K T r mid option_type ;;
      let diff := price_mid - market_price in
      if abs diff <? tolerance then
        Returns (inl (mkSolverResult mid true (i + 1) (abs diff)))
      else if 0 <? diff then
        bisection_loop todo' (i + 1)%Z (mkBisection (vol_low l) mid (Some mid))
      else
        bisection_loop todo' (i + 1)%Z (mkBisection mid (vol_high l) (Some mid))
  end.

End Bisection.

Definition implied_volatility_bisection (market_price S K T r : float)
  (option_type : string) (vol_low vol_high tolerance : option float)
  (max_iterations : option Z) : outcome SolverResult :=
  let vol_low := kwarg 0.001 vol_low in
  let vol_high := kwarg 3.0 vol_high in
  let tolerance := kwarg 1e-6 tolerance in
  let max_iterations := kwarg 100%Z max_iterations in
  out <~ bisection_loop market_price S K T r option_type tolerance
           (Z.to_nat max_iterations) 0%Z (mkBisection vol_low vol_high None) ;;
  match out with
  | inl res => Returns res
  | inr l =>
      match vol_mid l with
      | None => Throws UnboundLocalError
      | Some mid =>
          p <~ black_scholes_price S K T r mid option_type ;;
          Returns (mkSolverResult mid false max_iterations
                     (abs (p - market_price)))
      end
  end.

(** A NumPy array of doubles. *)
Definition np_zeros (n : nat) : list float := repeat 0 n.

Definition getitem (a : list float) (i : nat) : outcome float :=
  match nth_error a i with
  | Some x => Returns x
  | None => Throws IndexError
  end.

Fixpoint upd (a : list float) (i : nat) (v : float) : list float :=
  match a, i with
  | [], _ => []
  | _ :: a', O => v :: a'
  | x :: a', Datatypes.S i' => x :: upd a' i' v
  end.

Definition setitem (a : list float) (i : nat) (v : float)
  : outcome (list float) :=
  if (i <? List.length a)%nat then Returns (upd a i v) else Throws IndexError.

Fixpoint for_range {St : Type} (lo count : nat)
  (body : nat -> St -> outcome St) (s : St) : outcome St :=
  match count with
  | O => Returns s
  | Datatypes.S count' => and_then (body lo s) (for_range (Datatypes.S lo) count' body)
  end.

Definition simulate_stock_path (S0 r sigma T : float) (n_steps : nat)
  (standard_normal : nat -> float) : outcome (list float) :=
  dt <~ py_div T (of_nat n_steps) ;;
  let path := np_zeros (n_steps + 1) in
  path <~ setitem path 0 S0 ;;
  for_range 1 n_steps
    (fun i path =>
       let Z := standard_normal (i - 1)%nat in
       prev <~ getitem path (i - 1) ;;
       growth <~ np_exp ((r - 0.5 * square sigma) * dt
                         + sigma * np_sqrt dt * Z) ;;
       setitem path i (prev * growth))
    path.

(** The cash line of the rebalancing loop of [simulate_delta_hedging]
    (lines 164 to 173), from the doubles it reads: the balance and the
    holding of the step before, the new delta, the price [S], and
    [growth], the double that [np.exp(r * dt)] returned. *)
Definition rebalanced_cash (cash_prev shares_prev delta_i S growth : float)
  : float :=
  let delta_change := delta_i - shares_prev in
  let interest := cash_prev * (growth - 1) in
  let transaction_cost := delta_change * S in
  cash_prev + interest - transaction_cost.

End Binary64.

(** * Vocabulary of the properties *)

(** ** Option kinds *)

Definition is_call (option_type : string) : Prop := lower option_type = "call"%string.
Definition is_put (option_type : string) : Prop := lower option_type = "put"%string.
Definition valid_kind (option_type : string) : Prop :=
  is_call option_type \/ is_put option_type.

(** The number [d1] computes when its division is defined. *)
Definition d1_value (S K T r sigma : R) : R :=
  if Rle_dec T 0 then 0
  else (ln (S / K) + (r + 0.5 * sigma ^ 2) * T) / (sigma * sqrt T).

(** Where the bisection loop leaves its locals. *)
Definition bisection_end_ok (lo hi : R) (out : loop_end bisection_locals) : Prop :=
  match out with
  | Returned res => lo < implied_vol res < hi
  | Fell l =>
      lo <= vol_low l /\ vol_low l < vol_high l /\ vol_high l <= hi /\
      forall m, vol_mid l = Some m -> lo < m < hi
  end.

(** ** Newton-Raphson: the protocol of the specification

    The protocol as the specification words it, a transition system on
    (iterations done, current volatility): start at 0.20; give up after
    [max_iterations] iterations; in an iteration compute
    error = price - market price and stop, converged, when
    |error| < tolerance; otherwise leave the loop when |vega * 100| < 1e-10,
    else replace sigma by sigma - error / (vega * 100), reset to 0.01 when
    that is <= 0. *)

Module NewtonSpec.

Inductive outcome : Type :=
| Converged (sigma : R) (count : nat) (error : R)
| GaveUp (sigma : R).

Definition start : R := 0.20.

Definition reset_if_nonpositive (sigma : R) : R :=
  if Rle_dec sigma 0 then 0.01 else sigma.

Section Protocol.

Variables (market_price S K T r : R) (option_type : string).
Variables (tolerance : R) (max_iterations : nat).

Inductive run : nat -> R -> outcome -> Prop :=
| run_exhausted done sigma :
    done = max_iterations ->
    run done sigma (GaveUp sigma)
| run_converged done sigma price :
    (done < max_iterations)%nat ->
    black_scholes_price S K T r sigma option_type = Ok price ->
    Rabs (price - market_price) < tolerance ->
    run done sigma (Converged sigma (done + 1) (Rabs (price - market_price)))
| run_abort done sigma price v :
    (done < max_iterations)%nat ->
    black_scholes_price S K T r sigma option_type = Ok price ->
    ~ Rabs (price - market_price) < tolerance ->
    vega S K T r sigma = Ok v ->
    Rabs (v * 100) < 1e-10 ->
    run done sigma (GaveUp sigma)
| run_update done sigma price v o :
    (done < max_iterations)%nat ->
    black_scholes_price S K T r sigma option_type = Ok price ->
    ~ Rabs (price - market_price) < tolerance ->
    vega S K T r sigma = Ok v ->
    ~ Rabs (v * 100) < 1e-10 ->
    run (Datatypes.S done)
      (reset_if_nonpositive (sigma - (price - market_price) / (v * 100))) o ->
    run done sigma o.

End Protocol.

End NewtonSpec.

(** How a way out of the source's loop matches an outcome of the protocol. *)
Definition loop_matches (out : loop_end R) (o : NewtonSpec.outcome) : Prop :=
  match out, o with
  | Returned res, NewtonSpec.Converged sigma count error =>
      res = mkSolverResult sigma true (Z.of_nat count) error
  | Fell sigma, NewtonSpec.GaveUp sigma' => sigma = sigma'
  | _, _ => False
  end.

(** What holds of the path once the entries below [i] are written. *)
Definition path_inv (S0 r sigma dt : R) (standard_normal : nat -> R)
  (n_steps i : nat) (path : array) : Prop :=
  List.length path = (n_steps + 1)%nat /\
  nth 0 path 0 = S0 /\
  (forall j, (j < i)%nat -> 0 < nth j path 0) /\
  (forall j, (1 <= j < i)%nat ->
     nth j path 0 =
     nth (j - 1) path 0
     * exp ((r - 0.5 * sigma ^ 2) * dt
            + sigma * sqrt dt * standard_normal (j - 1)%nat)).

(** What holds of the five arrays once the rows below [i] are written:
    every written row satisfies the portfolio identity, and every written
    row after the first the cash recurrence. *)
Definition hedge_inv (r dt : R) (n_steps : nat) (stock_path : array)
  (i : nat) (a : HedgeArrays) : Prop :=
  (List.length (a_deltas a) = (n_steps + 1)%nat /\
   List.length (a_shares a) = (n_steps + 1)%nat /\
   List.length (a_option_values a) = (n_steps + 1)%nat /\
   List.length (a_cash a) = (n_steps + 1)%nat /\
   List.length (a_portfolio_values a) = (n_steps + 1)%nat) /\
  (forall j, (j < i)%nat ->
     nth j (a_portfolio_values a) 0 =
     nth j (a_cash a) 0 + nth j (a_shares a) 0 * nth j stock_path 0
     - nth j (a_option_values a) 0) /\
  (forall j, (1 <= j < i)%nat ->
     nth j (a_cash a) 0 =
     nth (j - 1) (a_cash a) 0 * exp (r * dt)
     - (nth j (a_deltas a) 0 - nth (j - 1) (a_shares a) 0) * nth j stock_path 0).

(** ** Vocabulary of the further properties *)

Definition differentiable_at (f : R -> R) (x : R) : Prop :=
  exists l, derivable_pt_lim f x l.

(** The value a call returns, as a number. *)
Definition value_of (m : result R) : R :=
  match m with
  | Ok x => x
  | Raise _ => 0
  end.

(** The price as a function of the volatility alone. *)
Definition price_at (S K T r : R) (option_type : string) (sigma : R) : R :=
  value_of (black_scholes_price S K T r sigma option_type).

Definition midpoint (l : bisection_locals) : R := (vol_low l + vol_high l) / 2.

(** The locals of the bisection after an iteration that did not return,
    when the market price is the model's price at [true_vol]. *)
Definition bisection_next (S K T r : R) (option_type : string) (true_vol : R)
  (l : bisection_locals) : bisection_locals :=
  if Rlt_dec 0 (price_at S K T r option_type (midpoint l)
                - price_at S K T r option_type true_vol)
  then mkBisection (vol_low l) (midpoint l) (Some (midpoint l))
  else mkBisection (midpoint l) (vol_high l) (Some (midpoint l)).

(** The search interval brackets [true_vol], [k] halvings after the
    start, when it was [W] wide at the start. *)
Definition bracket_inv (true_vol W : R) (k : nat) (l : bisection_locals) : Prop :=
  0 < vol_low l /\ vol_low l <= true_vol <= vol_high l /\
  vol_high l - vol_low l = W / 2 ^ k /\
  forall m, vol_mid l = Some m -> Rabs (m - true_vol) <= W / 2 ^ k.

(** The option value and the delta the rebalancing loop writes in a row,
    from the spot and the time left. *)
Definition row_valuation (K r sigma : R) (option_type : string) (S tau : R)
  : R * R :=
  if Rlt_dec 0.0001 tau then
    (value_of (black_scholes_price S K tau r sigma option_type),
     value_of (delta S K tau r sigma option_type))
  else if (option_type =? "call")%string then
    (Rmax (S - K) 0, if Rlt_dec K S then 1 else 0)
  else
    (Rmax (K - S) 0, if Rlt_dec S K then -1 else 0).

(** What the rows below [i] hold, beyond [hedge_inv]. *)
Definition rows_inv (K T r sigma : R) (option_type : string)
  (times stock_path : array) (premium delta_0 S0 : R)
  (i : nat) (a : HedgeArrays) : Prop :=
  nth 0 (a_option_values a) 0 = premium /\
  nth 0 (a_deltas a) 0 = delta_0 /\
  nth 0 (a_cash a) 0 = premium - delta_0 * S0 /\
  (forall j, (j < i)%nat -> nth j (a_shares a) 0 = nth j (a_deltas a) 0) /\
  (forall j, (1 <= j < i)%nat ->
     (nth j (a_option_values a) 0, nth j (a_deltas a) 0)
     = row_valuation K r sigma option_type (nth j stock_path 0)
         (T - nth j times 0)).

(** The kind the simulator prices, from the position. *)
Definition kind_of_position (position : string) : string :=
  if str_in "call" (lower position) then "call"%string else "put"%string.

(** The sum of the first [i] draws. *)
Fixpoint sum_draws (standard_normal : nat -> R) (i : nat) : R :=
  match i with
  | O => 0
  | Datatypes.S i' => sum_draws standard_normal i' + standard_normal i'
  end.

(** What the two lists hold after [i] simulations. *)
Definition runs_inv (S0 K T r sigma : R) (n_steps : nat)
  (standard_normal_seeded : nat -> nat -> R) (i : nat)
  (lists : list R * list R) : Prop :=
  List.length (fst lists) = i /\ List.length (snd lists) = i /\
  forall j, (j < i)%nat ->
    exists df summary,
      simulate_delta_hedging S0 K T r sigma n_steps "short_call"
        (standard_normal_seeded j) = Ok (df, summary) /\
      nth j (fst lists) 0 = hedging_error summary /\
      nth j (snd lists) 0 = error_percent summary /\
      0 <= nth j (snd lists) 0.

(** What is known of the sort: it permutes the rows and leaves them in
    non-decreasing order of strike. *)
Definition sorts_by_strike (sort_values : list SmileRow -> list SmileRow) : Prop :=
  forall rows,
    Permutation rows (sort_values rows) /\
    StronglySorted (fun a b => row_strike a <= row_strike b) (sort_values rows).

(** A sort that meets it: insertion by strike. *)
Fixpoint insert_row (row : SmileRow) (rows : list SmileRow) : list SmileRow :=
  match rows with
  | [] => [row]
  | x :: rest =>
      if Rle_dec (row_strike row) (row_strike x)
      then row :: x :: rest
      else x :: insert_row row rest
  end.

Definition insertion_sort (rows : list SmileRow) : list SmileRow :=
  fold_right insert_row [] rows.

(** An option that [smile_row] accepts, and the row it gives. *)
Definition row_of_quote (S T r : R) (q : OptionQuote) (row : SmileRow) : Prop :=
  q_strike q = Some (row_strike row) /\
  q_price q = Some (row_price row) /\
  q_type q = Some (row_type row) /\
  calculate_implied_vol (row_price row) S (row_strike row) T r (row_type row)
  = Ok (row_implied_vol row) /\
  row_moneyness row = row_strike row / S.

Definition well_formed_quote (T : R) (q : OptionQuote) : Prop :=
  exists K price kind,
    q_strike q = Some K /\ q_price q = Some price /\ q_type q = Some kind /\
    valid_kind kind /\ (K <> 0 \/ T <= 0).

(** An option with its three keys, a kind that is call or put and a
    positive strike. *)
Definition listed_option (q : OptionQuote) : Prop :=
  exists K price kind,
    q_strike q = Some K /\ q_price q = Some price /\ q_type q = Some kind /\
    valid_kind kind /\ 0 < K.

(** An option as the generator builds it from a strike. *)
Definition synthetic_quote (S T r base_vol skew convexity K : R)
  (q : OptionQuote) : Prop :=
  exists sigma price,
    q = mkQuote (Some K) (Some price)
          (Some (if Rle_dec S K then "call"%string else "put"%string))
          (Some sigma) /\
    sigma = Rmax (base_vol + skew * (K / S - 1) + convexity * (K / S - 1) ^ 2) 0.05 /\
    0.05 <= sigma /\
    black_scholes_price S K T r sigma
      (if Rle_dec S K then "call"%string else "put"%string) = Ok price.

(** A row whose implied volatility was found and reprices the option. *)
Definition row_reprices (S T r : R) (row : SmileRow) : Prop :=
  exists sigma p,
    row_implied_vol row = Vol sigma /\ 0 < sigma /\
    black_scholes_price S (row_strike row) T r sigma (row_type row) = Ok p /\
    Rabs (p - row_price row) < 1e-6.

(** * Properties *)

(** ** What rounding decides

    Four of the properties below hold in exact arithmetic and fail on
    doubles.  Each failing run is computed here on [Binary64], at an input
    where the library routines are only asked for the values recorded
    there. *)

Section OnDoubles.

Import PrimFloat.
#[local] Set Warnings "-inexact-float".
Local Open Scope float_scope.

(** C2, as stated, fails on doubles.  At S = 1e16, K = 1, T = 0 (r = 5%,
    sigma = 20%) [d1] and [d2] are 0, the discount factor is 1, the call
    is 1e16 * 0.5 - 1 * 1 * 0.5 = 4999999999999999.5 rounded to
    5000000000000000, and the put its opposite: put + S is
    5000000000000000 and call + K * exp(-r*T) is 5000000000000001.  They
    differ by 1, not by less than 1e-6. *)
Lemma parity_gap_on_doubles :
  exists put call discount,
    Binary64.black_scholes_price 1e16 1 0 0.05 0.2 "put"
    = Binary64.Returns put /\
    Binary64.black_scholes_price 1e16 1 0 0.05 0.2 "call"
    = Binary64.Returns call /\
    Binary64.np_exp (- 0.05 * 0) = Binary64.Returns discount /\
    put + 1e16 = 5000000000000000 /\
    call + 1 * discount = 5000000000000001 /\
    (abs ((put + 1e16) - (call + 1 * discount)) <? 1e-6) = false.
Proof.
  exists (-5000000000000000), 5000000000000000, 1.
  repeat split; vm_compute; reflexivity.
Qed.

(** C9, as stated, fails on doubles.  With a market price of 200 for a
    call on S = 100, K = 50 at T = 0 (model price 25 at every volatility)
    each midpoint is too cheap and becomes the new [vol_low]; from the
    54th iteration on the midpoint of [vol_low] and 3.0 rounds to 3.0, and
    the result reports implied_vol = 3.0 = vol_high, not a value below
    it.  With a market price of -200 each midpoint is too dear, and the
    result reports implied_vol = 0.001 = vol_low. *)
Lemma bisection_returns_a_bound :
  (exists res,
     Binary64.implied_volatility_bisection 200 100 50 0 0.05 "call"
       None None None None = Binary64.Returns res /\
     Binary64.converged res = false /\
     Binary64.implied_vol res = 3.0 /\
     (Binary64.implied_vol res <? kwarg 3.0 None) = false) /\
  (exists res,
     Binary64.implied_volatility_bisection (-200) 100 50 0 0.05 "call"
       None None None None = Binary64.Returns res /\
     Binary64.converged res = false /\
     Binary64.implied_vol res = 0.001 /\
     (kwarg 0.001 None <? Binary64.implied_vol res) = false).
Proof.
  split.
  - exists (Binary64.mkSolverResult 3 false 100 175).
    repeat split; vm_compute; reflexivity.
  - exists (Binary64.mkSolverResult 0.001 false 100 225).
    repeat split; vm_compute; reflexivity.
Qed.

(** C8, as stated, fails on doubles.  With sigma = 40 (S0 = 100, r = 5%,
    T = 1, one step) and the draw 0.4967141530112327, the first that seed
    42 gives, the exponent is (0.05 - 0.5 * 1600) * 1 + 40 * 1 * 0.4967...
    = -780.08..., [np.exp] underflows to 0.0 and the path is [100.0, 0.0]:
    its last price is not positive. *)
Lemma stock_path_reaches_zero :
  exists path,
    Binary64.simulate_stock_path 100 0.05 40 1 1
      (fun _ => 0.4967141530112327) = Binary64.Returns path /\
    path = [100; 0] /\
    (0 <? nth 1 path 1) = false.
Proof. exists [100; 0]. repeat split; vm_compute; reflexivity. Qed.

(** C7, as stated, fails on doubles.  With r = 5% and dt = 0.5,
    [np.exp(r * dt)] is 1.0253151205244289, the double nearest to
    e^0.025.  From a balance of -44.2 and a holding of 0.5, a new delta of
    1 at a price of 110 makes the code write
    cash + cash * (growth - 1) - cost = -100.31892832717976, while
    cash * growth - cost is -100.31892832717975. *)
Lemma cash_differs_in_last_place :
  0.05 * 0.5 = 0.025 /\
  Binary64.rebalanced_cash (-44.2) 0.5 1 110 1.0253151205244289
  = -100.31892832717976 /\
  (-44.2) * 1.0253151205244289 - (1 - 0.5) * 110 = -100.31892832717975 /\
  (Binary64.rebalanced_cash (-44.2) 0.5 1 110 1.0253151205244289
   =? (-44.2) * 1.0253151205244289 - (1 - 0.5) * 110) = false.
Proof. repeat split; vm_compute; reflexivity. Qed.

End OnDoubles.

(** ** The error monad and the arrays *)

Lemma bind_Ok_inv {A B : Type} (m : result A) (f : A -> result B) (b : B) :
  bind m f = Ok b -> exists a, m = Ok a /\ f a = Ok b.
Proof. destruct m as [a | e]; simpl; [eauto | discriminate]. Qed.

Lemma py_div_ok (x y : R) : y <> 0 -> py_div x y = Ok (x / y).
Proof. intro H. unfold py_div. destruct (Req_dec_T y 0); [contradiction | reflexivity]. Qed.

Lemma upd_length (a : array) i v : List.length (upd a i v) = List.length a.
Proof.
  revert i. induction a as [| x a IH]; intros [| i]; simpl; auto.
Qed.

Lemma nth_upd_same (a : array) i v d :
  (i < List.length a)%nat -> nth i (upd a i v) d = v.
Proof.
  revert i. induction a as [| x a IH]; intros [| i] H; simpl in *; try lia; auto.
  apply IH. lia.
Qed.

Lemma nth_upd_other (a : array) i j v d : i <> j -> nth j (upd a i v) d = nth j a d.
Proof.
  revert i j. induction a as [| x a IH]; intros [| i] [| j] H; simpl; auto; try lia.
Qed.

Lemma getitem_ok (a : array) i :
  (i < List.length a)%nat -> getitem a i = Ok (nth i a 0).
Proof.
  intro H. unfold getitem.
  rewrite (nth_error_nth' a 0 H). reflexivity.
Qed.

Lemma setitem_ok (a : array) i v :
  (i < List.length a)%nat -> setitem a i v = Ok (upd a i v).
Proof.
  intro H. unfold setitem. apply Nat.ltb_lt in H. now rewrite H.
Qed.

Lemma last_cons (a : array) (x y : R) : last (y :: a) x = last a y.
Proof.
  revert x y. induction a as [| z a IH]; intros x y; [reflexivity |].
  change (last (y :: z :: a) x) with (last (z :: a) x).
  now rewrite !IH.
Qed.

Lemma last_nth (a : array) (x : R) : last a x = nth (List.length a) (x :: a) 0.
Proof.
  revert x. induction a as [| y a IH]; intro x; [reflexivity |].
  change (nth (List.length (y :: a)) (x :: y :: a) 0) with (nth (List.length a) (y :: a) 0).
  rewrite <- IH. apply last_cons.
Qed.

Lemma getitem_last_ok (a : array) :
  (0 < List.length a)%nat -> getitem_last a = Ok (nth (List.length a - 1) a 0).
Proof.
  destruct a as [| x a]; simpl; [lia |]. intros _. f_equal.
  rewrite Nat.sub_0_r. apply last_nth.
Qed.

Lemma np_zeros_length n : List.length (np_zeros n) = n.
Proof. apply repeat_length. Qed.

(** A loop invariant indexed by the loop variable carries through
    [for_range], and the loop does not raise. *)
Lemma for_range_invariant {St : Type} (Inv : nat -> St -> Prop)
  (body : nat -> St -> result St) (count lo : nat) (s : St) :
  Inv lo s ->
  (forall i s0, (lo <= i < lo + count)%nat -> Inv i s0 ->
                exists s1, body i s0 = Ok s1 /\ Inv (Datatypes.S i) s1) ->
  exists s', for_range lo count body s = Ok s' /\ Inv (lo + count)%nat s'.
Proof.
  revert lo s. induction count as [| count IH]; intros lo s H0 Hstep; simpl.
  - exists s. rewrite Nat.add_0_r. auto.
  - destruct (Hstep lo s) as [s1 [E1 I1]]; [lia | exact H0 |].
    rewrite E1. simpl.
    destruct (IH (Datatypes.S lo) s1 I1) as [s' [E' I']].
    + intros i s0 Hi. apply Hstep. lia.
    + exists s'. split; [exact E' |].
      replace (lo + Datatypes.S count)%nat with (Datatypes.S lo + count)%nat by lia.
      exact I'.
Qed.

(** ** The normal distribution *)

Lemma gauss_even t : gauss (- t) = gauss t.
Proof. unfold gauss. f_equal. lra. Qed.

Lemma G_odd x : G (- x) = - G x.
Proof.
  set (H := fun t => G t + G (- t)).
  assert (D : forall t, derivable_pt_lim H t 0).
  { intro t. unfold H. replace 0 with (gauss t + gauss (- t) * -1)
      by (rewrite gauss_even; ring).
    apply (derivable_pt_lim_plus G (fun t => G (- t))); [apply G_deriv |].
    apply (derivable_pt_lim_comp (fun t => - t) G).
    - apply (dlim_ext (fun t => -1 * t + 0)); [intro; ring | apply dlim_affine].
    - apply G_deriv. }
  assert (Hd : derivable H) by (intro t; exists 0; apply D).
  assert (Hc : constant H).
  { apply (null_derivative_1 H Hd). intro t. apply derive_pt_eq_0, D. }
  specialize (Hc x 0). unfold H in Hc.
  replace (- 0) with 0 in Hc by ring. rewrite G_0 in Hc. lra.
Qed.

Lemma half_mass_lub : is_lub G_values half_mass.
Proof. unfold half_mass. apply proj2_sig. Qed.

Lemma G_le_half_mass x : G x <= half_mass.
Proof. apply (proj1 half_mass_lub). now exists x. Qed.

Lemma G_ge_opp_half_mass x : - half_mass <= G x.
Proof. pose proof (G_le_half_mass (- x)) as H. rewrite G_odd in H. lra. Qed.

Lemma half_mass_pos : 0 < half_mass.
Proof.
  pose proof (G_le_half_mass 1) as H1. pose proof (G_strict_increasing 0 1 Rlt_0_1) as H.
  rewrite G_0 in H. lra.
Qed.

Lemma G_tail eps : 0 < eps -> exists M, forall x, x <= M -> half_mass + G x < eps.
Proof.
  intro He.
  assert (Hex : exists y, half_mass - eps < G y).
  { destruct (Classical_Prop.classic (exists y, half_mass - eps < G y)) as [Hy | Hn]; [exact Hy |].
    exfalso. assert (Hub : is_upper_bound G_values (half_mass - eps)).
    { intros z [y ->]. apply Rnot_lt_le. intro Hlt. apply Hn. now exists y. }
    pose proof (proj2 half_mass_lub _ Hub). lra. }
  destruct Hex as [y Hy]. exists (- y). intros x Hx.
  pose proof (G_increasing x (- y) Hx) as H. rewrite G_odd in H. lra.
Qed.

Lemma tilt (a x : R) :
  0 <= a -> half_mass + G (x - a) <= exp (a * x - a * a / 2) * (half_mass + G x).
Proof.
  intro Ha.
  set (E := fun t => exp (a * t - a * a / 2)).
  set (h := fun t => E t * (half_mass + G t) - (half_mass + G (t - a))).
  assert (DE : forall t, derivable_pt_lim E t (E t * a)).
  { intro t. unfold E. apply (dlim_exp_comp (fun t => a * t - a * a / 2)).
    apply (dlim_ext (fun t => a * t + - (a * a / 2))); [intro; ring | apply dlim_affine]. }
  assert (EG : forall t, E t * gauss t = gauss (t - a)).
  { intro t. unfold E, gauss. rewrite <- exp_plus. f_equal. field. }
  assert (D : forall t, derivable_pt_lim h t (a * E t * (half_mass + G t))).
  { intro t. unfold h.
    replace (a * E t * (half_mass + G t))
      with ((E t * a * (half_mass + G t) + E t * (0 + gauss t)) - (0 + gauss (t - a) * 1))
      by (rewrite <- EG; ring).
    apply (derivable_pt_lim_minus (fun t => E t * (half_mass + G t))
             (fun t => half_mass + G (t - a))).
    - apply (derivable_pt_lim_mult E (fun t => half_mass + G t)); [apply DE |].
      apply (derivable_pt_lim_plus (fct_cte half_mass) G);
        [apply derivable_pt_lim_const | apply G_deriv].
    - apply (derivable_pt_lim_plus (fct_cte half_mass) (fun t => G (t - a)));
        [apply derivable_pt_lim_const |].
      apply (derivable_pt_lim_comp (fun t => t - a) G); [| apply G_deriv].
      apply (dlim_ext (fun t => 1 * t + - a)); [intro; ring | apply dlim_affine]. }
  assert (Hd : derivable h) by (intro t; eexists; apply D).
  assert (Hi : increasing h).
  { apply (nonneg_derivative_1 h Hd). intro t.
    rewrite (derive_pt_eq_0 _ _ _ (Hd t) (D t)).
    pose proof (G_ge_opp_half_mass t). assert (0 < E t) by apply exp_pos.
    apply Rmult_le_pos; [apply Rmult_le_pos; lra | lra]. }
  assert (Hge : forall eps, 0 < eps -> - eps < h x).
  { intros eps He. destruct (G_tail eps He) as [M HM].
    set (y := Rmin x M).
    assert (Hyx : y <= x) by apply Rmin_l.
    assert (HyM : y - a <= M) by (pose proof (Rmin_r x M); unfold y; lra).
    pose proof (Hi y x Hyx) as Hm. pose proof (HM _ HyM) as Ht.
    assert (0 <= E y * (half_mass + G y)).
    { apply Rmult_le_pos; [left; apply exp_pos | pose proof (G_ge_opp_half_mass y); lra]. }
    unfold h in Hm at 1. lra. }
  assert (H0 : 0 <= h x).
  { apply Rnot_lt_le. intro Hneg. specialize (Hge (- h x)). lra. }
  unfold h, E in H0. lra.
Qed.

Lemma norm_const_pos : 0 < norm_const.
Proof. unfold norm_const. pose proof half_mass_pos. lra. Qed.

Lemma norm_pdf_pos x : 0 < norm_pdf x.
Proof.
  unfold norm_pdf. apply Rdiv_lt_0_compat; [apply gauss_pos | apply norm_const_pos].
Qed.

Lemma norm_cdf_0 : norm_cdf 0 = 1 / 2.
Proof.
  unfold norm_cdf, norm_const. rewrite G_0. pose proof half_mass_pos. field. lra.
Qed.

Lemma norm_cdf_opp x : norm_cdf (- x) = 1 - norm_cdf x.
Proof.
  unfold norm_cdf, norm_const. rewrite G_odd. pose proof half_mass_pos. field. lra.
Qed.

Lemma norm_cdf_range x : 0 <= norm_cdf x <= 1.
Proof.
  pose proof (G_le_half_mass x). pose proof (G_ge_opp_half_mass x).
  pose proof norm_const_pos as Hc. unfold norm_cdf. split.
  - apply Rmult_le_pos; [lra | left; now apply Rinv_0_lt_compat].
  - apply (Rmult_le_reg_r norm_const); [exact Hc |].
    unfold Rdiv. rewrite Rmult_assoc, Rinv_l by lra. unfold norm_const. lra.
Qed.

Lemma norm_cdf_deriv x : derivable_pt_lim norm_cdf x (norm_pdf x).
Proof.
  unfold norm_pdf.
  apply (dlim_ext (fun t => (fct_cte half_mass t + G t) * / norm_const));
    [intro; reflexivity |].
  replace (gauss x / norm_const) with ((0 + gauss x) * / norm_const) by (unfold Rdiv; ring).
  apply (dlim_ext (mult_real_fct (/ norm_const) (fct_cte half_mass + G)%F)).
  { intro t. unfold mult_real_fct, plus_fct. ring. }
  replace ((0 + gauss x) * / norm_const) with (/ norm_const * (0 + gauss x)) by ring.
  apply derivable_pt_lim_scal.
  apply derivable_pt_lim_plus; [apply derivable_pt_lim_const | apply G_deriv].
Qed.

(** The inequality behind the sign of the Black-Scholes price: shifting
    the argument down by [a >= 0] costs at least the exponential factor
    [exp (a * x - a^2 / 2)]. *)
Lemma norm_cdf_tilt (a x : R) :
  0 <= a -> norm_cdf (x - a) <= exp (a * x - a * a / 2) * norm_cdf x.
Proof.
  intro Ha. pose proof (tilt a x Ha) as H. pose proof norm_const_pos as Hc.
  unfold norm_cdf, Rdiv. rewrite <- Rmult_assoc.
  apply Rmult_le_compat_r; [left; now apply Rinv_0_lt_compat | exact H].
Qed.

(** ** Strings *)

Example lower_mixed_case : lower "Short_CALL" = "short_call"%string.
Proof. reflexivity. Qed.

Example call_in_short_call : str_in "call" (lower "short_call") = true.
Proof. reflexivity. Qed.

Example call_not_in_short_put : str_in "call" (lower "short_put") = false.
Proof. reflexivity. Qed.

Example upper_case_call_is_call : is_call "CALL".
Proof. reflexivity. Qed.

(** ** The pricing engine *)

Lemma d1_ok (S K T r sigma : R) :
  K <> 0 \/ T <= 0 -> d1 S K T r sigma = Ok (d1_value S K T r sigma).
Proof.
  intros H. unfold d1, d1_value. destruct (Rle_dec T 0) as [HT | HT]; [reflexivity |].
  destruct H as [H | H]; [| contradiction].
  rewrite (py_div_ok _ _ H). reflexivity.
Qed.

Lemma d2_ok (S K T r sigma : R) :
  K <> 0 \/ T <= 0 ->
  d2 S K T r sigma = Ok (d1_value S K T r sigma - sigma * sqrt T).
Proof. intros H. unfold d2. rewrite (d1_ok _ _ _ _ _ H). reflexivity. Qed.

Lemma price_call (S K T r sigma : R) (option_type : string) :
  K <> 0 \/ T <= 0 -> is_call option_type ->
  black_scholes_price S K T r sigma option_type =
  Ok (S * norm_cdf (d1_value S K T r sigma)
      - K * exp (- r * T) * norm_cdf (d1_value S K T r sigma - sigma * sqrt T)).
Proof.
  intros H Hc. unfold black_scholes_price.
  rewrite (d1_ok _ _ _ _ _ H), (d2_ok _ _ _ _ _ H). simpl.
  rewrite Hc. reflexivity.
Qed.

Lemma price_put (S K T r sigma : R) (option_type : string) :
  K <> 0 \/ T <= 0 -> is_put option_type ->
  black_scholes_price S K T r sigma option_type =
  Ok (K * exp (- r * T) * norm_cdf (- (d1_value S K T r sigma - sigma * sqrt T))
      - S * norm_cdf (- d1_value S K T r sigma)).
Proof.
  intros H Hc. unfold black_scholes_price.
  rewrite (d1_ok _ _ _ _ _ H), (d2_ok _ _ _ _ _ H). simpl.
  rewrite Hc. reflexivity.
Qed.

Lemma price_invalid (S K T r sigma : R) (option_type : string) :
  K <> 0 \/ T <= 0 -> ~ valid_kind option_type ->
  black_scholes_price S K T r sigma option_type = Raise ValueError.
Proof.
  intros H Hn. unfold black_scholes_price.
  rewrite (d1_ok _ _ _ _ _ H), (d2_ok _ _ _ _ _ H). simpl.
  destruct (String.eqb_spec (lower option_type) "call") as [E | _].
  { exfalso. apply Hn. now left. }
  destruct (String.eqb_spec (lower option_type) "put") as [E | _].
  { exfalso. apply Hn. now right. }
  reflexivity.
Qed.

Lemma price_ok (S K T r sigma : R) (option_type : string) :
  K <> 0 \/ T <= 0 -> valid_kind option_type ->
  exists p, black_scholes_price S K T r sigma option_type = Ok p.
Proof.
  intros H [Hc | Hp]; eexists; [apply price_call | apply price_put]; assumption.
Qed.

(** The parity identity is exact over the reals, whatever [d1] is. *)
Lemma parity_exact (S K T r sigma : R) :
  K <> 0 \/ T <= 0 ->
  exists p c,
    black_scholes_price S K T r sigma "put" = Ok p /\
    black_scholes_price S K T r sigma "call" = Ok c /\
    p + S = c + K * exp (- r * T).
Proof.
  intro H. eexists. eexists.
  split; [apply price_put; [exact H | reflexivity] |].
  split; [apply price_call; [exact H | reflexivity] |].
  rewrite !norm_cdf_opp. ring.
Qed.

(** C2, amended.  In exact arithmetic, for S > 0, K > 0, T >= 0, any r and
    sigma > 0, the put price plus S equals the call price plus
    K * exp(-r*T); so the two differ by less than 1e-6, and by less than
    any other tolerance. *)
Theorem put_call_parity (S K T r sigma : R) :
  0 < S -> 0 < K -> 0 <= T -> 0 < sigma ->
  exists p c,
    black_scholes_price S K T r sigma "put" = Ok p /\
    black_scholes_price S K T r sigma "call" = Ok c /\
    p + S = c + K * exp (- r * T) /\
    Rabs ((p + S) - (c + K * exp (- r * T))) < 1e-6.
Proof.
  intros HS HK HT Hs.
  destruct (parity_exact S K T r sigma) as [p [c [Hp [Hc E]]]]; [left; lra |].
  exists p, c. repeat split; try assumption.
  rewrite E. replace (c + K * exp (- r * T) - (c + K * exp (- r * T))) with 0 by ring.
  rewrite Rabs_R0. lra.
Qed.

(** C2, amended, at S = K = 100, T = 1, r = 5%, sigma = 20%. *)
Lemma put_call_parity_witness :
  exists p c,
    black_scholes_price 100 100 1 0.05 0.2 "put" = Ok p /\
    black_scholes_price 100 100 1 0.05 0.2 "call" = Ok c /\
    p + 100 = c + 100 * exp (- (0.05) * 1) /\
    Rabs ((p + 100) - (c + 100 * exp (- (0.05) * 1))) < 1e-6.
Proof. apply (put_call_parity 100 100 1 0.05 0.2); lra. Defined.

(** The forward price in terms of [d1]: with [a = sigma * sqrt T] and
    [x = d1], [S = K * exp (- r * T) * exp (a * x - a^2 / 2)]. *)
Lemma spot_from_d1 (S K T r sigma : R) :
  0 < S -> 0 < K -> 0 < T -> 0 < sigma ->
  let a := sigma * sqrt T in
  let x := d1_value S K T r sigma in
  S = K * exp (- r * T) * exp (a * x - a * a / 2).
Proof.
  intros HS HK HT Hs a x.
  assert (Hq : 0 < sqrt T) by now apply sqrt_lt_R0.
  assert (Ha : 0 < a) by (unfold a; now apply Rmult_lt_0_compat).
  assert (Hsq : a * a = sigma ^ 2 * T).
  { unfold a. replace (sigma * sqrt T * (sigma * sqrt T))
      with (sigma ^ 2 * (sqrt T * sqrt T)) by ring.
    rewrite sqrt_sqrt by lra. reflexivity. }
  assert (Hax : a * x = ln (S / K) + (r + 0.5 * sigma ^ 2) * T).
  { unfold x, d1_value. destruct (Rle_dec T 0) as [HT0 | _]; [lra |].
    fold a. field. lra. }
  replace (a * x - a * a / 2) with (ln (S / K) + r * T) by (rewrite Hax, Hsq; lra).
  rewrite exp_plus, exp_ln by (apply Rdiv_lt_0_compat; assumption).
  replace (K * exp (- r * T) * (S / K * exp (r * T)))
    with (S * (exp (- r * T) * exp (r * T))) by (field; lra).
  rewrite <- exp_plus. replace (- r * T + r * T) with 0 by ring.
  rewrite exp_0. ring.
Qed.

Lemma call_value_nonneg (S K T r sigma : R) :
  0 < S -> 0 < K -> 0 < T -> 0 < sigma ->
  0 <= S * norm_cdf (d1_value S K T r sigma)
       - K * exp (- r * T) * norm_cdf (d1_value S K T r sigma - sigma * sqrt T).
Proof.
  intros HS HK HT Hs.
  pose proof (spot_from_d1 S K T r sigma HS HK HT Hs) as E. cbv zeta in E.
  set (a := sigma * sqrt T) in *. set (x := d1_value S K T r sigma) in *.
  assert (Ha : 0 <= a).
  { unfold a. apply Rmult_le_pos; [lra | apply sqrt_pos]. }
  pose proof (norm_cdf_tilt a x Ha) as Ht.
  assert (HD : 0 < K * exp (- r * T)) by (apply Rmult_lt_0_compat; [lra | apply exp_pos]).
  rewrite E at 1.
  replace (K * exp (- r * T) * exp (a * x - a * a / 2) * norm_cdf x
           - K * exp (- r * T) * norm_cdf (x - a))
    with (K * exp (- r * T) * (exp (a * x - a * a / 2) * norm_cdf x - norm_cdf (x - a)))
    by ring.
  apply Rmult_le_pos; lra.
Qed.

Lemma put_value_nonneg (S K T r sigma : R) :
  0 < S -> 0 < K -> 0 < T -> 0 < sigma ->
  0 <= K * exp (- r * T) * norm_cdf (- (d1_value S K T r sigma - sigma * sqrt T))
       - S * norm_cdf (- d1_value S K T r sigma).
Proof.
  intros HS HK HT Hs.
  pose proof (spot_from_d1 S K T r sigma HS HK HT Hs) as E. cbv zeta in E.
  set (a := sigma * sqrt T) in *. set (x := d1_value S K T r sigma) in *.
  assert (Ha : 0 <= a).
  { unfold a. apply Rmult_le_pos; [lra | apply sqrt_pos]. }
  pose proof (norm_cdf_tilt a (a - x) Ha) as Ht.
  replace (a - x - a) with (- x) in Ht by ring.
  replace (a * (a - x) - a * a / 2) with (- (a * x - a * a / 2)) in Ht by field.
  assert (HD : 0 < K * exp (- r * T)) by (apply Rmult_lt_0_compat; [lra | apply exp_pos]).
  set (e := exp (a * x - a * a / 2)) in *.
  assert (He : 0 < e) by apply exp_pos.
  assert (Hinv : e * exp (- (a * x - a * a / 2)) = 1).
  { unfold e. rewrite <- exp_plus, Rplus_opp_r. apply exp_0. }
  assert (Hle : e * norm_cdf (- x) <= norm_cdf (a - x)).
  { apply (Rmult_le_compat_l e) in Ht; [| lra].
    rewrite <- Rmult_assoc, Hinv, Rmult_1_l in Ht. exact Ht. }
  rewrite E at 1.
  replace (- (x - a)) with (a - x) by ring.
  replace (K * exp (- r * T) * norm_cdf (a - x) - K * exp (- r * T) * e * norm_cdf (- x))
    with (K * exp (- r * T) * (norm_cdf (a - x) - e * norm_cdf (- x))) by ring.
  apply Rmult_le_pos; lra.
Qed.

Lemma d1_value_expiry (S K r sigma : R) : d1_value S K 0 r sigma = 0.
Proof. unfold d1_value. destruct (Rle_dec 0 0); [reflexivity | lra]. Qed.

(** C3, as stated, fails at expiry: an out-of-the-money call with T = 0
    is priced at (S - K) / 2 = -25. *)
Lemma price_negative_at_expiry :
  black_scholes_price 50 100 0 0.05 0.2 "call" = Ok (- 25) /\
  ~ (exists p, black_scholes_price 50 100 0 0.05 0.2 "call" = Ok p /\ 0 <= p).
Proof.
  assert (E : black_scholes_price 50 100 0 0.05 0.2 "call" = Ok (- 25)).
  { rewrite price_call; [| right; lra | reflexivity].
    rewrite d1_value_expiry, sqrt_0.
    replace (0 - 0.2 * 0) with 0 by ring. rewrite norm_cdf_0.
    replace (- (0.05) * 0) with 0 by ring. rewrite exp_0. f_equal. lra. }
  split; [exact E |]. intros [p [Hp Hpos]]. rewrite E in Hp.
  injection Hp as <-. lra.
Qed.

(** C3, amended.  In exact arithmetic, for S > 0, K > 0, sigma > 0, any r
    and a kind that is call or put, [black_scholes_price] returns a real
    number; it is >= 0 when T > 0, and at T = 0 it is (S - K) / 2 for a
    call and (K - S) / 2 for a put. *)
Theorem price_nonneg (S K T r sigma : R) (option_type : string) :
  0 < S -> 0 < K -> 0 <= T -> 0 < sigma -> valid_kind option_type ->
  exists p,
    black_scholes_price S K T r sigma option_type = Ok p /\
    (0 < T -> 0 <= p) /\
    (T = 0 -> is_call option_type -> p = (S - K) / 2) /\
    (T = 0 -> is_put option_type -> p = (K - S) / 2).
Proof.
  intros HS HK HT Hs [Hc | Hp].
  - eexists. split; [apply price_call; [left; lra | exact Hc] |].
    split; [| split].
    + intro HT'. now apply call_value_nonneg.
    + intros -> _. rewrite d1_value_expiry, sqrt_0.
      replace (0 - sigma * 0) with 0 by ring. rewrite norm_cdf_0.
      replace (- r * 0) with 0 by ring. rewrite exp_0. lra.
    + intros _ Hp. unfold is_call, is_put in *. congruence.
  - eexists. split; [apply price_put; [left; lra | exact Hp] |].
    split; [| split].
    + intro HT'. now apply put_value_nonneg.
    + intros _ Hc. unfold is_call, is_put in *. congruence.
    + intros -> _. rewrite d1_value_expiry, sqrt_0.
      replace (- (0 - sigma * 0)) with 0 by ring. rewrite Ropp_0, norm_cdf_0.
      replace (- r * 0) with 0 by ring. rewrite exp_0. lra.
Qed.

(** C3, amended, at the reference case S = 42, K = 40, T = 0.5, r = 10%,
    sigma = 20%. *)
Lemma price_nonneg_witness :
  exists p,
    black_scholes_price 42 40 0.5 0.1 0.2 "call" = Ok p /\
    (0 < 0.5 -> 0 <= p) /\
    (0.5 = 0 -> is_call "call" -> p = (42 - 40) / 2) /\
    (0.5 = 0 -> is_put "call" -> p = (40 - 42) / 2).
Proof.
  apply (price_nonneg 42 40 0.5 0.1 0.2 "call"); try lra.
  left. reflexivity.
Defined.

(** ** The Greeks: what they do with the option kind *)

Lemma delta_ok (S K T r sigma : R) (option_type : string) :
  K <> 0 \/ T <= 0 ->
  delta S K T r sigma option_type =
  Ok (if (lower option_type =? "call")%string
      then norm_cdf (d1_value S K T r sigma)
      else norm_cdf (d1_value S K T r sigma) - 1).
Proof.
  intro H. unfold delta. rewrite (d1_ok _ _ _ _ _ H). simpl.
  destruct (lower option_type =? "call")%string; reflexivity.
Qed.

Lemma vega_ok (S K T r sigma : R) :
  K <> 0 \/ T <= 0 ->
  vega S K T r sigma = Ok (S * sqrt T * norm_pdf (d1_value S K T r sigma) / 100).
Proof. intro H. unfold vega. rewrite (d1_ok _ _ _ _ _ H). reflexivity. Qed.

Lemma not_call_of_invalid (option_type : string) :
  ~ valid_kind option_type -> (lower option_type =? "call")%string = false.
Proof.
  intro H. destruct (String.eqb_spec (lower option_type) "call") as [E | _];
    [exfalso; apply H; now left | reflexivity].
Qed.

Lemma unknown_kind_is_put_for_greeks (S K T r sigma : R) (option_type : string) :
  ~ valid_kind option_type ->
  delta S K T r sigma option_type = delta S K T r sigma "put" /\
  theta S K T r sigma option_type = theta S K T r sigma "put" /\
  rho S K T r sigma option_type = rho S K T r sigma "put" /\
  calculate_all_greeks S K T r sigma option_type =
  calculate_all_greeks S K T r sigma "put".
Proof.
  intro H. pose proof (not_call_of_invalid _ H) as E.
  assert (Ep : (lower "put" =? "call")%string = false) by reflexivity.
  assert (Hd : delta S K T r sigma option_type = delta S K T r sigma "put")
    by (unfold delta; rewrite E, Ep; reflexivity).
  assert (Ht : theta S K T r sigma option_type = theta S K T r sigma "put")
    by (unfold theta; rewrite E, Ep; reflexivity).
  assert (Hr : rho S K T r sigma option_type = rho S K T r sigma "put")
    by (unfold rho; rewrite E, Ep; reflexivity).
  repeat split; try assumption.
  unfold calculate_all_greeks. rewrite Hd, Ht, Hr. reflexivity.
Qed.

Lemma greeks_ok (S K T r sigma : R) (option_type : string) :
  K <> 0 \/ T <= 0 ->
  exists g, calculate_all_greeks S K T r sigma option_type = Ok g.
Proof.
  intro H. unfold calculate_all_greeks, delta, gamma, vega, theta, rho.
  rewrite (d2_ok _ _ _ _ _ H), (d1_ok _ _ _ _ _ H). simpl.
  destruct (lower option_type =? "call")%string; eexists; reflexivity.
Qed.

(** ** The solvers *)

Lemma newton_loop_raises (market_price S K T r : R) (option_type : string)
  (tolerance : R) (todo : nat) (i : Z) (sigma : R) (e : exn) :
  black_scholes_price S K T r sigma option_type = Raise e ->
  newton_loop market_price S K T r option_type tolerance (Datatypes.S todo) i sigma
  = Raise e.
Proof. intro H. simpl. rewrite H. reflexivity. Qed.

Lemma newton_invalid_kind (market_price S K T r : R) (option_type : string)
  (initial_vol tolerance : option R) (max_iterations : option Z) :
  K <> 0 \/ T <= 0 -> ~ valid_kind option_type ->
  implied_volatility_newton market_price S K T r option_type
    initial_vol tolerance max_iterations = Raise ValueError.
Proof.
  intros HK Hn. unfold implied_volatility_newton.
  destruct (Z.to_nat (kwarg 100%Z max_iterations)) as [| todo].
  - simpl. rewrite price_invalid by assumption. reflexivity.
  - rewrite newton_loop_raises with (e := ValueError); [reflexivity |].
    now apply price_invalid.
Qed.

Lemma newton_loop_total (market_price S K T r : R) (option_type : string)
  (tolerance : R) :
  K <> 0 \/ T <= 0 -> valid_kind option_type ->
  forall todo i sigma,
  exists out,
    newton_loop market_price S K T r option_type tolerance todo i sigma = Ok out.
Proof.
  intros HK Hv. induction todo as [| todo IH]; intros i sigma; simpl.
  - eexists. reflexivity.
  - destruct (price_ok S K T r sigma option_type HK Hv) as [p Hp]. rewrite Hp. simpl.
    destruct (Rlt_dec (Rabs (p - market_price)) tolerance); [eexists; reflexivity |].
    rewrite (vega_ok _ _ _ _ _ HK). simpl.
    destruct (Rlt_dec _ 1e-10); [eexists; reflexivity |]. apply IH.
Qed.

Lemma newton_total (market_price S K T r : R) (option_type : string)
  (initial_vol tolerance : option R) (max_iterations : option Z) :
  K <> 0 \/ T <= 0 -> valid_kind option_type ->
  exists res,
    implied_volatility_newton market_price S K T r option_type
      initial_vol tolerance max_iterations = Ok res.
Proof.
  intros HK Hv. unfold implied_volatility_newton.
  destruct (newton_loop_total market_price S K T r option_type
              (kwarg 1e-6 tolerance) HK Hv
              (Z.to_nat (kwarg 100%Z max_iterations)) 0%Z (kwarg 0.2 initial_vol))
    as [[res | sigma] E]; rewrite E; simpl.
  - eexists. reflexivity.
  - destruct (price_ok S K T r sigma option_type HK Hv) as [p Hp]. rewrite Hp. simpl.
    eexists. reflexivity.
Qed.

Lemma bisection_loop_bounds (market_price S K T r : R) (option_type : string)
  (tolerance lo hi : R) :
  forall todo i l out,
    bisection_end_ok lo hi (Fell l) ->
    bisection_loop market_price S K T r option_type tolerance todo i l = Ok out ->
    bisection_end_ok lo hi out.
Proof.
  induction todo as [| todo IH]; intros i l out Hl E; simpl in E.
  - injection E as <-. exact Hl.
  - apply bind_Ok_inv in E. destruct E as [p [_ E]].
    destruct Hl as [H1 [H2 [H3 H4]]].
    destruct (Rlt_dec (Rabs (p - market_price)) tolerance).
    { injection E as <-. simpl. lra. }
    destruct (Rlt_dec 0 (p - market_price)); apply IH in E; try exact E;
      simpl; (split; [| split; [| split]]); try lra; intros m [= <-]; lra.
Qed.

Lemma bisection_loop_assigns (market_price S K T r : R) (option_type : string)
  (tolerance : R) :
  forall todo i l l',
    bisection_loop market_price S K T r option_type tolerance todo i l
    = Ok (Fell l') ->
    (0 < todo)%nat \/ vol_mid l <> None -> vol_mid l' <> None.
Proof.
  induction todo as [| todo IH]; intros i l l' E H; simpl in E.
  - injection E as <-. destruct H; [lia | assumption].
  - apply bind_Ok_inv in E. destruct E as [p [_ E]].
    destruct (Rlt_dec (Rabs (p - market_price)) tolerance); [discriminate |].
    destruct (Rlt_dec 0 (p - market_price)); apply IH in E; try exact E;
      right; simpl; discriminate.
Qed.

Lemma bisection_loop_total (market_price S K T r : R) (option_type : string)
  (tolerance : R) :
  K <> 0 \/ T <= 0 -> valid_kind option_type ->
  forall todo i l,
  exists out,
    bisection_loop market_price S K T r option_type tolerance todo i l = Ok out.
Proof.
  intros HK Hv. induction todo as [| todo IH]; intros i l; simpl.
  - eexists. reflexivity.
  - destruct (price_ok S K T r ((vol_low l + vol_high l) / 2) option_type HK Hv)
      as [p Hp]. rewrite Hp. simpl.
    destruct (Rlt_dec (Rabs (p - market_price)) tolerance); [eexists; reflexivity |].
    destruct (Rlt_dec 0 (p - market_price)); apply IH.
Qed.

Lemma bisection_total (market_price S K T r : R) (option_type : string)
  (vol_low vol_high tolerance : option R) (max_iterations : option Z) :
  K <> 0 \/ T <= 0 -> valid_kind option_type ->
  (0 < kwarg 100 max_iterations)%Z ->
  exists res,
    implied_volatility_bisection market_price S K T r option_type
      vol_low vol_high tolerance max_iterations = Ok res.
Proof.
  intros HK Hv Hmax. unfold implied_volatility_bisection.
  destruct (bisection_loop_total market_price S K T r option_type
              (kwarg 1e-6 tolerance) HK Hv
              (Z.to_nat (kwarg 100%Z max_iterations)) 0%Z
              (mkBisection (kwarg 0.001 vol_low) (kwarg 3.0 vol_high) None))
    as [[res | l] E]; rewrite E; simpl.
  - eexists. reflexivity.
  - apply bisection_loop_assigns in E; [| left; lia].
    destruct (vol_mid l) as [m |]; [| congruence].
    destruct (price_ok S K T r m option_type HK Hv) as [p Hp]. rewrite Hp. simpl.
    eexists. reflexivity.
Qed.

(** C6, as stated, fails for the Greeks: [delta] takes a kind that is
    neither call nor put for a put and returns a number. *)
Lemma delta_accepts_unknown_kind :
  ~ valid_kind "straddle" /\
  delta 100 100 1 0.05 0.2 "straddle" = delta 100 100 1 0.05 0.2 "put" /\
  (exists d, delta 100 100 1 0.05 0.2 "straddle" = Ok d) /\
  ~ raises (delta 100 100 1 0.05 0.2 "straddle").
Proof.
  assert (Hn : ~ valid_kind "straddle").
  { intros [H | H]; vm_compute in H; discriminate. }
  assert (E : exists d, delta 100 100 1 0.05 0.2 "straddle" = Ok d).
  { rewrite delta_ok by (left; lra). eexists. reflexivity. }
  split; [exact Hn |]. split; [| split; [exact E |]].
  - apply (unknown_kind_is_put_for_greeks 100 100 1 0.05 0.2 "straddle" Hn).
  - destruct E as [d E]. intros [e He]. congruence.
Qed.

(** C6, amended. When the lower-cased option kind is neither ['call'] nor
    ['put'] (and [d1] can be computed: K <> 0 or T <= 0),
    [black_scholes_price] raises [ValueError], and [calculate_implied_vol],
    which calls it, lets the error through; [delta], [theta], [rho] and
    [calculate_all_greeks] do not raise: they handle such a kind as a put. *)
Theorem invalid_kind_handling (market_price S K T r sigma : R)
  (option_type : string) :
  K <> 0 \/ T <= 0 -> ~ valid_kind option_type ->
  black_scholes_price S K T r sigma option_type = Raise ValueError /\
  calculate_implied_vol market_price S K T r option_type = Raise ValueError /\
  delta S K T r sigma option_type = delta S K T r sigma "put" /\
  theta S K T r sigma option_type = theta S K T r sigma "put" /\
  rho S K T r sigma option_type = rho S K T r sigma "put" /\
  calculate_all_greeks S K T r sigma option_type =
  calculate_all_greeks S K T r sigma "put" /\
  exists g, calculate_all_greeks S K T r sigma option_type = Ok g.
Proof.
  intros HK Hn. split; [now apply price_invalid |]. split.
  - unfold calculate_implied_vol, calculate_implied_vol_traced.
    rewrite newton_invalid_kind by assumption. reflexivity.
  - destruct (unknown_kind_is_put_for_greeks S K T r sigma option_type Hn)
      as [Hd [Ht [Hr Hg]]].
    repeat (split; [assumption |]). now apply greeks_ok.
Qed.

(** C6, amended, at the kind ['straddle']. *)
Lemma invalid_kind_handling_witness :
  black_scholes_price 100 100 1 0.05 0.2 "straddle" = Raise ValueError /\
  calculate_implied_vol 10 100 100 1 0.05 "straddle" = Raise ValueError /\
  exists g, calculate_all_greeks 100 100 1 0.05 0.2 "straddle" = Ok g.
Proof.
  assert (Hn : ~ valid_kind "straddle").
  { intros [H | H]; vm_compute in H; discriminate. }
  assert (HK : 100 <> 0 \/ 1 <= 0) by (left; lra).
  destruct (invalid_kind_handling 10 100 100 1 0.05 0.2 "straddle" HK Hn)
    as [H1 [H2 [_ [_ [_ [_ H3]]]]]].
  split; [exact H1 | split; [exact H2 | exact H3]].
Defined.

(** C4. For a kind that is call or put (and K <> 0 or T <= 0, so that
    [S / K] is defined), [calculate_implied_vol] does not raise; it calls
    Newton-Raphson first, calls bisection if and only if Newton-Raphson did
    not converge, returns the volatility of the first solver that converged,
    and returns NaN if and only if neither did. *)
Theorem calculate_implied_vol_protocol (market_price S K T r : R)
  (option_type : string) :
  K <> 0 \/ T <= 0 -> valid_kind option_type ->
  exists newton bisection called v,
    implied_volatility_newton market_price S K T r option_type None None None
    = Ok newton /\
    implied_volatility_bisection market_price S K T r option_type
      None None None None = Ok bisection /\
    calculate_implied_vol_traced market_price S K T r option_type
    = (called, Ok v) /\
    calculate_implied_vol market_price S K T r option_type = Ok v /\
    hd_error called = Some NewtonRaphson /\
    (In BisectionMethod called <-> converged newton = false) /\
    (v = NaN <-> converged newton = false /\ converged bisection = false) /\
    (converged newton = true -> v = Vol (implied_vol newton)) /\
    (converged newton = false -> converged bisection = true ->
     v = Vol (implied_vol bisection)).
Proof.
  intros HK Hv.
  destruct (newton_total market_price S K T r option_type None None None HK Hv)
    as [rn En].
  destruct (bisection_total market_price S K T r option_type None None None None
              HK Hv) as [rb Eb]; [simpl; lia |].
  exists rn, rb. unfold calculate_implied_vol, calculate_implied_vol_traced.
  rewrite En. destruct (converged rn) eqn:Cn.
  - exists [NewtonRaphson], (Vol (implied_vol rn)). simpl.
    repeat split; try reflexivity; try congruence.
    + intros [H | []]. discriminate.
    + intros [H _]. discriminate.
  - rewrite Eb. destruct (converged rb) eqn:Cb.
    + exists [NewtonRaphson; BisectionMethod], (Vol (implied_vol rb)). simpl.
      repeat split; try reflexivity; try congruence; auto.
      intros [_ H]. discriminate.
    + exists [NewtonRaphson; BisectionMethod], NaN. simpl.
      repeat split; try reflexivity; try congruence; auto.
Qed.

(** C4 for an at-the-money call quoted at 10. *)
Lemma calculate_implied_vol_protocol_witness :
  exists v, calculate_implied_vol 10 100 100 1 0.05 "call" = Ok v.
Proof.
  assert (HK : 100 <> 0 \/ 1 <= 0) by (left; lra).
  assert (Hv : valid_kind "call") by (left; reflexivity).
  destruct (calculate_implied_vol_protocol 10 100 100 1 0.05 "call" HK Hv)
    as [rn [rb [called [v [_ [_ [_ [H _]]]]]]]].
  exists v. exact H.
Defined.

(** C9, amended.  In exact arithmetic, when [vol_low < vol_high], the
    volatility in any result [implied_volatility_bisection] returns lies
    strictly between them, converged or not; and it does return a result
    when the kind is call or put, [S / K] is defined and there is at least
    one iteration. *)
Theorem bisection_result_inside (market_price S K T r : R) (option_type : string)
  (vol_low vol_high tolerance : option R) (max_iterations : option Z) :
  kwarg 0.001 vol_low < kwarg 3.0 vol_high ->
  (forall res,
     implied_volatility_bisection market_price S K T r option_type
       vol_low vol_high tolerance max_iterations = Ok res ->
     kwarg 0.001 vol_low < implied_vol res < kwarg 3.0 vol_high) /\
  (K <> 0 \/ T <= 0 -> valid_kind option_type ->
   (0 < kwarg 100 max_iterations)%Z ->
   exists res,
     implied_volatility_bisection market_price S K T r option_type
       vol_low vol_high tolerance max_iterations = Ok res).
Proof.
  intro Hlt. split; [| apply bisection_total].
  intros res E. unfold implied_volatility_bisection in E.
  apply bind_Ok_inv in E. destruct E as [out [Eloop E]].
  apply (bisection_loop_bounds _ _ _ _ _ _ _ (kwarg 0.001 vol_low) (kwarg 3.0 vol_high))
    in Eloop; [| simpl; repeat split; try lra; discriminate].
  destruct out as [res' | l]; simpl in E.
  - injection E as <-. exact Eloop.
  - destruct Eloop as [_ [_ [_ Hm]]].
    destruct (ImpliedVolatility.vol_mid l) as [m |]; [| discriminate].
    apply bind_Ok_inv in E. destruct E as [p [_ E]]. injection E as <-.
    simpl. now apply Hm.
Qed.

(** C9, amended, on the default interval [[0.001, 3.0]]. *)
Lemma bisection_result_inside_witness :
  exists res,
    implied_volatility_bisection 10 100 100 1 0.05 "call" None None None None
    = Ok res /\
    0.001 < implied_vol res < 3.0.
Proof.
  assert (Hlt : kwarg 0.001 None < kwarg 3.0 None) by (simpl; lra).
  destruct (bisection_result_inside 10 100 100 1 0.05 "call" None None None None Hlt)
    as [Hin Hex].
  destruct Hex as [res E]; [left; lra | left; reflexivity | simpl; lia |].
  exists res. split; [exact E | exact (Hin res E)].
Defined.

(** *** Newton-Raphson: the report when it does not converge *)

Lemma newton_loop_returned (market_price S K T r : R) (option_type : string)
  (tolerance : R) :
  forall todo i sigma res,
    newton_loop market_price S K T r option_type tolerance todo i sigma
    = Ok (Returned res) ->
    converged res = true.
Proof.
  induction todo as [| todo IH]; intros i sigma res E; simpl in E; [discriminate |].
  apply bind_Ok_inv in E. destruct E as [p [_ E]].
  destruct (Rlt_dec (Rabs (p - market_price)) tolerance).
  { injection E as <-. reflexivity. }
  apply bind_Ok_inv in E. destruct E as [v [_ E]].
  destruct (Rlt_dec (Rabs (v * 100)) 1e-10); [discriminate |].
  now apply IH in E.
Qed.

(** The near-zero-vega guard leaves the loop in its first iteration,
    however many are left. *)
Lemma newton_loop_break (market_price S K T r : R) (option_type : string)
  (tolerance : R) (todo : nat) (i : Z) (sigma p v : R) :
  black_scholes_price S K T r sigma option_type = Ok p ->
  ~ Rabs (p - market_price) < tolerance ->
  vega S K T r sigma = Ok v ->
  Rabs (v * 100) < 1e-10 ->
  newton_loop market_price S K T r option_type tolerance (Datatypes.S todo) i sigma
  = Ok (Fell sigma).
Proof.
  intros Hp Hne Hv Hsmall. simpl. rewrite Hp. simpl.
  destruct (Rlt_dec (Rabs (p - market_price)) tolerance); [contradiction |].
  rewrite Hv. simpl.
  destruct (Rlt_dec (Rabs (v * 100)) 1e-10); [reflexivity | contradiction].
Qed.

Lemma newton_early_abort (market_price S K T r : R) (option_type : string)
  (initial_vol tolerance : option R) (max_iterations : option Z) (p v : R) :
  (0 < kwarg 100 max_iterations)%Z ->
  black_scholes_price S K T r (kwarg 0.2 initial_vol) option_type = Ok p ->
  ~ Rabs (p - market_price) < kwarg 1e-6 tolerance ->
  vega S K T r (kwarg 0.2 initial_vol) = Ok v ->
  Rabs (v * 100) < 1e-10 ->
  implied_volatility_newton market_price S K T r option_type
    initial_vol tolerance max_iterations
  = Ok (mkSolverResult (kwarg 0.2 initial_vol) false (kwarg 100%Z max_iterations)
          (Rabs (p - market_price))).
Proof.
  intros Hmax Hp Hne Hv Hsmall. unfold implied_volatility_newton.
  destruct (Z.to_nat (kwarg 100%Z max_iterations)) as [| todo] eqn:En; [lia |].
  rewrite (newton_loop_break _ _ _ _ _ _ _ _ _ _ p v Hp Hne Hv Hsmall). simpl.
  rewrite Hp. reflexivity.
Qed.

(** At expiry vega is zero: an option priced off the market price by the
    tolerance or more stops Newton-Raphson in its first iteration. *)
Lemma newton_at_expiry :
  implied_volatility_newton 10 100 50 0 0.05 "call" None None None
  = Ok (mkSolverResult 0.2 false 100 15).
Proof.
  assert (Hp : black_scholes_price 100 50 0 0.05 (kwarg 0.2 None) "call" = Ok 25).
  { rewrite price_call; [| right; lra | reflexivity].
    rewrite d1_value_expiry, sqrt_0. simpl kwarg.
    replace (0 - 0.2 * 0) with 0 by ring. rewrite norm_cdf_0.
    replace (- (0.05) * 0) with 0 by ring. rewrite exp_0. f_equal. lra. }
  assert (Hv : vega 100 50 0 0.05 (kwarg 0.2 None) = Ok 0).
  { rewrite vega_ok by (right; lra). rewrite sqrt_0. f_equal. unfold Rdiv. ring. }
  assert (Habs : Rabs (25 - 10) = 15).
  { replace (25 - 10) with 15 by lra. apply Rabs_pos_eq. lra. }
  rewrite (newton_early_abort 10 100 50 0 0.05 "call" None None None 25 0);
    try assumption.
  - simpl kwarg. rewrite Habs. reflexivity.
  - simpl. lia.
  - rewrite Habs. simpl. lra.
  - replace (0 * 100) with 0 by ring. rewrite Rabs_R0. lra.
Qed.

(** C10. Whenever [implied_volatility_newton] returns converged = false --
    the loop ran out of iterations or the near-zero-vega guard left it
    early -- the iterations field is [max_iterations] (100 by default) and
    the final_error field is |price at the returned volatility - market
    price|.  The function does return when the kind is call or put and
    [S / K] is defined. *)
Theorem newton_not_converged_report (market_price S K T r : R)
  (option_type : string) (initial_vol tolerance : option R)
  (max_iterations : option Z) :
  (K <> 0 \/ T <= 0 -> valid_kind option_type ->
   exists res,
     implied_volatility_newton market_price S K T r option_type
       initial_vol tolerance max_iterations = Ok res) /\
  (forall res,
     implied_volatility_newton market_price S K T r option_type
       initial_vol tolerance max_iterations = Ok res ->
     converged res = false ->
     iterations res = kwarg 100%Z max_iterations /\
     exists p,
       black_scholes_price S K T r (implied_vol res) option_type = Ok p /\
       final_error res = Rabs (p - market_price)).
Proof.
  split; [apply newton_total |].
  intros res E Hc. unfold implied_volatility_newton in E.
  apply bind_Ok_inv in E. destruct E as [[res' | sigma] [Eloop E]].
  - injection E as ->. apply newton_loop_returned in Eloop. congruence.
  - apply bind_Ok_inv in E. destruct E as [p [Hp E]]. injection E as <-.
    simpl. split; [reflexivity |]. exists p. split; [exact Hp | reflexivity].
Qed.

(** C10 on the run at expiry above, which the vega guard stops in its
    first iteration. *)
Lemma newton_not_converged_report_witness :
  iterations (mkSolverResult 0.2 false 100 15) = 100%Z /\
  exists p,
    black_scholes_price 100 50 0 0.05 0.2 "call" = Ok p /\
    15 = Rabs (p - 10).
Proof.
  exact (proj2 (newton_not_converged_report 10 100 50 0 0.05 "call" None None None)
           (mkSolverResult 0.2 false 100 15) newton_at_expiry eq_refl).
Defined.

(** *** Newton-Raphson: the protocol *)

Lemma run_deterministic (market_price S K T r : R) (option_type : string)
  (tolerance : R) (max_iterations : nat) (done : nat) (sigma : R)
  (o1 o2 : NewtonSpec.outcome) :
  NewtonSpec.run market_price S K T r option_type tolerance max_iterations
    done sigma o1 ->
  NewtonSpec.run market_price S K T r option_type tolerance max_iterations
    done sigma o2 ->
  o1 = o2.
Proof.
  intros H1. revert o2.
  induction H1 as [done sigma Hd | done sigma p Hd Hp Ht
                  | done sigma p v Hd Hp Ht Hv Hs
                  | done sigma p v o Hd Hp Ht Hv Hs Hrun IH];
    intros o2 H2; inversion H2; subst; try lia; try reflexivity;
    repeat match goal with
      | A : ?x = Ok ?a, B : ?x = Ok ?b |- _ =>
          assert (a = b) by congruence; subst; clear B
      end;
    try contradiction; try reflexivity.
  now apply IH.
Qed.

Lemma newton_loop_refines (market_price S K T r : R) (option_type : string)
  (tolerance : R) (max_iterations : nat) :
  K <> 0 \/ T <= 0 -> valid_kind option_type ->
  forall todo done sigma,
    (done + todo = max_iterations)%nat ->
    exists out o,
      newton_loop market_price S K T r option_type tolerance todo
        (Z.of_nat done) sigma = Ok out /\
      NewtonSpec.run market_price S K T r option_type tolerance max_iterations
        done sigma o /\
      loop_matches out o.
Proof.
  intros HK Hv. induction todo as [| todo IH]; intros done sigma Hsum.
  - exists (Fell sigma), (NewtonSpec.GaveUp sigma). simpl.
    repeat split. apply NewtonSpec.run_exhausted. lia.
  - simpl. destruct (price_ok S K T r sigma option_type HK Hv) as [p Hp].
    rewrite Hp. simpl.
    destruct (Rlt_dec (Rabs (p - market_price)) tolerance) as [Ht | Ht].
    { eexists. eexists. split; [reflexivity |]. split.
      - apply NewtonSpec.run_converged with (price := p); [lia | exact Hp | exact Ht].
      - simpl. f_equal. lia. }
    pose proof (vega_ok S K T r sigma HK) as Hvega. rewrite Hvega. simpl.
    destruct (Rlt_dec _ 1e-10) as [Hs | Hs].
    { eexists. eexists. split; [reflexivity |]. split.
      - eapply NewtonSpec.run_abort; [lia | exact Hp | exact Ht | exact Hvega | exact Hs].
      - reflexivity. }
    destruct (IH (Datatypes.S done)
                (NewtonSpec.reset_if_nonpositive
                   (sigma - (p - market_price)
                            / (S * sqrt T * norm_pdf (d1_value S K T r sigma) / 100 * 100))))
      as [out [o [E [Hrun Hm]]]]; [lia |].
    exists out, o. split; [| split; [| exact Hm]].
    + replace (Z.of_nat done + 1)%Z with (Z.of_nat (Datatypes.S done)) by lia.
      exact E.
    + eapply NewtonSpec.run_update; [lia | exact Hp | exact Ht | exact Hvega | exact Hs |].
      exact Hrun.
Qed.

(** C5. With the default initial volatility, [implied_volatility_newton]
    follows the protocol: starting from sigma = 0.20, for at most
    [max_iterations] (default 100) iterations, it returns converged = true
    with the iteration count and |error| as soon as |error| < tolerance
    (default 1e-6); otherwise it leaves the loop when |vega * 100| < 1e-10,
    else it moves sigma to sigma - error / (vega * 100), reset to 0.01 when
    that is <= 0.  The protocol has one outcome and the function reports it. *)
Theorem newton_follows_protocol (market_price S K T r : R) (option_type : string)
  (tolerance : option R) (max_iterations : option Z) :
  K <> 0 \/ T <= 0 -> valid_kind option_type ->
  exists res o,
    implied_volatility_newton market_price S K T r option_type
      None tolerance max_iterations = Ok res /\
    NewtonSpec.run market_price S K T r option_type
      (kwarg 1e-6 tolerance) (Z.to_nat (kwarg 100%Z max_iterations))
      0 NewtonSpec.start o /\
    (forall o',
       NewtonSpec.run market_price S K T r option_type
         (kwarg 1e-6 tolerance) (Z.to_nat (kwarg 100%Z max_iterations))
         0 NewtonSpec.start o' -> o' = o) /\
    match o with
    | NewtonSpec.Converged sigma count error =>
        res = mkSolverResult sigma true (Z.of_nat count) error
    | NewtonSpec.GaveUp sigma =>
        implied_vol res = sigma /\ converged res = false
    end.
Proof.
  intros HK Hv.
  destruct (newton_loop_refines market_price S K T r option_type
              (kwarg 1e-6 tolerance) (Z.to_nat (kwarg 100%Z max_iterations)) HK Hv
              (Z.to_nat (kwarg 100%Z max_iterations)) 0%nat NewtonSpec.start)
    as [out [o [E [Hrun Hm]]]]; [lia |].
  assert (Hdet : forall o',
             NewtonSpec.run market_price S K T r option_type
               (kwarg 1e-6 tolerance) (Z.to_nat (kwarg 100%Z max_iterations))
               0 NewtonSpec.start o' -> o' = o).
  { intros o' H'. eapply run_deterministic; eassumption. }
  unfold implied_volatility_newton. cbv zeta.
  change (kwarg 0.2 (@None R)) with 0.2.
  change (Z.of_nat 0) with 0%Z in E. unfold NewtonSpec.start in E.
  replace 0.20 with 0.2 in E by lra.
  rewrite E. simpl.
  destruct out as [res | sigma]; destruct o as [s c e | s]; simpl in Hm;
    try contradiction.
  - exists res, (NewtonSpec.Converged s c e). repeat split; assumption.
  - subst s. destruct (price_ok S K T r sigma option_type HK Hv) as [p Hp].
    rewrite Hp. simpl. eexists. exists (NewtonSpec.GaveUp sigma).
    split; [reflexivity |]. repeat split; assumption.
Qed.

(** C5 with every keyword argument left at its default. *)
Lemma newton_follows_protocol_witness :
  exists res o,
    implied_volatility_newton 10 100 100 1 0.05 "call" None None None = Ok res /\
    NewtonSpec.run 10 100 100 1 0.05 "call" 1e-6 100 0 0.20 o.
Proof.
  assert (HK : 100 <> 0 \/ 1 <= 0) by (left; lra).
  assert (Hv : valid_kind "call") by (left; reflexivity).
  destruct (newton_follows_protocol 10 100 100 1 0.05 "call" None None HK Hv)
    as [res [o [E [Hrun _]]]].
  exists res, o. split; [exact E | exact Hrun].
Defined.

(** ** The path simulator *)

Lemma INR_steps_nonzero (n_steps : nat) : (1 <= n_steps)%nat -> INR n_steps <> 0.
Proof. intro H. apply not_0_INR. lia. Qed.

Lemma simulate_stock_path_spec (S0 r sigma T : R) (n_steps : nat)
  (standard_normal : nat -> R) :
  0 < S0 -> (1 <= n_steps)%nat ->
  exists path,
    simulate_stock_path S0 r sigma T n_steps standard_normal = Ok path /\
    path_inv S0 r sigma (T / INR n_steps) standard_normal n_steps
      (n_steps + 1) path.
Proof.
  intros HS0 Hn. unfold simulate_stock_path.
  rewrite (py_div_ok _ _ (INR_steps_nonzero _ Hn)). cbn [bind].
  rewrite setitem_ok by (rewrite np_zeros_length; lia). cbn [bind].
  set (dt := T / INR n_steps).
  set (path0 := upd (np_zeros (n_steps + 1)) 0 S0).
  assert (H0 : path_inv S0 r sigma dt standard_normal n_steps 1 path0).
  { unfold path_inv, path0. rewrite upd_length, np_zeros_length.
    assert (E0 : nth 0 (upd (np_zeros (n_steps + 1)) 0 S0) 0 = S0)
      by (apply nth_upd_same; rewrite np_zeros_length; lia).
    split; [reflexivity |]. split; [exact E0 |]. split.
    - intros j Hj. replace j with 0%nat by lia. rewrite E0. exact HS0.
    - intros j Hj. lia. }
  destruct (for_range_invariant (path_inv S0 r sigma dt standard_normal n_steps)
              (fun i path =>
                 let Z := standard_normal (i - 1)%nat in
                 prev <- getitem path (i - 1) ;;
                 setitem path i
                   (prev * exp ((r - 0.5 * sigma ^ 2) * dt + sigma * sqrt dt * Z)))
              n_steps 1 path0 H0) as [path [E Hinv]].
  - intros i p Hi [Hlen [Hfirst [Hpos Hrec]]]. cbv zeta.
    rewrite getitem_ok by lia. cbn [bind].
    rewrite setitem_ok by lia.
    eexists. split; [reflexivity |].
    unfold path_inv. rewrite upd_length.
    split; [exact Hlen |]. split; [| split].
    + rewrite nth_upd_other by lia. exact Hfirst.
    + intros j Hj. destruct (Nat.eq_dec j i) as [-> | Hne].
      * rewrite nth_upd_same by lia.
        apply Rmult_lt_0_compat; [apply Hpos; lia | apply exp_pos].
      * rewrite nth_upd_other by lia. apply Hpos. lia.
    + intros j Hj. destruct (Nat.eq_dec j i) as [-> | Hne].
      * rewrite nth_upd_same by lia. rewrite nth_upd_other by lia. reflexivity.
      * rewrite !nth_upd_other by lia. apply Hrec. lia.
  - exists path. split; [exact E |].
    replace (n_steps + 1)%nat with (1 + n_steps)%nat by lia. exact Hinv.
Qed.

(** C8, amended.  In exact arithmetic, for S0 > 0, T > 0 and n_steps >= 1
    (any r, sigma and normal draws), [simulate_stock_path] returns a path
    of n_steps + 1 prices that starts at S0 and whose entries are all
    strictly positive; the hedging simulator hands that path, unchanged,
    to the pricing and Greeks engines as its stock_price column. *)
Theorem stock_path_positive (S0 r sigma T : R) (n_steps : nat)
  (standard_normal : nat -> R) :
  0 < S0 -> 0 < T -> (1 <= n_steps)%nat ->
  exists path,
    simulate_stock_path S0 r sigma T n_steps standard_normal = Ok path /\
    List.length path = (n_steps + 1)%nat /\
    nth 0 path 0 = S0 /\
    Forall (fun price => 0 < price) path /\
    forall K position df summary,
      simulate_delta_hedging S0 K T r sigma n_steps position standard_normal
      = Ok (df, summary) ->
      col_stock_price df = path.
Proof.
  intros HS0 HT Hn.
  destruct (simulate_stock_path_spec S0 r sigma T n_steps standard_normal HS0 Hn)
    as [path [E [Hlen [Hfirst [Hpos _]]]]].
  exists path. split; [exact E |]. split; [exact Hlen |]. split; [exact Hfirst |].
  split.
  - apply Forall_nth. intros i d Hi. rewrite (nth_indep path d 0 Hi).
    apply Hpos. lia.
  - intros K position df summary Hsim. unfold simulate_delta_hedging in Hsim.
    apply bind_Ok_inv in Hsim. destruct Hsim as [dt [_ Hsim]].
    rewrite E in Hsim. cbn [bind] in Hsim.
    repeat (apply bind_Ok_inv in Hsim; destruct Hsim as [? [_ Hsim]]).
    injection Hsim as <- _. reflexivity.
Qed.

(** C8, amended, on a two-step path. *)
Lemma stock_path_positive_witness :
  exists path,
    simulate_stock_path 100 0.05 0.2 1 2 (fun _ => 0) = Ok path /\
    Forall (fun price => 0 < price) path.
Proof.
  destruct (stock_path_positive 100 0.05 0.2 1 2 (fun _ => 0))
    as [path [E [_ [_ [Hpos _]]]]]; [lra | lra | lia |].
  exists path. split; [exact E | exact Hpos].
Defined.

(** ** The hedging simulator *)

Lemma hedge_step_valued (K T r sigma : R) (option_type : string)
  (S tau : R) (i : nat) (a : HedgeArrays) :
  K <> 0 -> option_type = "call"%string \/ option_type = "put"%string ->
  (i < List.length (a_option_values a))%nat ->
  (i < List.length (a_deltas a))%nat ->
  exists v d,
    (if Rlt_dec 0.0001 tau then
       v <- black_scholes_price S K tau r sigma option_type ;;
       option_values <- setitem (a_option_values a) i v ;;
       d <- delta S K tau r sigma option_type ;;
       deltas <- setitem (a_deltas a) i d ;;
       Ok (option_values, deltas)
     else if (option_type =? "call")%string then
       option_values <- setitem (a_option_values a) i (Rmax (S - K) 0) ;;
       deltas <- setitem (a_deltas a) i (if Rlt_dec K S then 1 else 0) ;;
       Ok (option_values, deltas)
     else
       option_values <- setitem (a_option_values a) i (Rmax (K - S) 0) ;;
       deltas <- setitem (a_deltas a) i (if Rlt_dec S K then -1 else 0) ;;
       Ok (option_values, deltas))
    = Ok (upd (a_option_values a) i v, upd (a_deltas a) i d).
Proof.
  intros HK Hkind Hov Hd.
  assert (Hv : valid_kind option_type).
  { destruct Hkind as [-> | ->]; [left | right]; reflexivity. }
  destruct (Rlt_dec 0.0001 tau).
  - destruct (price_ok S K tau r sigma option_type (or_introl HK) Hv) as [p Hp].
    rewrite Hp. cbn [bind]. rewrite (setitem_ok _ _ _ Hov). cbn [bind].
    rewrite (delta_ok _ _ _ _ _ _ (or_introl HK)). cbn [bind].
    rewrite (setitem_ok _ _ _ Hd). cbn [bind]. eexists. eexists. reflexivity.
  - destruct (option_type =? "call")%string;
      rewrite (setitem_ok _ _ _ Hov); cbn [bind];
      rewrite (setitem_ok _ _ _ Hd); cbn [bind]; eexists; eexists; reflexivity.
Qed.

Lemma hedge_step_inv (K T r sigma dt : R) (option_type : string)
  (times stock_path : array) (n_steps i : nat) (a : HedgeArrays) :
  K <> 0 -> option_type = "call"%string \/ option_type = "put"%string ->
  List.length times = (n_steps + 1)%nat ->
  List.length stock_path = (n_steps + 1)%nat ->
  (1 <= i <= n_steps)%nat ->
  hedge_inv r dt n_steps stock_path i a ->
  exists a',
    hedge_step K T r sigma dt option_type times stock_path i a = Ok a' /\
    hedge_inv r dt n_steps stock_path (Datatypes.S i) a'.
Proof.
  intros HK Hkind Htimes Hpath Hi [[Ld [Ls [Lo [Lc Lp]]]] [Hid Hcash]].
  unfold hedge_step.
  rewrite (getitem_ok stock_path i) by lia. cbn [bind].
  rewrite (getitem_ok times i) by lia. cbn [bind]. cbv zeta.
  destruct (hedge_step_valued K T r sigma option_type (nth i stock_path 0)
              (T - nth i times 0) i a HK Hkind) as [v [d Hval]]; [lia | lia |].
  rewrite Hval. cbn [bind fst snd].
  rewrite (getitem_ok (upd (a_deltas a) i d) i) by (rewrite upd_length; lia).
  cbn [bind].
  rewrite (getitem_ok (a_shares a) (i - 1)) by lia. cbn [bind].
  rewrite (setitem_ok (a_shares a) i) by lia. cbn [bind].
  rewrite (getitem_ok (a_cash a) (i - 1)) by lia. cbn [bind].
  rewrite (setitem_ok (a_cash a) i) by lia. cbn [bind].
  rewrite (getitem_ok (upd (a_cash a) i _) i) by (rewrite upd_length; lia).
  cbn [bind].
  rewrite (getitem_ok (upd (a_shares a) i _) i) by (rewrite upd_length; lia).
  cbn [bind].
  rewrite (getitem_ok (upd (a_option_values a) i v) i) by (rewrite upd_length; lia).
  cbn [bind].
  rewrite (setitem_ok (a_portfolio_values a) i) by lia. cbn [bind].
  eexists. split; [reflexivity |].
  unfold hedge_inv. cbn [a_deltas a_shares a_option_values a_cash a_portfolio_values].
  rewrite !upd_length.
  split; [repeat split; assumption |]. split.
  - intros j Hj. destruct (Nat.eq_dec j i) as [-> | Hne].
    + rewrite !nth_upd_same by lia. reflexivity.
    + rewrite !nth_upd_other by lia. apply Hid. lia.
  - intros j Hj. destruct (Nat.eq_dec j i) as [-> | Hne].
    + rewrite !nth_upd_same by lia. rewrite !nth_upd_other by lia. ring.
    + rewrite !nth_upd_other by lia. apply Hcash. lia.
Qed.

Lemma np_linspace_length (start stop : R) (num : nat) :
  List.length (np_linspace start stop num) = num.
Proof. unfold np_linspace. now rewrite length_map, length_seq. Qed.

(** A whole run: the simulation returns, every column has n_steps + 1
    entries, the stock_price column is the simulated path, and all rows
    satisfy the invariant of the rebalancing loop. *)
Lemma simulate_delta_hedging_spec (S0 K T r sigma : R) (n_steps : nat)
  (position : string) (standard_normal : nat -> R) :
  0 < S0 -> K <> 0 -> (1 <= n_steps)%nat ->
  exists df summary,
    simulate_delta_hedging S0 K T r sigma n_steps position standard_normal
    = Ok (df, summary) /\
    simulate_stock_path S0 r sigma T n_steps standard_normal
    = Ok (col_stock_price df) /\
    List.length (col_time df) = (n_steps + 1)%nat /\
    List.length (col_stock_price df) = (n_steps + 1)%nat /\
    hedge_inv r (T / INR n_steps) n_steps (col_stock_price df) (n_steps + 1)
      (mkArrays (col_delta df) (col_shares_held df) (col_option_value df)
         (col_cash df) (col_portfolio_value df)).
Proof.
  intros HS0 HK Hn. unfold simulate_delta_hedging.
  rewrite (py_div_ok _ _ (INR_steps_nonzero _ Hn)). cbn [bind].
  destruct (simulate_stock_path_spec S0 r sigma T n_steps standard_normal HS0 Hn)
    as [path [Epath [Hlen [Hfirst _]]]].
  rewrite Epath. cbn [bind]. cbv zeta.
  set (option_type :=
         if str_in "call" (lower position) then "call"%string else "put"%string).
  assert (Hkind : option_type = "call"%string \/ option_type = "put"%string).
  { unfold option_type. destruct (str_in "call" (lower position)); auto. }
  assert (Hv : valid_kind option_type).
  { destruct Hkind as [-> | ->]; [left | right]; reflexivity. }
  destruct (price_ok S0 K T r sigma option_type (or_introl HK) Hv) as [premium Hp].
  rewrite Hp. cbn [bind].
  rewrite (delta_ok _ _ _ _ _ _ (or_introl HK)). cbn [bind].
  set (delta_0 := if (lower option_type =? "call")%string
                  then norm_cdf (d1_value S0 K T r sigma)
                  else norm_cdf (d1_value S0 K T r sigma) - 1).
  assert (Hz : (0 < List.length (np_zeros (n_steps + 1)))%nat)
    by (rewrite np_zeros_length; lia).
  assert (Hu : forall x, (0 < List.length (upd (np_zeros (n_steps + 1)) 0 x))%nat)
    by (intro; rewrite upd_length; exact Hz).
  repeat (first [ rewrite (setitem_ok (np_zeros (n_steps + 1)) 0 _ Hz)
                 | rewrite (getitem_ok _ 0 (Hu _)) ]; cbn [bind]).
  set (dt := T / INR n_steps).
  match goal with
  | |- context [for_range 1 n_steps ?body ?init] =>
      destruct (for_range_invariant (hedge_inv r dt n_steps path) body n_steps 1 init)
        as [a [Eloop Hinv]]
  end.
  - unfold hedge_inv.
    cbn [a_deltas a_shares a_option_values a_cash a_portfolio_values].
    rewrite !upd_length, np_zeros_length.
    split; [repeat split; reflexivity |]. split.
    + intros j Hj. replace j with 0%nat by lia.
      rewrite !nth_upd_same by exact Hz. rewrite Hfirst. reflexivity.
    + intros j Hj. lia.
  - intros i a0 Hi Ha0.
    apply (hedge_step_inv K T r sigma dt option_type _ path n_steps i a0);
      try assumption; try lia.
    apply np_linspace_length.
  - rewrite Eloop. cbn [bind].
    rewrite (getitem_last_ok path) by lia. cbn [bind].
    replace (1 + n_steps)%nat with (n_steps + 1)%nat in Hinv by lia.
    destruct a as [ds ss ovs cs pvs].
    pose proof Hinv as [[Ld [Ls [Lo [Lc Lp]]]] _].
    cbn [a_deltas a_shares a_option_values a_cash a_portfolio_values] in *.
    rewrite (getitem_last_ok pvs) by lia. cbn [bind].
    eexists. eexists. split; [reflexivity |].
    cbn [col_time col_stock_price col_delta col_shares_held col_option_value
           col_cash col_portfolio_value].
    split; [reflexivity |]. split; [apply np_linspace_length |].
    split; [exact Hlen | exact Hinv].
Qed.

(** C1. For S0 > 0, K > 0, T > 0, sigma > 0, any r, n_steps >= 1, any
    position (short call or short put) and any normal draws,
    [simulate_delta_hedging] returns a trajectory of n_steps + 1 rows, and
    in every row i from 0 to n_steps the portfolio value is
    cash + shares_held * stock_price - option_value. *)
Theorem self_financing_identity (S0 K T r sigma : R) (n_steps : nat)
  (position : string) (standard_normal : nat -> R) :
  0 < S0 -> 0 < K -> 0 < T -> 0 < sigma -> (1 <= n_steps)%nat ->
  exists df summary,
    simulate_delta_hedging S0 K T r sigma n_steps position standard_normal
    = Ok (df, summary) /\
    List.length (col_portfolio_value df) = (n_steps + 1)%nat /\
    List.length (col_cash df) = (n_steps + 1)%nat /\
    List.length (col_shares_held df) = (n_steps + 1)%nat /\
    List.length (col_stock_price df) = (n_steps + 1)%nat /\
    List.length (col_option_value df) = (n_steps + 1)%nat /\
    forall i, (i <= n_steps)%nat ->
      nth i (col_portfolio_value df) 0 =
      nth i (col_cash df) 0
      + nth i (col_shares_held df) 0 * nth i (col_stock_price df) 0
      - nth i (col_option_value df) 0.
Proof.
  intros HS0 HK HT Hs Hn.
  destruct (simulate_delta_hedging_spec S0 K T r sigma n_steps position
              standard_normal HS0) as [df [summary [E [_ [_ [Hlen Hinv]]]]]];
    [lra | exact Hn |].
  destruct Hinv as [[Ld [Ls [Lo [Lc Lp]]]] [Hid _]].
  cbn [a_deltas a_shares a_option_values a_cash a_portfolio_values] in *.
  exists df, summary. repeat (split; [assumption |]).
  intros i Hi. apply Hid. lia.
Qed.

(** C1 at the last row of a two-step hedge of a short call. *)
Lemma self_financing_identity_witness :
  exists df summary,
    simulate_delta_hedging 100 100 1 0.05 0.2 2 "short_call" (fun _ => 0)
    = Ok (df, summary) /\
    nth 2 (col_portfolio_value df) 0 =
    nth 2 (col_cash df) 0
    + nth 2 (col_shares_held df) 0 * nth 2 (col_stock_price df) 0
    - nth 2 (col_option_value df) 0.
Proof.
  destruct (self_financing_identity 100 100 1 0.05 0.2 2 "short_call" (fun _ => 0))
    as [df [summary [E [_ [_ [_ [_ [_ H]]]]]]]]; [lra | lra | lra | lra | lia |].
  exists df, summary. split; [exact E | apply H; lia].
Defined.

(** C7, amended.  In every run (same inputs as C1), for every step i with
    1 <= i <= n_steps and dt = T / n_steps, cash_i is the sum the code
    writes, cash_(i-1) + cash_(i-1) * (exp (r * dt) - 1)
    - (delta_i - shares_held_(i-1)) * stock_price_i, which in exact
    arithmetic is cash_(i-1) * exp (r * dt)
    - (delta_i - shares_held_(i-1)) * stock_price_i. *)
Theorem cash_recurrence (S0 K T r sigma : R) (n_steps : nat)
  (position : string) (standard_normal : nat -> R) :
  0 < S0 -> 0 < K -> 0 < T -> 0 < sigma -> (1 <= n_steps)%nat ->
  exists df summary,
    simulate_delta_hedging S0 K T r sigma n_steps position standard_normal
    = Ok (df, summary) /\
    forall i, (1 <= i <= n_steps)%nat ->
      nth i (col_cash df) 0 =
      nth (i - 1) (col_cash df) 0
      + nth (i - 1) (col_cash df) 0 * (exp (r * (T / INR n_steps)) - 1)
      - (nth i (col_delta df) 0 - nth (i - 1) (col_shares_held df) 0)
        * nth i (col_stock_price df) 0 /\
      nth i (col_cash df) 0 =
      nth (i - 1) (col_cash df) 0 * exp (r * (T / INR n_steps))
      - (nth i (col_delta df) 0 - nth (i - 1) (col_shares_held df) 0)
        * nth i (col_stock_price df) 0.
Proof.
  intros HS0 HK HT Hs Hn.
  destruct (simulate_delta_hedging_spec S0 K T r sigma n_steps position
              standard_normal HS0) as [df [summary [E [_ [_ [Hlen Hinv]]]]]];
    [lra | exact Hn |].
  destruct Hinv as [_ [_ Hcash]].
  cbn [a_deltas a_shares a_option_values a_cash a_portfolio_values] in *.
  exists df, summary. split; [exact E |].
  intros i Hi. assert (Hi' : (1 <= i < n_steps + 1)%nat) by lia.
  split; [rewrite (Hcash i Hi'); ring | exact (Hcash i Hi')].
Qed.

(** C7, amended, at the first rebalancing of a two-step hedge of a short
    put. *)
Lemma cash_recurrence_witness :
  exists df summary,
    simulate_delta_hedging 100 100 1 0.05 0.2 2 "short_put" (fun _ => 0)
    = Ok (df, summary) /\
    nth 1 (col_cash df) 0 =
    nth 0 (col_cash df) 0
    + nth 0 (col_cash df) 0 * (exp (0.05 * (1 / INR 2)) - 1)
    - (nth 1 (col_delta df) 0 - nth 0 (col_shares_held df) 0)
      * nth 1 (col_stock_price df) 0 /\
    nth 1 (col_cash df) 0 =
    nth 0 (col_cash df) 0 * exp (0.05 * (1 / INR 2))
    - (nth 1 (col_delta df) 0 - nth 0 (col_shares_held df) 0)
      * nth 1 (col_stock_price df) 0.
Proof.
  destruct (cash_recurrence 100 100 1 0.05 0.2 2 "short_put" (fun _ => 0))
    as [df [summary [E H]]]; [lra | lra | lra | lra | lia |].
  exists df, summary. split; [exact E | apply (H 1%nat); lia].
Defined.

(** * Further properties *)

(** ** The normal distribution: strict bounds *)

Lemma G_lt_half_mass x : G x < half_mass.
Proof.
  pose proof (G_le_half_mass (x + 1)).
  assert (G x < G (x + 1)) by (apply G_strict_increasing; lra). lra.
Qed.

Lemma norm_cdf_strict x : 0 < norm_cdf x < 1.
Proof.
  pose proof (G_lt_half_mass x) as Hu. pose proof (G_lt_half_mass (- x)) as Hl.
  rewrite G_odd in Hl. pose proof norm_const_pos as Hc. unfold norm_cdf. split.
  - apply Rdiv_lt_0_compat; lra.
  - apply (Rmult_lt_reg_r norm_const); [exact Hc |].
    unfold Rdiv. rewrite Rmult_assoc, Rinv_l by lra. unfold norm_const. lra.
Qed.

(** The density at [x - a] is the density at [x], tilted. *)
Lemma norm_pdf_shift (a x : R) :
  norm_pdf (x - a) = exp (a * x - a * a / 2) * norm_pdf x.
Proof.
  unfold norm_pdf, gauss, Rdiv. rewrite <- Rmult_assoc, <- exp_plus.
  f_equal. f_equal. field.
Qed.

(** ** Derivatives: closure lemmas *)

Lemma diff_const c x : differentiable_at (fun _ => c) x.
Proof. exists 0. apply (derivable_pt_lim_const c). Qed.

Lemma diff_id x : differentiable_at (fun t => t) x.
Proof. exists 1. apply derivable_pt_lim_id. Qed.

Lemma diff_plus f g x :
  differentiable_at f x -> differentiable_at g x ->
  differentiable_at (fun t => f t + g t) x.
Proof. intros [l Hl] [m Hm]. exists (l + m). now apply (derivable_pt_lim_plus f g). Qed.

Lemma diff_mult f g x :
  differentiable_at f x -> differentiable_at g x ->
  differentiable_at (fun t => f t * g t) x.
Proof.
  intros [l Hl] [m Hm]. exists (l * g x + f x * m).
  now apply (derivable_pt_lim_mult f g).
Qed.

Lemma diff_div f g x :
  differentiable_at f x -> differentiable_at g x -> g x <> 0 ->
  differentiable_at (fun t => f t / g t) x.
Proof.
  intros [l Hl] [m Hm] Hg. eexists.
  now apply (derivable_pt_lim_div f g x l m).
Qed.

Lemma diff_ln f x :
  differentiable_at f x -> 0 < f x -> differentiable_at (fun t => ln (f t)) x.
Proof.
  intros [l Hl] Hpos. eexists.
  apply (derivable_pt_lim_comp f ln x l (/ f x) Hl).
  now apply derivable_pt_lim_ln.
Qed.

Lemma diff_sqrt f x :
  differentiable_at f x -> 0 < f x -> differentiable_at (fun t => sqrt (f t)) x.
Proof.
  intros [l Hl] Hpos. eexists.
  apply (derivable_pt_lim_comp f sqrt x l (/ (2 * sqrt (f x))) Hl).
  now apply derivable_pt_lim_sqrt.
Qed.

Lemma diff_local f g x d :
  0 < d -> (forall y, Rabs (y - x) < d -> f y = g y) ->
  differentiable_at f x -> differentiable_at g x.
Proof. intros Hd E [l Hl]. exists l. exact (dlim_local f g x l d Hd E Hl). Qed.

(** ** [d1] is differentiable in each of its arguments *)

Lemma d1_value_live (S K T r sigma : R) :
  0 < T ->
  d1_value S K T r sigma
  = (ln (S / K) + (r + 0.5 * sigma ^ 2) * T) / (sigma * sqrt T).
Proof. intro HT. unfold d1_value. destruct (Rle_dec T 0); [lra | reflexivity]. Qed.

Lemma vol_sqrt_nonzero (T sigma : R) : 0 < T -> 0 < sigma -> sigma * sqrt T <> 0.
Proof.
  intros HT Hs. pose proof (sqrt_lt_R0 T HT).
  apply Rgt_not_eq. now apply Rmult_lt_0_compat.
Qed.

Lemma d1_diff_spot (S K T r sigma : R) :
  0 < S -> 0 < K -> 0 < T -> 0 < sigma ->
  differentiable_at (fun s => d1_value s K T r sigma) S.
Proof.
  intros HS HK HT Hs.
  apply (diff_local
           (fun s => (ln (s / K) + (r + 0.5 * sigma ^ 2) * T) / (sigma * sqrt T))
           _ S 1 Rlt_0_1).
  { intros y _. now rewrite d1_value_live. }
  apply (diff_div (fun s => ln (s / K) + (r + 0.5 * sigma ^ 2) * T)
           (fun _ => sigma * sqrt T)).
  - apply (diff_plus (fun s => ln (s / K)) (fun _ => (r + 0.5 * sigma ^ 2) * T)).
    + apply (diff_ln (fun s => s / K)).
      * apply (diff_div (fun s => s) (fun _ => K)); [apply diff_id | apply diff_const | lra].
      * now apply Rdiv_lt_0_compat.
    + apply diff_const.
  - apply diff_const.
  - now apply vol_sqrt_nonzero.
Qed.

Lemma d1_diff_vol (S K T r sigma : R) :
  0 < T -> 0 < sigma ->
  differentiable_at (fun v => d1_value S K T r v) sigma.
Proof.
  intros HT Hs.
  apply (diff_local
           (fun v => (ln (S / K) + (r + 0.5 * (v * (v * 1))) * T) / (v * sqrt T))
           _ sigma 1 Rlt_0_1).
  { intros y _. now rewrite d1_value_live. }
  apply (diff_div (fun v => ln (S / K) + (r + 0.5 * (v * (v * 1))) * T)
           (fun v => v * sqrt T)).
  - apply (diff_plus (fun _ => ln (S / K)) (fun v => (r + 0.5 * (v * (v * 1))) * T)).
    + apply diff_const.
    + apply (diff_mult (fun v => r + 0.5 * (v * (v * 1))) (fun _ => T)); [| apply diff_const].
      apply (diff_plus (fun _ => r) (fun v => 0.5 * (v * (v * 1)))); [apply diff_const |].
      apply (diff_mult (fun _ => 0.5) (fun v => v * (v * 1))); [apply diff_const |].
      apply (diff_mult (fun v => v) (fun v => v * 1)); [apply diff_id |].
      apply (diff_mult (fun v => v) (fun _ => 1)); [apply diff_id | apply diff_const].
  - apply (diff_mult (fun v => v) (fun _ => sqrt T)); [apply diff_id | apply diff_const].
  - now apply vol_sqrt_nonzero.
Qed.

Lemma d1_diff_rate (S K T r sigma : R) :
  0 < T -> 0 < sigma ->
  differentiable_at (fun q => d1_value S K T q sigma) r.
Proof.
  intros HT Hs.
  apply (diff_local
           (fun q => (ln (S / K) + (q + 0.5 * sigma ^ 2) * T) / (sigma * sqrt T))
           _ r 1 Rlt_0_1).
  { intros y _. now rewrite d1_value_live. }
  apply (diff_div (fun q => ln (S / K) + (q + 0.5 * sigma ^ 2) * T)
           (fun _ => sigma * sqrt T)).
  - apply (diff_plus (fun _ => ln (S / K)) (fun q => (q + 0.5 * sigma ^ 2) * T)).
    + apply diff_const.
    + apply (diff_mult (fun q => q + 0.5 * sigma ^ 2) (fun _ => T)); [| apply diff_const].
      apply (diff_plus (fun q => q) (fun _ => 0.5 * sigma ^ 2)); [apply diff_id | apply diff_const].
  - apply diff_const.
  - now apply vol_sqrt_nonzero.
Qed.

Lemma d1_diff_maturity (S K T r sigma : R) :
  0 < T -> 0 < sigma ->
  differentiable_at (fun t => d1_value S K t r sigma) T.
Proof.
  intros HT Hs.
  apply (diff_local
           (fun t => (ln (S / K) + (r + 0.5 * sigma ^ 2) * t) / (sigma * sqrt t))
           _ T T HT).
  { intros y Hy. apply Rabs_def2 in Hy. rewrite d1_value_live by lra. reflexivity. }
  apply (diff_div (fun t => ln (S / K) + (r + 0.5 * sigma ^ 2) * t)
           (fun t => sigma * sqrt t)).
  - apply (diff_plus (fun _ => ln (S / K)) (fun t => (r + 0.5 * sigma ^ 2) * t)).
    + apply diff_const.
    + apply (diff_mult (fun _ => r + 0.5 * sigma ^ 2) (fun t => t));
        [apply diff_const | apply diff_id].
  - apply (diff_mult (fun _ => sigma) (fun t => sqrt t)); [apply diff_const |].
    apply (diff_sqrt (fun t => t)); [apply diff_id | exact HT].
  - now apply vol_sqrt_nonzero.
Qed.

(** ** The Black-Scholes form and its derivative

    Both prices have the shape [s * N(x) - k * N(x - a)]; when
    [s * n(x) = k * n(x - a)] (which holds at [x = d1]), its derivative
    along any differentiable change of [s], [k], [x], [a] does not involve
    the derivative of [x]. *)

Lemma call_form_derivative (s k x a : R -> R) (t s' k' a' : R) :
  derivable_pt_lim s t s' ->
  derivable_pt_lim k t k' ->
  differentiable_at x t ->
  derivable_pt_lim a t a' ->
  s t * norm_pdf (x t) = k t * norm_pdf (x t - a t) ->
  derivable_pt_lim (fun u => s u * norm_cdf (x u) - k u * norm_cdf (x u - a u)) t
    (s' * norm_cdf (x t) - k' * norm_cdf (x t - a t) + s t * norm_pdf (x t) * a').
Proof.
  intros Hs Hk [x' Hx] Ha Hid.
  assert (D1 : derivable_pt_lim (fun u => norm_cdf (x u)) t (norm_pdf (x t) * x')).
  { apply (derivable_pt_lim_comp x norm_cdf t x' (norm_pdf (x t)) Hx).
    apply norm_cdf_deriv. }
  assert (D2 : derivable_pt_lim (fun u => norm_cdf (x u - a u)) t
                 (norm_pdf (x t - a t) * (x' - a'))).
  { apply (derivable_pt_lim_comp (fun u => x u - a u) norm_cdf t (x' - a')
             (norm_pdf (x t - a t))).
    - now apply (derivable_pt_lim_minus x a).
    - apply norm_cdf_deriv. }
  replace (s' * norm_cdf (x t) - k' * norm_cdf (x t - a t) + s t * norm_pdf (x t) * a')
    with ((s' * norm_cdf (x t) + s t * (norm_pdf (x t) * x'))
          - (k' * norm_cdf (x t - a t) + k t * (norm_pdf (x t - a t) * (x' - a')))).
  - apply (derivable_pt_lim_minus (fun u => s u * norm_cdf (x u))
             (fun u => k u * norm_cdf (x u - a u))).
    + now apply (derivable_pt_lim_mult s (fun u => norm_cdf (x u))).
    + now apply (derivable_pt_lim_mult k (fun u => norm_cdf (x u - a u))).
  - replace (k t * (norm_pdf (x t - a t) * (x' - a')))
      with (k t * norm_pdf (x t - a t) * (x' - a')) by ring.
    rewrite <- Hid. ring.
Qed.

Lemma put_form_derivative (s k x a : R -> R) (t s' k' a' : R) :
  derivable_pt_lim s t s' ->
  derivable_pt_lim k t k' ->
  differentiable_at x t ->
  derivable_pt_lim a t a' ->
  s t * norm_pdf (x t) = k t * norm_pdf (x t - a t) ->
  derivable_pt_lim
    (fun u => k u * norm_cdf (- (x u - a u)) - s u * norm_cdf (- x u)) t
    (k' * norm_cdf (- (x t - a t)) - s' * norm_cdf (- x t)
     + s t * norm_pdf (x t) * a').
Proof.
  intros Hs Hk Hx Ha Hid.
  pose proof (call_form_derivative s k x a t s' k' a' Hs Hk Hx Ha Hid) as D.
  apply (dlim_ext
           (fun u => (s u * norm_cdf (x u) - k u * norm_cdf (x u - a u))
                     - (s u - k u))).
  { intro u. rewrite !norm_cdf_opp. ring. }
  replace (k' * norm_cdf (- (x t - a t)) - s' * norm_cdf (- x t)
           + s t * norm_pdf (x t) * a')
    with ((s' * norm_cdf (x t) - k' * norm_cdf (x t - a t)
           + s t * norm_pdf (x t) * a') - (s' - k'))
    by (rewrite !norm_cdf_opp; ring).
  apply (derivable_pt_lim_minus
           (fun u => s u * norm_cdf (x u) - k u * norm_cdf (x u - a u))
           (fun u => s u - k u)); [exact D |].
  now apply (derivable_pt_lim_minus s k).
Qed.

(** At [d1], spot times density equals discounted strike times the
    density at [d2]. *)
Lemma density_identity (S K T r sigma : R) :
  0 < S -> 0 < K -> 0 < T -> 0 < sigma ->
  S * norm_pdf (d1_value S K T r sigma)
  = K * exp (- r * T) * norm_pdf (d1_value S K T r sigma - sigma * sqrt T).
Proof.
  intros HS HK HT Hs.
  pose proof (spot_from_d1 S K T r sigma HS HK HT Hs) as E. cbv zeta in E.
  rewrite norm_pdf_shift. rewrite E at 1. ring.
Qed.

Lemma price_value_call (S K T r sigma : R) (option_type : string) :
  K <> 0 \/ T <= 0 -> is_call option_type ->
  value_of (black_scholes_price S K T r sigma option_type)
  = S * norm_cdf (d1_value S K T r sigma)
    - K * exp (- r * T) * norm_cdf (d1_value S K T r sigma - sigma * sqrt T).
Proof. intros H Hc. now rewrite price_call. Qed.

Lemma price_value_put (S K T r sigma : R) (option_type : string) :
  K <> 0 \/ T <= 0 -> is_put option_type ->
  value_of (black_scholes_price S K T r sigma option_type)
  = K * exp (- r * T) * norm_cdf (- (d1_value S K T r sigma - sigma * sqrt T))
    - S * norm_cdf (- d1_value S K T r sigma).
Proof. intros H Hc. now rewrite price_put. Qed.

(** ** The Greeks, computed *)

Lemma theta_ok (S K T r sigma : R) (option_type : string) :
  K <> 0 \/ T <= 0 ->
  theta S K T r sigma option_type =
  Ok ((- (S * norm_pdf (d1_value S K T r sigma) * sigma) / (2 * sqrt T)
       + (if (lower option_type =? "call")%string
          then - r * K * exp (- r * T)
               * norm_cdf (d1_value S K T r sigma - sigma * sqrt T)
          else r * K * exp (- r * T)
               * norm_cdf (- (d1_value S K T r sigma - sigma * sqrt T))))
      / 365).
Proof.
  intro H. unfold theta. rewrite (d1_ok _ _ _ _ _ H), (d2_ok _ _ _ _ _ H). reflexivity.
Qed.

Lemma rho_ok (S K T r sigma : R) (option_type : string) :
  K <> 0 \/ T <= 0 ->
  rho S K T r sigma option_type =
  Ok ((if (lower option_type =? "call")%string
       then K * T * exp (- r * T)
            * norm_cdf (d1_value S K T r sigma - sigma * sqrt T)
       else - K * T * exp (- r * T)
            * norm_cdf (- (d1_value S K T r sigma - sigma * sqrt T)))
      / 100).
Proof. intro H. unfold rho. rewrite (d2_ok _ _ _ _ _ H). reflexivity. Qed.

Lemma gamma_ok (S K T r sigma : R) :
  K <> 0 \/ T <= 0 ->
  gamma S K T r sigma =
  Ok (norm_pdf (d1_value S K T r sigma) / (S * sigma * sqrt T)).
Proof. intro H. unfold gamma. rewrite (d1_ok _ _ _ _ _ H). reflexivity. Qed.

Lemma call_eqb (option_type : string) :
  is_call option_type -> (lower option_type =? "call")%string = true.
Proof. intro H. rewrite H. reflexivity. Qed.

Lemma put_eqb (option_type : string) :
  is_put option_type -> (lower option_type =? "call")%string = false.
Proof. intro H. rewrite H. reflexivity. Qed.

(** ** The Greeks are the sensitivities of the price *)

Lemma dlim_exp_rate (K T r : R) :
  derivable_pt_lim (fun q => K * exp (- q * T)) r (- T * (K * exp (- r * T))).
Proof.
  replace (- T * (K * exp (- r * T))) with (K * (exp (- r * T) * - T)) by ring.
  apply (derivable_pt_lim_scal (fun q => exp (- q * T)) K).
  apply (dlim_exp_comp (fun q => - q * T)).
  apply (dlim_ext (fun q => - T * q + 0)); [intro; ring | apply dlim_affine].
Qed.

Lemma dlim_exp_maturity (K T r : R) :
  derivable_pt_lim (fun t => K * exp (- r * t)) T (- r * (K * exp (- r * T))).
Proof.
  replace (- r * (K * exp (- r * T))) with (K * (exp (- r * T) * - r)) by ring.
  apply (derivable_pt_lim_scal (fun t => exp (- r * t)) K).
  apply (dlim_exp_comp (fun t => - r * t)).
  apply (dlim_ext (fun t => - r * t + 0)); [intro; ring | apply dlim_affine].
Qed.

Lemma dlim_vol_sqrt (T sigma : R) :
  0 < T ->
  derivable_pt_lim (fun t => sigma * sqrt t) T (sigma / (2 * sqrt T)).
Proof.
  intro HT. apply (derivable_pt_lim_scal sqrt sigma T (/ (2 * sqrt T))).
  now apply derivable_pt_lim_sqrt.
Qed.

(** X1. Delta is the derivative of the price with respect to the spot. *)
Theorem delta_is_spot_sensitivity (S K T r sigma : R) (option_type : string) :
  0 < S -> 0 < K -> 0 < T -> 0 < sigma -> valid_kind option_type ->
  exists d,
    delta S K T r sigma option_type = Ok d /\
    derivable_pt_lim
      (fun s => value_of (black_scholes_price s K T r sigma option_type)) S d.
Proof.
  intros HS HK HT Hs Hv.
  assert (HK' : K <> 0 \/ T <= 0) by (left; lra).
  pose proof (density_identity S K T r sigma HS HK HT Hs) as Hid.
  pose proof (d1_diff_spot S K T r sigma HS HK HT Hs) as Hx.
  eexists. split; [apply delta_ok; exact HK' |].
  destruct Hv as [Hc | Hp].
  - rewrite (call_eqb _ Hc).
    apply (dlim_ext
             (fun s => s * norm_cdf (d1_value s K T r sigma)
                       - K * exp (- r * T)
                         * norm_cdf (d1_value s K T r sigma - sigma * sqrt T))).
    { intro s. now rewrite price_value_call. }
    pose proof (call_form_derivative (fun s => s) (fun _ => K * exp (- r * T))
                  (fun s => d1_value s K T r sigma) (fun _ => sigma * sqrt T)
                  S 1 0 0 (derivable_pt_lim_id S)
                  (derivable_pt_lim_const _ S) Hx (derivable_pt_lim_const _ S) Hid)
      as D.
    replace (norm_cdf (d1_value S K T r sigma))
      with (1 * norm_cdf (d1_value S K T r sigma)
            - 0 * norm_cdf (d1_value S K T r sigma - sigma * sqrt T)
            + S * norm_pdf (d1_value S K T r sigma) * 0) by ring.
    exact D.
  - rewrite (put_eqb _ Hp).
    apply (dlim_ext
             (fun s => K * exp (- r * T)
                       * norm_cdf (- (d1_value s K T r sigma - sigma * sqrt T))
                       - s * norm_cdf (- d1_value s K T r sigma))).
    { intro s. now rewrite price_value_put. }
    pose proof (put_form_derivative (fun s => s) (fun _ => K * exp (- r * T))
                  (fun s => d1_value s K T r sigma) (fun _ => sigma * sqrt T)
                  S 1 0 0 (derivable_pt_lim_id S)
                  (derivable_pt_lim_const _ S) Hx (derivable_pt_lim_const _ S) Hid)
      as D.
    replace (norm_cdf (d1_value S K T r sigma) - 1)
      with (0 * norm_cdf (- (d1_value S K T r sigma - sigma * sqrt T))
            - 1 * norm_cdf (- d1_value S K T r sigma)
            + S * norm_pdf (d1_value S K T r sigma) * 0)
      by (rewrite !norm_cdf_opp; ring).
    exact D.
Qed.

(** X1 for an at-the-money call (S = K = 100, T = 1, r = 5%, sigma = 20%). *)
Lemma delta_is_spot_sensitivity_witness :
  exists d,
    delta 100 100 1 0.05 0.2 "call" = Ok d /\
    derivable_pt_lim
      (fun s => value_of (black_scholes_price s 100 1 0.05 0.2 "call")) 100 d.
Proof.
  apply (delta_is_spot_sensitivity 100 100 1 0.05 0.2 "call"); try lra.
  left. reflexivity.
Defined.

Lemma price_vol_derivative (S K T r sigma : R) (option_type : string) :
  0 < S -> 0 < K -> 0 < T -> 0 < sigma -> valid_kind option_type ->
  derivable_pt_lim
    (fun s => value_of (black_scholes_price S K T r s option_type)) sigma
    (S * sqrt T * norm_pdf (d1_value S K T r sigma)).
Proof.
  intros HS HK HT Hs Hv.
  assert (HK' : K <> 0 \/ T <= 0) by (left; lra).
  pose proof (density_identity S K T r sigma HS HK HT Hs) as Hid.
  pose proof (d1_diff_vol S K T r sigma HT Hs) as Hx.
  assert (Ha : derivable_pt_lim (fun s => s * sqrt T) sigma (sqrt T)).
  { apply (dlim_ext (fun s => sqrt T * s + 0)); [intro; ring | apply dlim_affine]. }
  destruct Hv as [Hc | Hp].
  - apply (dlim_ext
             (fun s => S * norm_cdf (d1_value S K T r s)
                       - K * exp (- r * T)
                         * norm_cdf (d1_value S K T r s - s * sqrt T))).
    { intro s. now rewrite price_value_call. }
    pose proof (call_form_derivative (fun _ => S) (fun _ => K * exp (- r * T))
                  (fun s => d1_value S K T r s) (fun s => s * sqrt T)
                  sigma 0 0 (sqrt T) (derivable_pt_lim_const _ sigma)
                  (derivable_pt_lim_const _ sigma) Hx Ha Hid) as D.
    replace (S * sqrt T * norm_pdf (d1_value S K T r sigma))
      with (0 * norm_cdf (d1_value S K T r sigma)
            - 0 * norm_cdf (d1_value S K T r sigma - sigma * sqrt T)
            + S * norm_pdf (d1_value S K T r sigma) * sqrt T) by ring.
    exact D.
  - apply (dlim_ext
             (fun s => K * exp (- r * T)
                       * norm_cdf (- (d1_value S K T r s - s * sqrt T))
                       - S * norm_cdf (- d1_value S K T r s))).
    { intro s. now rewrite price_value_put. }
    pose proof (put_form_derivative (fun _ => S) (fun _ => K * exp (- r * T))
                  (fun s => d1_value S K T r s) (fun s => s * sqrt T)
                  sigma 0 0 (sqrt T) (derivable_pt_lim_const _ sigma)
                  (derivable_pt_lim_const _ sigma) Hx Ha Hid) as D.
    replace (S * sqrt T * norm_pdf (d1_value S K T r sigma))
      with (0 * norm_cdf (- (d1_value S K T r sigma - sigma * sqrt T))
            - 0 * norm_cdf (- d1_value S K T r sigma)
            + S * norm_pdf (d1_value S K T r sigma) * sqrt T) by ring.
    exact D.
Qed.

(** X2. Vega, put back in absolute units (times 100), is the derivative of
    the price with respect to the volatility, for calls and puts alike. *)
Theorem vega_is_vol_sensitivity (S K T r sigma : R) (option_type : string) :
  0 < S -> 0 < K -> 0 < T -> 0 < sigma -> valid_kind option_type ->
  exists v,
    vega S K T r sigma = Ok v /\
    derivable_pt_lim
      (fun s => value_of (black_scholes_price S K T r s option_type)) sigma
      (v * 100).
Proof.
  intros HS HK HT Hs Hv.
  eexists. split; [apply vega_ok; left; lra |].
  replace (S * sqrt T * norm_pdf (d1_value S K T r sigma) / 100 * 100)
    with (S * sqrt T * norm_pdf (d1_value S K T r sigma)) by field.
  now apply price_vol_derivative.
Qed.

(** X2 for an at-the-money put. *)
Lemma vega_is_vol_sensitivity_witness :
  exists v,
    vega 100 100 1 0.05 0.2 = Ok v /\
    derivable_pt_lim
      (fun s => value_of (black_scholes_price 100 100 1 0.05 s "put")) 0.2
      (v * 100).
Proof.
  apply (vega_is_vol_sensitivity 100 100 1 0.05 0.2 "put"); try lra.
  right. reflexivity.
Defined.

(** X3. Rho, put back in absolute units (times 100), is the derivative of
    the price with respect to the interest rate. *)
Theorem rho_is_rate_sensitivity (S K T r sigma : R) (option_type : string) :
  0 < S -> 0 < K -> 0 < T -> 0 < sigma -> valid_kind option_type ->
  exists v,
    rho S K T r sigma option_type = Ok v /\
    derivable_pt_lim
      (fun q => value_of (black_scholes_price S K T q sigma option_type)) r
      (v * 100).
Proof.
  intros HS HK HT Hs Hv.
  assert (HK' : K <> 0 \/ T <= 0) by (left; lra).
  pose proof (density_identity S K T r sigma HS HK HT Hs) as Hid.
  pose proof (d1_diff_rate S K T r sigma HT Hs) as Hx.
  eexists. split; [apply rho_ok; exact HK' |].
  destruct Hv as [Hc | Hp].
  - rewrite (call_eqb _ Hc).
    apply (dlim_ext
             (fun q => S * norm_cdf (d1_value S K T q sigma)
                       - K * exp (- q * T)
                         * norm_cdf (d1_value S K T q sigma - sigma * sqrt T))).
    { intro q. now rewrite price_value_call. }
    pose proof (call_form_derivative (fun _ => S) (fun q => K * exp (- q * T))
                  (fun q => d1_value S K T q sigma) (fun _ => sigma * sqrt T)
                  r 0 _ 0 (derivable_pt_lim_const _ r)
                  (dlim_exp_rate K T r) Hx (derivable_pt_lim_const _ r) Hid) as D.
    match goal with
    | |- derivable_pt_lim _ _ ?l =>
        match type of D with
        | derivable_pt_lim _ _ ?m => replace l with m by field
        end
    end.
    exact D.
  - rewrite (put_eqb _ Hp).
    apply (dlim_ext
             (fun q => K * exp (- q * T)
                       * norm_cdf (- (d1_value S K T q sigma - sigma * sqrt T))
                       - S * norm_cdf (- d1_value S K T q sigma))).
    { intro q. now rewrite price_value_put. }
    pose proof (put_form_derivative (fun _ => S) (fun q => K * exp (- q * T))
                  (fun q => d1_value S K T q sigma) (fun _ => sigma * sqrt T)
                  r 0 _ 0 (derivable_pt_lim_const _ r)
                  (dlim_exp_rate K T r) Hx (derivable_pt_lim_const _ r) Hid) as D.
    match goal with
    | |- derivable_pt_lim _ _ ?l =>
        match type of D with
        | derivable_pt_lim _ _ ?m => replace l with m by field
        end
    end.
    exact D.
Qed.

(** X3 for an at-the-money call. *)
Lemma rho_is_rate_sensitivity_witness :
  exists v,
    rho 100 100 1 0.05 0.2 "call" = Ok v /\
    derivable_pt_lim
      (fun q => value_of (black_scholes_price 100 100 1 q 0.2 "call")) 0.05
      (v * 100).
Proof.
  apply (rho_is_rate_sensitivity 100 100 1 0.05 0.2 "call"); try lra.
  left. reflexivity.
Defined.

(** X4. Theta, put back in years (times 365), is minus the derivative of
    the price with respect to the time to maturity. *)
Theorem theta_is_time_decay (S K T r sigma : R) (option_type : string) :
  0 < S -> 0 < K -> 0 < T -> 0 < sigma -> valid_kind option_type ->
  exists v,
    theta S K T r sigma option_type = Ok v /\
    derivable_pt_lim
      (fun t => value_of (black_scholes_price S K t r sigma option_type)) T
      (- (v * 365)).
Proof.
  intros HS HK HT Hs Hv.
  assert (HK' : K <> 0 \/ T <= 0) by (left; lra).
  assert (HKt : forall t, K <> 0 \/ t <= 0) by (intro; left; lra).
  pose proof (density_identity S K T r sigma HS HK HT Hs) as Hid.
  pose proof (d1_diff_maturity S K T r sigma HT Hs) as Hx.
  pose proof (sqrt_lt_R0 T HT) as Hq.
  eexists. split; [apply theta_ok; exact HK' |].
  destruct Hv as [Hc | Hp].
  - rewrite (call_eqb _ Hc).
    apply (dlim_ext
             (fun t => S * norm_cdf (d1_value S K t r sigma)
                       - K * exp (- r * t)
                         * norm_cdf (d1_value S K t r sigma - sigma * sqrt t))).
    { intro t. now rewrite price_value_call. }
    pose proof (call_form_derivative (fun _ => S) (fun t => K * exp (- r * t))
                  (fun t => d1_value S K t r sigma) (fun t => sigma * sqrt t)
                  T 0 _ _ (derivable_pt_lim_const _ T)
                  (dlim_exp_maturity K T r) Hx (dlim_vol_sqrt T sigma HT) Hid) as D.
    match goal with
    | |- derivable_pt_lim _ _ ?l =>
        match type of D with
        | derivable_pt_lim _ _ ?m => replace l with m by (field; lra)
        end
    end.
    exact D.
  - rewrite (put_eqb _ Hp).
    apply (dlim_ext
             (fun t => K * exp (- r * t)
                       * norm_cdf (- (d1_value S K t r sigma - sigma * sqrt t))
                       - S * norm_cdf (- d1_value S K t r sigma))).
    { intro t. now rewrite price_value_put. }
    pose proof (put_form_derivative (fun _ => S) (fun t => K * exp (- r * t))
                  (fun t => d1_value S K t r sigma) (fun t => sigma * sqrt t)
                  T 0 _ _ (derivable_pt_lim_const _ T)
                  (dlim_exp_maturity K T r) Hx (dlim_vol_sqrt T sigma HT) Hid) as D.
    match goal with
    | |- derivable_pt_lim _ _ ?l =>
        match type of D with
        | derivable_pt_lim _ _ ?m => replace l with m by (field; lra)
        end
    end.
    exact D.
Qed.

(** X4 for an at-the-money put. *)
Lemma theta_is_time_decay_witness :
  exists v,
    theta 100 100 1 0.05 0.2 "put" = Ok v /\
    derivable_pt_lim
      (fun t => value_of (black_scholes_price 100 100 t 0.05 0.2 "put")) 1
      (- (v * 365)).
Proof.
  apply (theta_is_time_decay 100 100 1 0.05 0.2 "put"); try lra.
  right. reflexivity.
Defined.

Lemma d1_deriv_spot (S K T r sigma : R) :
  0 < S -> 0 < K -> 0 < T -> 0 < sigma ->
  derivable_pt_lim (fun s => d1_value s K T r sigma) S (/ (S * sigma * sqrt T)).
Proof.
  intros HS HK HT Hs. pose proof (vol_sqrt_nonzero T sigma HT Hs) as Hne.
  apply (dlim_local
           (fun s => / (sigma * sqrt T) * ln (s / K)
                     + (r + 0.5 * sigma ^ 2) * T / (sigma * sqrt T))
           _ S _ 1 Rlt_0_1).
  { intros y _. rewrite d1_value_live by exact HT. pose proof (sqrt_lt_R0 T HT).
    field. split; lra. }
  replace (/ (S * sigma * sqrt T)) with (/ (sigma * sqrt T) * (/ (S / K) * / K) + 0)
    by (pose proof (sqrt_lt_R0 T HT); field; repeat split; lra).
  apply (derivable_pt_lim_plus (fun s => / (sigma * sqrt T) * ln (s / K))
           (fun _ => (r + 0.5 * sigma ^ 2) * T / (sigma * sqrt T)));
    [| apply derivable_pt_lim_const].
  apply (derivable_pt_lim_scal (fun s => ln (s / K))).
  apply (derivable_pt_lim_comp (fun s => s / K) ln S (/ K) (/ (S / K))).
  - apply (dlim_ext (fun s => / K * s + 0)); [intro; unfold Rdiv; ring | apply dlim_affine].
  - apply derivable_pt_lim_ln. now apply Rdiv_lt_0_compat.
Qed.

(** X5. Gamma is the derivative of delta with respect to the spot, for
    calls and puts alike. *)
Theorem gamma_is_delta_sensitivity (S K T r sigma : R) (option_type : string) :
  0 < S -> 0 < K -> 0 < T -> 0 < sigma ->
  exists g,
    gamma S K T r sigma = Ok g /\
    derivable_pt_lim
      (fun s => value_of (delta s K T r sigma option_type)) S g.
Proof.
  intros HS HK HT Hs.
  assert (HK' : forall s : R, K <> 0 \/ T <= 0) by (intro; left; lra).
  eexists. split; [apply gamma_ok; apply (HK' S) |].
  pose proof (d1_deriv_spot S K T r sigma HS HK HT Hs) as Dx.
  assert (D : derivable_pt_lim (fun s => norm_cdf (d1_value s K T r sigma)) S
                (norm_pdf (d1_value S K T r sigma) / (S * sigma * sqrt T))).
  { apply (derivable_pt_lim_comp (fun s => d1_value s K T r sigma) norm_cdf S
             (/ (S * sigma * sqrt T)) (norm_pdf (d1_value S K T r sigma)) Dx).
    apply norm_cdf_deriv. }
  destruct (lower option_type =? "call")%string eqn:E.
  - apply (dlim_ext (fun s => norm_cdf (d1_value s K T r sigma))); [| exact D].
    intro s. rewrite (delta_ok _ _ _ _ _ _ (HK' s)), E. reflexivity.
  - apply (dlim_ext (fun s => norm_cdf (d1_value s K T r sigma) - 1)).
    { intro s. rewrite (delta_ok _ _ _ _ _ _ (HK' s)), E. reflexivity. }
    replace (norm_pdf (d1_value S K T r sigma) / (S * sigma * sqrt T))
      with (norm_pdf (d1_value S K T r sigma) / (S * sigma * sqrt T) - 0) by ring.
    apply (derivable_pt_lim_minus (fun s => norm_cdf (d1_value s K T r sigma))
             (fun _ => 1)); [exact D | apply derivable_pt_lim_const].
Qed.

(** X5 for an at-the-money call. *)
Lemma gamma_is_delta_sensitivity_witness :
  exists g,
    gamma 100 100 1 0.05 0.2 = Ok g /\
    derivable_pt_lim (fun s => value_of (delta s 100 1 0.05 0.2 "call")) 100 g.
Proof. apply (gamma_is_delta_sensitivity 100 100 1 0.05 0.2 "call"); lra. Defined.

(** ** Signs, bounds and relations between the Greeks *)

(** X6. In exact arithmetic, for S > 0, K > 0 and sigma > 0 (any T and r):
    delta lies between 0 and 1 for a call and between -1 and 0 for a put,
    as the docstring of [delta] says, and the call delta minus the put
    delta is 1. *)
Theorem delta_bounds (S K T r sigma : R) (call put : string) :
  0 < S -> 0 < K -> 0 < sigma -> is_call call -> is_put put ->
  exists dc dp,
    delta S K T r sigma call = Ok dc /\
    delta S K T r sigma put = Ok dp /\
    0 <= dc <= 1 /\ - 1 <= dp <= 0 /\ dc - dp = 1.
Proof.
  intros _ HK _ Hc Hp. pose proof (norm_cdf_range (d1_value S K T r sigma)).
  assert (HK' : K <> 0 \/ T <= 0) by (left; lra).
  eexists. eexists. split; [apply delta_ok; exact HK' |].
  split; [apply delta_ok; exact HK' |].
  rewrite (call_eqb _ Hc), (put_eqb _ Hp). lra.
Qed.

(** X6 at S = K = 100, T = 1. *)
Lemma delta_bounds_witness :
  exists dc dp,
    delta 100 100 1 0.05 0.2 "call" = Ok dc /\
    delta 100 100 1 0.05 0.2 "put" = Ok dp /\
    0 <= dc <= 1 /\ - 1 <= dp <= 0 /\ dc - dp = 1.
Proof.
  apply (delta_bounds 100 100 1 0.05 0.2 "call" "put"); try lra; reflexivity.
Defined.

(** X7. At or past expiry (T <= 0) delta does not look at the moneyness:
    it is 1/2 for a call and -1/2 for any other kind. *)
Theorem delta_at_expiry (S K T r sigma : R) (option_type : string) :
  T <= 0 ->
  delta S K T r sigma option_type
  = Ok (if (lower option_type =? "call")%string then 1 / 2 else - (1 / 2)).
Proof.
  intro HT. rewrite delta_ok by (right; exact HT).
  unfold d1_value. destruct (Rle_dec T 0); [| contradiction].
  rewrite norm_cdf_0. destruct (lower option_type =? "call")%string; f_equal; lra.
Qed.

(** X7 for a call deep in the money at T = 0. *)
Lemma delta_at_expiry_witness : delta 150 100 0 0.05 0.2 "call" = Ok (1 / 2).
Proof. exact (delta_at_expiry 150 100 0 0.05 0.2 "call" (Rle_refl 0)). Defined.

(** X8. In exact arithmetic, for S, K, T, sigma > 0: gamma and vega are
    not negative, and vega * 100 = gamma * S^2 * sigma * T. *)
Theorem gamma_vega_positive (S K T r sigma : R) :
  0 < S -> 0 < K -> 0 < T -> 0 < sigma ->
  exists g v,
    gamma S K T r sigma = Ok g /\
    vega S K T r sigma = Ok v /\
    0 <= g /\ 0 <= v /\ v * 100 = g * S ^ 2 * sigma * T.
Proof.
  intros HS HK HT Hs.
  pose proof (sqrt_lt_R0 T HT) as Hq.
  pose proof (norm_pdf_pos (d1_value S K T r sigma)) as Hn.
  eexists. eexists. split; [apply gamma_ok; left; lra |].
  split; [apply vega_ok; left; lra |].
  split; [| split].
  - apply Rlt_le, Rdiv_lt_0_compat; [exact Hn |].
    apply Rmult_lt_0_compat; [apply Rmult_lt_0_compat |]; assumption.
  - apply Rlt_le, Rdiv_lt_0_compat; [| lra].
    apply Rmult_lt_0_compat; [apply Rmult_lt_0_compat |]; assumption.
  - pose proof (sqrt_sqrt T (Rlt_le _ _ HT)) as Hsq.
    set (n := norm_pdf (d1_value S K T r sigma)) in *.
    set (q := sqrt T) in *. rewrite <- Hsq. field. lra.
Qed.

(** X8 at S = K = 100, T = 1. *)
Lemma gamma_vega_positive_witness :
  exists g v,
    gamma 100 100 1 0.05 0.2 = Ok g /\
    vega 100 100 1 0.05 0.2 = Ok v /\
    0 <= g /\ 0 <= v /\ v * 100 = g * 100 ^ 2 * 0.2 * 1.
Proof. apply (gamma_vega_positive 100 100 1 0.05 0.2); lra. Defined.

(** X9. In exact arithmetic, for S, K, T, sigma > 0: the put theta exceeds
    the call theta by r * K * exp(-r*T) / 365, and the call theta is not
    positive when r >= 0. *)
Theorem theta_call_put (S K T r sigma : R) (call put : string) :
  0 < S -> 0 < K -> 0 < T -> 0 < sigma -> is_call call -> is_put put ->
  exists tc tp,
    theta S K T r sigma call = Ok tc /\
    theta S K T r sigma put = Ok tp /\
    tp - tc = r * K * exp (- r * T) / 365 /\
    (0 <= r -> tc <= 0).
Proof.
  intros HS HK HT Hs Hc Hp.
  pose proof (sqrt_lt_R0 T HT) as Hq.
  pose proof (norm_pdf_pos (d1_value S K T r sigma)) as Hn.
  pose proof (norm_cdf_strict (d1_value S K T r sigma - sigma * sqrt T)) as Hd2.
  eexists. eexists. split; [apply theta_ok; left; lra |].
  split; [apply theta_ok; left; lra |].
  rewrite (call_eqb _ Hc), (put_eqb _ Hp). split.
  - rewrite norm_cdf_opp. field. lra.
  - intro Hr. apply Rlt_le.
    assert (H1 : 0 < S * norm_pdf (d1_value S K T r sigma) * sigma / (2 * sqrt T)).
    { apply Rdiv_lt_0_compat; [| lra].
      apply Rmult_lt_0_compat; [apply Rmult_lt_0_compat |]; assumption. }
    assert (H2 : 0 <= r * K * exp (- r * T)
                      * norm_cdf (d1_value S K T r sigma - sigma * sqrt T)).
    { apply Rmult_le_pos; [| lra]. apply Rmult_le_pos; [| left; apply exp_pos].
      apply Rmult_le_pos; lra. }
    unfold Rdiv in *. nra.
Qed.

(** X9 at S = K = 100, T = 1, r = 5%. *)
Lemma theta_call_put_witness :
  exists tc tp,
    theta 100 100 1 0.05 0.2 "call" = Ok tc /\
    theta 100 100 1 0.05 0.2 "put" = Ok tp /\
    tp - tc = 0.05 * 100 * exp (- (0.05) * 1) / 365 /\
    (0 <= 0.05 -> tc <= 0).
Proof.
  apply (theta_call_put 100 100 1 0.05 0.2 "call" "put"); try lra; reflexivity.
Defined.

(** X10. In exact arithmetic, for S, K, T, sigma > 0: rho is not negative
    for a call and not positive for a put, and the call rho minus the put
    rho is K * T * exp(-r*T) / 100. *)
Theorem rho_call_put (S K T r sigma : R) (call put : string) :
  0 < S -> 0 < K -> 0 < T -> 0 < sigma -> is_call call -> is_put put ->
  exists rc rp,
    rho S K T r sigma call = Ok rc /\
    rho S K T r sigma put = Ok rp /\
    0 <= rc /\ rp <= 0 /\ rc - rp = K * T * exp (- r * T) / 100.
Proof.
  intros _ HK HT _ Hc Hp.
  pose proof (norm_cdf_strict (d1_value S K T r sigma - sigma * sqrt T)) as Hd2.
  assert (HD : 0 < K * T * exp (- r * T)).
  { apply Rmult_lt_0_compat; [now apply Rmult_lt_0_compat | apply exp_pos]. }
  eexists. eexists. split; [apply rho_ok; left; lra |].
  split; [apply rho_ok; left; lra |].
  rewrite (call_eqb _ Hc), (put_eqb _ Hp), norm_cdf_opp.
  set (D := K * T * exp (- r * T)) in *.
  set (N := norm_cdf (d1_value S K T r sigma - sigma * sqrt T)) in *.
  replace (- K * T * exp (- r * T)) with (- D) by (unfold D; ring).
  split; [| split].
  - apply Rlt_le, Rdiv_lt_0_compat; [apply Rmult_lt_0_compat; lra | lra].
  - assert (0 < D * (1 - N)) by (apply Rmult_lt_0_compat; lra). lra.
  - field.
Qed.

(** X10 at S = K = 100, T = 1. *)
Lemma rho_call_put_witness :
  exists rc rp,
    rho 100 100 1 0.05 0.2 "call" = Ok rc /\
    rho 100 100 1 0.05 0.2 "put" = Ok rp /\
    0 <= rc /\ rp <= 0 /\ rc - rp = 100 * 1 * exp (- (0.05) * 1) / 100.
Proof.
  apply (rho_call_put 100 100 1 0.05 0.2 "call" "put"); try lra; reflexivity.
Defined.

(** ** The price: bounds and dependence on the volatility *)

(** X11. No-arbitrage bounds, in exact arithmetic.  For S, K, T, sigma > 0
    a call is worth at least max(S - K*exp(-r*T), 0) and at most S; a put
    at least max(K*exp(-r*T) - S, 0) and at most K*exp(-r*T). *)
Theorem price_bounds (S K T r sigma : R) (call put : string) :
  0 < S -> 0 < K -> 0 < T -> 0 < sigma -> is_call call -> is_put put ->
  exists c p,
    black_scholes_price S K T r sigma call = Ok c /\
    black_scholes_price S K T r sigma put = Ok p /\
    Rmax (S - K * exp (- r * T)) 0 <= c <= S /\
    Rmax (K * exp (- r * T) - S) 0 <= p <= K * exp (- r * T).
Proof.
  intros HS HK HT Hs Hc Hp.
  assert (HK' : K <> 0 \/ T <= 0) by (left; lra).
  pose proof (call_value_nonneg S K T r sigma HS HK HT Hs) as Hc0.
  pose proof (put_value_nonneg S K T r sigma HS HK HT Hs) as Hp0.
  pose proof (norm_cdf_strict (d1_value S K T r sigma)) as H1.
  pose proof (norm_cdf_strict (d1_value S K T r sigma - sigma * sqrt T)) as H2.
  assert (HD : 0 < K * exp (- r * T)) by (apply Rmult_lt_0_compat; [lra | apply exp_pos]).
  eexists. eexists. split; [now apply price_call |]. split; [now apply price_put |].
  rewrite !norm_cdf_opp in *.
  set (N1 := norm_cdf (d1_value S K T r sigma)) in *.
  set (N2 := norm_cdf (d1_value S K T r sigma - sigma * sqrt T)) in *.
  set (D := K * exp (- r * T)) in *.
  assert (0 < S * (1 - N1)) by (apply Rmult_lt_0_compat; lra).
  assert (0 < D * N2) by (apply Rmult_lt_0_compat; lra).
  assert (0 < D * (1 - N2)) by (apply Rmult_lt_0_compat; lra).
  assert (0 < S * N1) by (apply Rmult_lt_0_compat; lra).
  repeat split; try (apply Rmax_lub); lra.
Qed.

(** X11 for a call deep in the money (S = 150, K = 100), as in the
    repository's test of the intrinsic value. *)
Lemma price_bounds_witness :
  exists c p,
    black_scholes_price 150 100 1 0.05 0.2 "call" = Ok c /\
    black_scholes_price 150 100 1 0.05 0.2 "put" = Ok p /\
    Rmax (150 - 100 * exp (- (0.05) * 1)) 0 <= c <= 150 /\
    Rmax (100 * exp (- (0.05) * 1) - 150) 0 <= p <= 100 * exp (- (0.05) * 1).
Proof.
  apply (price_bounds 150 100 1 0.05 0.2 "call" "put"); try lra; reflexivity.
Defined.

Lemma price_increasing_in_vol (S K T r s1 s2 : R) (option_type : string) :
  0 < S -> 0 < K -> 0 < T -> valid_kind option_type ->
  0 < s1 -> s1 < s2 ->
  value_of (black_scholes_price S K T r s1 option_type)
  < value_of (black_scholes_price S K T r s2 option_type).
Proof.
  intros HS HK HT Hv H1 H12.
  destruct (MVT_cor2
              (fun s => value_of (black_scholes_price S K T r s option_type))
              (fun s => S * sqrt T * norm_pdf (d1_value S K T r s))
              s1 s2 H12) as [c [E Hc]].
  { intros c Hc. apply price_vol_derivative; try assumption. lra. }
  assert (0 < S * sqrt T * norm_pdf (d1_value S K T r c)).
  { apply Rmult_lt_0_compat; [| apply norm_pdf_pos].
    apply Rmult_lt_0_compat; [exact HS | now apply sqrt_lt_R0]. }
  assert (0 < S * sqrt T * norm_pdf (d1_value S K T r c) * (s2 - s1))
    by (apply Rmult_lt_0_compat; lra).
  lra.
Qed.

(** X12. In exact arithmetic, for S, K, T > 0 the price is strictly
    increasing in the volatility over sigma > 0: two volatilities that
    give the same price are equal, so an implied volatility, when there is
    one, is unique. *)
Theorem price_strictly_increasing_in_vol (S K T r s1 s2 : R)
  (option_type : string) :
  0 < S -> 0 < K -> 0 < T -> valid_kind option_type -> 0 < s1 -> 0 < s2 ->
  exists p1 p2,
    black_scholes_price S K T r s1 option_type = Ok p1 /\
    black_scholes_price S K T r s2 option_type = Ok p2 /\
    (s1 < s2 <-> p1 < p2) /\ (p1 = p2 -> s1 = s2).
Proof.
  intros HS HK HT Hv H1 H2.
  assert (HK' : K <> 0 \/ T <= 0) by (left; lra).
  destruct (price_ok S K T r s1 option_type HK' Hv) as [p1 E1].
  destruct (price_ok S K T r s2 option_type HK' Hv) as [p2 E2].
  exists p1, p2. split; [exact E1 |]. split; [exact E2 |].
  assert (Hlt : forall a b, 0 < a -> a < b ->
            value_of (black_scholes_price S K T r a option_type)
            < value_of (black_scholes_price S K T r b option_type)).
  { intros a b Ha Hab. now apply price_increasing_in_vol. }
  pose proof (Hlt s1 s2 H1) as F12. pose proof (Hlt s2 s1 H2) as F21.
  rewrite E1, E2 in F12, F21. simpl in F12, F21.
  split; [split |].
  - exact F12.
  - intro Hp. destruct (Rtotal_order s1 s2) as [L | [Eq | G]]; [exact L | |].
    + subst s2. rewrite E1 in E2. injection E2 as E2. lra.
    + specialize (F21 G). lra.
  - intro Hp. destruct (Rtotal_order s1 s2) as [L | [Eq | G]]; [| exact Eq |].
    + specialize (F12 L). lra.
    + specialize (F21 G). lra.
Qed.

(** X12 between 20% and 30% volatility. *)
Lemma price_strictly_increasing_in_vol_witness :
  exists p1 p2,
    black_scholes_price 100 100 1 0.05 0.2 "call" = Ok p1 /\
    black_scholes_price 100 100 1 0.05 0.3 "call" = Ok p2 /\
    (0.2 < 0.3 <-> p1 < p2) /\ (p1 = p2 -> 0.2 = 0.3).
Proof.
  apply (price_strictly_increasing_in_vol 100 100 1 0.05 0.2 0.3 "call"); try lra.
  left. reflexivity.
Defined.

(** ** The solvers: what a result says *)

Lemma newton_loop_returned_spec (market_price S K T r : R) (option_type : string)
  (tolerance : R) :
  forall todo i sigma res,
    newton_loop market_price S K T r option_type tolerance todo i sigma
    = Ok (Returned res) ->
    converged res = true /\
    (i + 1 <= iterations res <= i + Z.of_nat todo)%Z /\
    final_error res < tolerance /\
    exists p,
      black_scholes_price S K T r (implied_vol res) option_type = Ok p /\
      final_error res = Rabs (p - market_price).
Proof.
  induction todo as [| todo IH]; intros i sigma res E; simpl in E; [discriminate |].
  apply bind_Ok_inv in E. destruct E as [p [Hp E]].
  destruct (Rlt_dec (Rabs (p - market_price)) tolerance) as [Hlt | _].
  { injection E as <-. simpl. repeat split; try lia; try assumption.
    exists p. split; [exact Hp | reflexivity]. }
  apply bind_Ok_inv in E. destruct E as [v [_ E]].
  destruct (Rlt_dec (Rabs (v * 100)) 1e-10); [discriminate |].
  apply IH in E. destruct E as [Hc [Hi [He Hex]]].
  repeat split; try assumption; lia.
Qed.

Lemma newton_loop_positive (market_price S K T r : R) (option_type : string)
  (tolerance : R) :
  forall todo i sigma out,
    0 < sigma ->
    newton_loop market_price S K T r option_type tolerance todo i sigma = Ok out ->
    match out with
    | Returned res => 0 < implied_vol res
    | Fell s => 0 < s
    end.
Proof.
  induction todo as [| todo IH]; intros i sigma out Hpos E; simpl in E.
  - injection E as <-. exact Hpos.
  - apply bind_Ok_inv in E. destruct E as [p [Hp E]].
    destruct (Rlt_dec (Rabs (p - market_price)) tolerance).
    { injection E as <-. exact Hpos. }
    apply bind_Ok_inv in E. destruct E as [v [_ E]].
    destruct (Rlt_dec (Rabs (v * 100)) 1e-10).
    { injection E as <-. exact Hpos. }
    apply IH in E; [exact E |].
    destruct (Rle_dec (sigma - (p - market_price) / (v * 100)) 0); lra.
Qed.

Lemma newton_converged_spec (market_price S K T r : R)
  (option_type : string) (initial_vol tolerance : option R)
  (max_iterations : option Z) (res : SolverResult) :
  implied_volatility_newton market_price S K T r option_type
    initial_vol tolerance max_iterations = Ok res ->
  converged res = true ->
  (1 <= iterations res <= kwarg 100 max_iterations)%Z /\
  final_error res < kwarg 1e-6 tolerance /\
  exists p,
    black_scholes_price S K T r (implied_vol res) option_type = Ok p /\
    final_error res = Rabs (p - market_price).
Proof.
  intros E Hc. unfold implied_volatility_newton in E.
  apply bind_Ok_inv in E. destruct E as [[res' | sigma] [Eloop E]].
  - injection E as ->. apply newton_loop_returned_spec in Eloop.
    destruct Eloop as [_ [Hi [He Hex]]]. repeat split; try assumption; lia.
  - apply bind_Ok_inv in E. destruct E as [p [_ E]]. injection E as <-.
    discriminate.
Qed.

Lemma newton_positive_spec (market_price S K T r : R)
  (option_type : string) (initial_vol tolerance : option R)
  (max_iterations : option Z) (res : SolverResult) :
  0 < kwarg 0.2 initial_vol ->
  implied_volatility_newton market_price S K T r option_type
    initial_vol tolerance max_iterations = Ok res ->
  0 < implied_vol res.
Proof.
  intros Hpos E. unfold implied_volatility_newton in E.
  apply bind_Ok_inv in E. destruct E as [out [Eloop E]].
  apply newton_loop_positive in Eloop; [| exact Hpos].
  destruct out as [res' | sigma].
  - injection E as ->. exact Eloop.
  - apply bind_Ok_inv in E. destruct E as [p [_ E]]. injection E as <-.
    exact Eloop.
Qed.

(** X13. A converged Newton-Raphson result is what it says: the price at the
    returned volatility is within the tolerance of the market price,
    final_error is that distance, and iterations counts the passes made,
    between 1 and max_iterations. *)
Theorem newton_converged_report (market_price S K T r : R)
  (option_type : string) (initial_vol tolerance : option R)
  (max_iterations : option Z) (res : SolverResult) :
  implied_volatility_newton market_price S K T r option_type
    initial_vol tolerance max_iterations = Ok res ->
  converged res = true ->
  (1 <= iterations res <= kwarg 100 max_iterations)%Z /\
  final_error res < kwarg 1e-6 tolerance /\
  exists p,
    black_scholes_price S K T r (implied_vol res) option_type = Ok p /\
    final_error res = Rabs (p - market_price).
Proof. apply newton_converged_spec. Qed.

(** A market price within the tolerance of the model's price at the
    initial volatility is matched in the first pass. *)
Lemma newton_first_pass (market_price S K T r : R) (option_type : string)
  (initial_vol tolerance : option R) (max_iterations : option Z) (p : R) :
  black_scholes_price S K T r (kwarg 0.2 initial_vol) option_type = Ok p ->
  (1 <= kwarg 100 max_iterations)%Z ->
  Rabs (p - market_price) < kwarg 1e-6 tolerance ->
  implied_volatility_newton market_price S K T r option_type
    initial_vol tolerance max_iterations
  = Ok (mkSolverResult (kwarg 0.2 initial_vol) true 1 (Rabs (p - market_price))).
Proof.
  intros Hp Hn Htol. unfold implied_volatility_newton. cbv zeta.
  destruct (Z.to_nat (kwarg 100%Z max_iterations)) as [| n] eqn:E; [lia |].
  cbn [newton_loop]. rewrite Hp. cbn [bind].
  destruct (Rlt_dec (Rabs (p - market_price)) (kwarg 1e-6 tolerance));
    [reflexivity | contradiction].
Qed.

Lemma newton_on_target :
  implied_volatility_newton 25 100 50 0 0.05 "call" None None None
  = Ok (mkSolverResult 0.2 true 1 0).
Proof.
  assert (Hp : black_scholes_price 100 50 0 0.05 (kwarg 0.2 None) "call" = Ok 25).
  { rewrite price_call; [| right; lra | reflexivity].
    rewrite d1_value_expiry, sqrt_0. simpl kwarg.
    replace (0 - 0.2 * 0) with 0 by ring. rewrite norm_cdf_0.
    replace (- (0.05) * 0) with 0 by ring. rewrite exp_0. f_equal. lra. }
  assert (Habs : Rabs (25 - 25) = 0).
  { replace (25 - 25) with 0 by ring. apply Rabs_R0. }
  rewrite (newton_first_pass 25 100 50 0 0.05 "call" None None None 25 Hp).
  - rewrite Habs. reflexivity.
  - simpl. lia.
  - rewrite Habs. simpl. lra.
Qed.

(** X13 on that run. *)
Lemma newton_converged_report_witness :
  (1 <= 1 <= 100)%Z /\
  0 < 1e-6 /\
  exists p,
    black_scholes_price 100 50 0 0.05 0.2 "call" = Ok p /\ 0 = Rabs (p - 25).
Proof.
  exact (newton_converged_report 25 100 50 0 0.05 "call" None None None
           (mkSolverResult 0.2 true 1 0) newton_on_target eq_refl).
Defined.

(** X14. In exact arithmetic, for S > 0, K > 0 and T >= 0: Newton-Raphson
    never reports a volatility <= 0 when it starts from a positive one (as
    it does by default): an update that leaves the positive half line is
    replaced by 0.01. *)
Theorem newton_vol_positive (market_price S K T r : R)
  (option_type : string) (initial_vol tolerance : option R)
  (max_iterations : option Z) (res : SolverResult) :
  0 < S -> 0 < K -> 0 <= T ->
  0 < kwarg 0.2 initial_vol ->
  implied_volatility_newton market_price S K T r option_type
    initial_vol tolerance max_iterations = Ok res ->
  0 < implied_vol res.
Proof. intros _ _ _. apply newton_positive_spec. Qed.

(** X14 on an at-the-money call quoted at 10 (S = K = 100, T = 1): the
    price at the initial 20% is off by more than the tolerance, and the
    run goes through the update. *)
Lemma newton_vol_positive_witness :
  exists res,
    implied_volatility_newton 10 100 100 1 0.05 "call" None None None
    = Ok res /\
    0 < implied_vol res.
Proof.
  destruct (newton_total 10 100 100 1 0.05 "call" None None None)
    as [res E]; [left; lra | left; reflexivity |].
  exists res. split; [exact E |].
  apply (newton_vol_positive 10 100 100 1 0.05 "call" None None None res);
    try lra; [simpl; lra | exact E].
Defined.

Lemma bisection_loop_returned_spec (market_price S K T r : R)
  (option_type : string) (tolerance : R) :
  forall todo i l res,
    bisection_loop market_price S K T r option_type tolerance todo i l
    = Ok (Returned res) ->
    converged res = true /\
    (i + 1 <= iterations res <= i + Z.of_nat todo)%Z /\
    final_error res < tolerance /\
    exists p,
      black_scholes_price S K T r (implied_vol res) option_type = Ok p /\
      final_error res = Rabs (p - market_price).
Proof.
  induction todo as [| todo IH]; intros i l res E; simpl in E; [discriminate |].
  apply bind_Ok_inv in E. destruct E as [p [Hp E]].
  destruct (Rlt_dec (Rabs (p - market_price)) tolerance) as [Hlt | _].
  { injection E as <-. simpl. repeat split; try lia; try assumption.
    exists p. split; [exact Hp | reflexivity]. }
  destruct (Rlt_dec 0 (p - market_price)); apply IH in E;
    destruct E as [Hc [Hi [He Hex]]]; repeat split; try assumption; lia.
Qed.

Lemma bisection_converged_spec (market_price S K T r : R) (option_type : string)
  (vol_low vol_high tolerance : option R) (max_iterations : option Z)
  (res : SolverResult) :
  implied_volatility_bisection market_price S K T r option_type
    vol_low vol_high tolerance max_iterations = Ok res ->
  converged res = true ->
  final_error res < kwarg 1e-6 tolerance /\
  exists p,
    black_scholes_price S K T r (implied_vol res) option_type = Ok p /\
    final_error res = Rabs (p - market_price).
Proof.
  intros E Hc. unfold implied_volatility_bisection in E.
  apply bind_Ok_inv in E. destruct E as [[res' | l] [Eloop E]].
  - injection E as ->. apply bisection_loop_returned_spec in Eloop.
    destruct Eloop as [_ [_ [He Hex]]]. split; assumption.
  - destruct (ImpliedVolatility.vol_mid l) as [m |]; [| discriminate].
    apply bind_Ok_inv in E. destruct E as [p [_ E]]. injection E as <-.
    discriminate.
Qed.

(** X15. What a bisection result says.  Converged: the price at the returned
    volatility is within the tolerance of the market price and iterations
    is between 1 and max_iterations.  Not converged: iterations is
    max_iterations and final_error is the distance recomputed at the
    returned volatility. *)
Theorem bisection_report (market_price S K T r : R) (option_type : string)
  (vol_low vol_high tolerance : option R) (max_iterations : option Z)
  (res : SolverResult) :
  implied_volatility_bisection market_price S K T r option_type
    vol_low vol_high tolerance max_iterations = Ok res ->
  (exists p,
     black_scholes_price S K T r (implied_vol res) option_type = Ok p /\
     final_error res = Rabs (p - market_price)) /\
  (converged res = true ->
   (1 <= iterations res <= kwarg 100 max_iterations)%Z /\
   final_error res < kwarg 1e-6 tolerance) /\
  (converged res = false -> iterations res = kwarg 100%Z max_iterations).
Proof.
  intros E. unfold implied_volatility_bisection in E.
  apply bind_Ok_inv in E. destruct E as [[res' | l] [Eloop E]].
  - injection E as ->. apply bisection_loop_returned_spec in Eloop.
    destruct Eloop as [Hc [Hi [He Hex]]].
    split; [exact Hex |]. split; [intros _; split; [lia | exact He] | congruence].
  - destruct (ImpliedVolatility.vol_mid l) as [m |]; [| discriminate].
    apply bind_Ok_inv in E. destruct E as [p [Hp E]]. injection E as <-. simpl.
    split; [exists p; split; [exact Hp | reflexivity] |].
    split; [discriminate | reflexivity].
Qed.

(** X15 on a call quoted at 10. *)
Lemma bisection_report_witness :
  exists res,
    implied_volatility_bisection 10 100 100 1 0.05 "call" None None None None
    = Ok res /\
    exists p,
      black_scholes_price 100 100 1 0.05 (implied_vol res) "call" = Ok p /\
      final_error res = Rabs (p - 10).
Proof.
  destruct (bisection_total 10 100 100 1 0.05 "call" None None None None)
    as [res E]; [left; lra | left; reflexivity | simpl; lia |].
  exists res. split; [exact E |].
  exact (proj1 (bisection_report 10 100 100 1 0.05 "call" None None None None res E)).
Defined.

(** ** The solvers on a price the model produced *)

Lemma half_mass_gt_half : 1 / 2 < half_mass.
Proof.
  destruct (MVT_cor2 G gauss 0 1 Rlt_0_1) as [c [E Hc]].
  { intros c _. apply G_deriv. }
  rewrite G_0 in E.
  assert (Hg : exp (- (1 / 2)) < gauss c).
  { unfold gauss. apply exp_increasing. nra. }
  assert (He : exp (1 / 2) < 2).
  { assert (Hsq : exp (1 / 2) * exp (1 / 2) = exp 1)
      by (rewrite <- exp_plus; f_equal; lra).
    pose proof exp_le_3. pose proof (exp_pos (1 / 2)). nra. }
  assert (Hi : 1 / 2 < exp (- (1 / 2))).
  { rewrite exp_Ropp. pose proof (exp_pos (1 / 2)) as Hp.
    apply (Rmult_lt_reg_r (exp (1 / 2))); [exact Hp |].
    rewrite Rinv_l by lra. lra. }
  pose proof (G_le_half_mass 1). lra.
Qed.

Lemma norm_pdf_lt_1 x : norm_pdf x < 1.
Proof.
  pose proof half_mass_gt_half as Hh. pose proof norm_const_pos as Hc.
  assert (Hg : gauss x <= 1).
  { unfold gauss. rewrite <- exp_0.
    destruct (Req_dec x 0) as [-> | Hne].
    - right. f_equal. lra.
    - left. apply exp_increasing. nra. }
  unfold norm_pdf. apply (Rmult_lt_reg_r norm_const); [exact Hc |].
  unfold Rdiv. rewrite Rmult_assoc, Rinv_l by lra. unfold norm_const. lra.
Qed.

Section ModelPrice.

Variables (S K T r : R) (option_type : string).
Hypotheses (HS : 0 < S) (HK : 0 < K) (HT : 0 < T) (Hkind : valid_kind option_type).

Lemma price_is_value (sigma : R) :
  black_scholes_price S K T r sigma option_type = Ok ((price_at S K T r option_type) sigma).
Proof.
  destruct (price_ok S K T r sigma option_type) as [p Hp];
    [left; lra | exact Hkind |].
  unfold price_at. rewrite Hp. reflexivity.
Qed.

Lemma price_monotone (a b : R) : 0 < a -> a <= b -> (price_at S K T r option_type) a <= (price_at S K T r option_type) b.
Proof.
  intros Ha [Hlt | ->]; [| lra]. left. now apply price_increasing_in_vol.
Qed.

Lemma price_lipschitz (a b : R) :
  0 < a -> 0 < b -> Rabs ((price_at S K T r option_type) a - (price_at S K T r option_type) b) <= S * sqrt T * Rabs (a - b).
Proof.
  assert (Hq : 0 < sqrt T) by now apply sqrt_lt_R0.
  assert (Hmain : forall u v, 0 < u -> u < v ->
            0 < (price_at S K T r option_type) v - (price_at S K T r option_type) u <= S * sqrt T * (v - u)).
  { intros u v Hu Huv.
    destruct (MVT_cor2 (price_at S K T r option_type)
                (fun s => S * sqrt T * norm_pdf (d1_value S K T r s)) u v Huv)
      as [c [E Hc]].
    { intros c Hc. apply price_vol_derivative; try assumption. lra. }
    pose proof (norm_pdf_pos (d1_value S K T r c)).
    pose proof (norm_pdf_lt_1 (d1_value S K T r c)).
    assert (0 < S * sqrt T) by now apply Rmult_lt_0_compat.
    rewrite E. split.
    - apply Rmult_lt_0_compat; [apply Rmult_lt_0_compat |]; lra.
    - apply Rmult_le_compat_r; [lra |].
      rewrite <- (Rmult_1_r (S * sqrt T)) at 2.
      apply Rmult_le_compat_l; lra. }
  intros Ha Hb. destruct (Rtotal_order a b) as [L | [-> | G]].
  - destruct (Hmain a b Ha L). rewrite (Rabs_left ((price_at S K T r option_type) a - (price_at S K T r option_type) b)) by lra.
    rewrite (Rabs_left (a - b)) by lra. lra.
  - replace ((price_at S K T r option_type) b - (price_at S K T r option_type) b) with 0 by ring. replace (b - b) with 0 by ring.
    rewrite Rabs_R0. lra.
  - destruct (Hmain b a Hb G). rewrite (Rabs_pos_eq ((price_at S K T r option_type) a - (price_at S K T r option_type) b)) by lra.
    rewrite (Rabs_pos_eq (a - b)) by lra. lra.
Qed.

Variables (true_vol tolerance W : R).

Lemma halve (k : nat) : W / 2 ^ k / 2 = W / 2 ^ Datatypes.S k.
Proof. simpl. field. apply pow_nonzero. lra. Qed.

Lemma bisection_loop_step (todo : nat) (i : Z) (l : bisection_locals) :
  bisection_loop ((price_at S K T r option_type) true_vol) S K T r option_type tolerance
    (Datatypes.S todo) i l
  = if Rlt_dec (Rabs ((price_at S K T r option_type) (midpoint l) - (price_at S K T r option_type) true_vol)) tolerance
    then Ok (Returned (mkSolverResult (midpoint l) true (i + 1)
                         (Rabs ((price_at S K T r option_type) (midpoint l) - (price_at S K T r option_type) true_vol))))
    else bisection_loop ((price_at S K T r option_type) true_vol) S K T r option_type tolerance
           todo (i + 1)%Z ((bisection_next S K T r option_type true_vol) l).
Proof.
  simpl. fold (midpoint l). rewrite price_is_value. cbn [bind].
  unfold bisection_next.
  destruct (Rlt_dec (Rabs ((price_at S K T r option_type) (midpoint l) - (price_at S K T r option_type) true_vol)) tolerance);
    [reflexivity |].
  destruct (Rlt_dec 0 ((price_at S K T r option_type) (midpoint l) - (price_at S K T r option_type) true_vol)); reflexivity.
Qed.

Lemma midpoint_close (k : nat) (l : bisection_locals) :
  (bracket_inv true_vol W) k l ->
  0 < midpoint l /\ Rabs (midpoint l - true_vol) <= W / 2 ^ Datatypes.S k.
Proof.
  intros [Hlo [[Hl Hh] [Hw _]]]. rewrite <- halve. unfold midpoint. split; [lra |].
  apply Rabs_le. lra.
Qed.

(** The branch the code takes keeps the bracket: the (price_at S K T r option_type) is increasing
    in the volatility, so a (price_at S K T r option_type) above the market means a volatility
    above the true one. *)
Lemma brackets_next (k : nat) (l : bisection_locals) :
  (bracket_inv true_vol W) k l -> (bracket_inv true_vol W) (Datatypes.S k) ((bisection_next S K T r option_type true_vol) l).
Proof.
  intros Hb. destruct (midpoint_close k l Hb) as [Hmid _].
  destruct Hb as [Hlo [[Hl Hh] [Hw _]]].
  unfold bisection_next, bracket_inv.
  destruct (Rlt_dec 0 ((price_at S K T r option_type) (midpoint l) - (price_at S K T r option_type) true_vol)) as [Hd | Hd];
    cbn [ImpliedVolatility.vol_low ImpliedVolatility.vol_high
           ImpliedVolatility.vol_mid]; rewrite <- halve.
  - assert (true_vol < midpoint l).
    { apply Rnot_le_lt. intro Hle.
      pose proof (price_monotone (midpoint l) true_vol Hmid Hle). lra. }
    split; [exact Hlo |]. split; [lra |]. split; [unfold midpoint; lra |].
    intros m [= <-]. apply Rabs_le. unfold midpoint in *. lra.
  - assert (midpoint l <= true_vol).
    { apply Rnot_lt_le. intro Hlt.
      assert (Htv : 0 < true_vol) by lra.
      pose proof (price_increasing_in_vol S K T r true_vol (midpoint l)
                    option_type HS HK HT Hkind Htv Hlt) as Hinc.
      unfold price_at in *. lra. }
    split; [exact Hmid |]. split; [lra |]. split; [unfold midpoint; lra |].
    intros m [= <-]. apply Rabs_le. unfold midpoint in *. lra.
Qed.

Lemma bisection_loop_brackets :
  forall todo k l out,
    (bracket_inv true_vol W) k l ->
    bisection_loop ((price_at S K T r option_type) true_vol) S K T r option_type tolerance todo
      (Z.of_nat k) l = Ok out ->
    match out with
    | Returned res =>
        Rabs (implied_vol res - true_vol) <= W / 2 ^ Z.to_nat (iterations res)
    | Fell l' => (bracket_inv true_vol W) (k + todo) l'
    end.
Proof.
  induction todo as [| todo IH]; intros k l out Hb E.
  - simpl in E. injection E as <-. now rewrite Nat.add_0_r.
  - rewrite bisection_loop_step in E.
    destruct (Rlt_dec _ tolerance).
    + injection E as <-. simpl.
      replace (Z.to_nat (Z.of_nat k + 1)) with (Datatypes.S k) by lia.
      apply (midpoint_close k l Hb).
    + replace (Z.of_nat k + 1)%Z with (Z.of_nat (Datatypes.S k)) in E by lia.
      replace (k + Datatypes.S todo)%nat with (Datatypes.S k + todo)%nat by lia.
      apply IH in E; [exact E | now apply brackets_next].
Qed.

(** With enough iterations for the interval to shrink below the
    tolerance, measured in (price_at S K T r option_type), the loop returns from inside. *)
Lemma bisection_loop_converges :
  forall todo k l,
    (bracket_inv true_vol W) k l ->
    S * sqrt T * (W / 2 ^ (k + Datatypes.S todo)) < tolerance ->
    exists res,
      bisection_loop ((price_at S K T r option_type) true_vol) S K T r option_type tolerance
        (Datatypes.S todo) (Z.of_nat k) l = Ok (Returned res).
Proof.
  induction todo as [| todo IH]; intros k l Hb Hsmall;
    rewrite bisection_loop_step;
    destruct (Rlt_dec _ tolerance) as [| Hn]; try (eexists; reflexivity).
  - exfalso. apply Hn.
    destruct (midpoint_close k l Hb) as [Hmid Hclose].
    assert (Htv : 0 < true_vol) by (destruct Hb as [? [[? ?] _]]; lra).
    pose proof (price_lipschitz (midpoint l) true_vol Hmid Htv) as HL.
    assert (0 < S * sqrt T)
      by (apply Rmult_lt_0_compat; [exact HS | now apply sqrt_lt_R0]).
    replace (k + 1)%nat with (Datatypes.S k) in Hsmall by lia.
    eapply Rle_lt_trans; [exact HL |]. eapply Rle_lt_trans; [| exact Hsmall].
    apply Rmult_le_compat_l; lra.
  - replace (Z.of_nat k + 1)%Z with (Z.of_nat (Datatypes.S k)) by lia.
    apply IH; [now apply brackets_next |].
    replace (Datatypes.S k + Datatypes.S todo)%nat
      with (k + Datatypes.S (Datatypes.S todo))%nat by lia.
    exact Hsmall.
Qed.

End ModelPrice.

(** The price as a total function of the volatility. *)
Lemma price_at_ok (S K T r sigma : R) (option_type : string) :
  K <> 0 \/ T <= 0 -> valid_kind option_type ->
  black_scholes_price S K T r sigma option_type
  = Ok (price_at S K T r option_type sigma).
Proof.
  intros HK Hkind.
  destruct (price_ok S K T r sigma option_type HK Hkind) as [p Hp].
  unfold price_at. rewrite Hp. reflexivity.
Qed.

Lemma pow_2_100 : 1e30 <= 2 ^ 100.
Proof.
  replace (2 ^ 100) with ((2 ^ 10) ^ 10) by (rewrite <- pow_mult; reflexivity).
  replace (2 ^ 10) with 1024 by (simpl; lra).
  apply Rle_trans with (1000 ^ 10); [right; simpl; lra |].
  apply pow_incr. lra.
Qed.

(** X16. Bisection homes in on the volatility behind a model price.  When the
    market price is the model's price at some volatility inside the search
    interval (lower bound > 0, T > 0), the volatility reported after n
    iterations, converged or not, is within (vol_high - vol_low) / 2^n of
    it. *)
Theorem bisection_accuracy (S K T r true_vol market_price : R)
  (option_type : string) (vol_low vol_high tolerance : option R)
  (max_iterations : option Z) (res : SolverResult) :
  0 < S -> 0 < K -> 0 < T -> valid_kind option_type ->
  0 < kwarg 0.001 vol_low ->
  kwarg 0.001 vol_low <= true_vol <= kwarg 3.0 vol_high ->
  black_scholes_price S K T r true_vol option_type = Ok market_price ->
  implied_volatility_bisection market_price S K T r option_type
    vol_low vol_high tolerance max_iterations = Ok res ->
  Rabs (implied_vol res - true_vol)
  <= (kwarg 3.0 vol_high - kwarg 0.001 vol_low) / 2 ^ Z.to_nat (iterations res).
Proof.
  intros HS HK HT Hv Hlo Htv Hm E.
  assert (Em : market_price = price_at S K T r option_type true_vol)
    by (unfold price_at; rewrite Hm; reflexivity).
  subst market_price. unfold implied_volatility_bisection in E.
  apply bind_Ok_inv in E. destruct E as [out [Eloop E]].
  change 0%Z with (Z.of_nat 0) in Eloop.
  apply (bisection_loop_brackets S K T r option_type HS HK HT Hv true_vol
           (kwarg 1e-6 tolerance) (kwarg 3.0 vol_high - kwarg 0.001 vol_low))
    in Eloop.
  - destruct out as [res' | l].
    + injection E as <-. exact Eloop.
    + destruct Eloop as [_ [_ [_ Hmid]]].
      destruct (ImpliedVolatility.vol_mid l) as [m |]; [| discriminate].
      apply bind_Ok_inv in E. destruct E as [p [_ E]]. injection E as <-.
      simpl. simpl in Hmid. apply Hmid. reflexivity.
  - unfold bracket_inv. simpl. repeat split; try lra. discriminate.
Qed.

(** X16 on the price of an at-the-money call at 20% volatility. *)
Lemma bisection_accuracy_witness :
  exists res,
    implied_volatility_bisection (price_at 100 100 1 0.05 "call" 0.2)
      100 100 1 0.05 "call" None None None None = Ok res /\
    Rabs (implied_vol res - 0.2)
    <= (3.0 - 0.001) / 2 ^ Z.to_nat (iterations res).
Proof.
  assert (Hv : valid_kind "call") by (left; reflexivity).
  assert (HK : 100 <> 0 \/ 1 <= 0) by (left; lra).
  destruct (bisection_total (price_at 100 100 1 0.05 "call" 0.2)
              100 100 1 0.05 "call" None None None None HK Hv)
    as [res E]; [simpl; lia |].
  exists res. split; [exact E |].
  apply (bisection_accuracy 100 100 1 0.05 0.2
           (price_at 100 100 1 0.05 "call" 0.2) "call" None None None None res);
    try (simpl; lra); try assumption.
  now apply price_at_ok.
Defined.

(** Where a volatility returned by [calculate_implied_vol] comes from. *)
Lemma calculate_implied_vol_source (market_price S K T r sigma : R)
  (option_type : string) :
  calculate_implied_vol market_price S K T r option_type = Ok (Vol sigma) ->
  (exists res,
     implied_volatility_newton market_price S K T r option_type None None None
     = Ok res /\ converged res = true /\ implied_vol res = sigma) \/
  (exists res,
     implied_volatility_bisection market_price S K T r option_type
       None None None None = Ok res /\
     converged res = true /\ implied_vol res = sigma).
Proof.
  unfold calculate_implied_vol, calculate_implied_vol_traced.
  destruct (implied_volatility_newton market_price S K T r option_type
              None None None) as [rn | e]; [| discriminate].
  destruct (converged rn) eqn:Cn.
  { simpl. intros [= <-]. left. exists rn. auto. }
  destruct (implied_volatility_bisection market_price S K T r option_type
              None None None None) as [rb | e]; [| discriminate].
  destruct (converged rb) eqn:Cb; simpl; [| discriminate].
  intros [= <-]. right. exists rb. auto.
Qed.

(** X17. A volatility returned by [calculate_implied_vol] (anything but NaN)
    is strictly positive and reprices the option within 1e-6 of the market
    price. *)
Theorem implied_vol_reprices (market_price S K T r sigma : R)
  (option_type : string) :
  calculate_implied_vol market_price S K T r option_type = Ok (Vol sigma) ->
  0 < sigma /\
  exists p,
    black_scholes_price S K T r sigma option_type = Ok p /\
    Rabs (p - market_price) < 1e-6.
Proof.
  intros E. apply calculate_implied_vol_source in E.
  assert (H0 : 0 < kwarg 0.2 (@None R)) by (simpl; lra).
  destruct E as [[res [E [Hc <-]]] | [res [E [Hc <-]]]].
  - split; [apply (newton_positive_spec _ _ _ _ _ _ _ _ _ _ H0 E) |].
    destruct (newton_converged_spec _ _ _ _ _ _ _ _ _ _ E Hc)
      as [_ [He [p [Hp Hf]]]].
    exists p. split; [exact Hp |]. rewrite <- Hf. exact He.
  - split.
    + assert (Hin : bisection_end_ok 0.001 3.0 (Returned res)).
      { unfold implied_volatility_bisection in E.
        apply bind_Ok_inv in E. destruct E as [out [Eloop E]].
        apply (bisection_loop_bounds _ _ _ _ _ _ _ 0.001 3.0) in Eloop;
          [| simpl; repeat split; try lra; discriminate].
        destruct out as [res' | l]; simpl in E.
        - injection E as <-. exact Eloop.
        - destruct Eloop as [_ [_ [_ Hm]]].
          destruct (ImpliedVolatility.vol_mid l) as [m |]; [| discriminate].
          apply bind_Ok_inv in E. destruct E as [p [_ E]]. injection E as <-.
          simpl. now apply Hm. }
      simpl in Hin. lra.
    + destruct (bisection_converged_spec _ _ _ _ _ _ _ _ _ _ _ E Hc)
        as [He [p [Hp Hf]]].
      exists p. split; [exact Hp |]. rewrite <- Hf. exact He.
Qed.

Lemma round_trip_spec (S K T r true_vol market_price : R)
  (option_type : string) :
  0 < S -> 0 < K -> 0 < T -> valid_kind option_type ->
  S * sqrt T <= 1e20 ->
  0.001 <= true_vol <= 3.0 ->
  black_scholes_price S K T r true_vol option_type = Ok market_price ->
  exists sigma p,
    calculate_implied_vol market_price S K T r option_type = Ok (Vol sigma) /\
    0 < sigma /\
    black_scholes_price S K T r sigma option_type = Ok p /\
    Rabs (p - market_price) < 1e-6.
Proof.
  intros HS HK HT Hv Hbig Htv Hm.
  assert (HK' : K <> 0 \/ T <= 0) by (left; lra).
  assert (Hret : exists sigma,
             calculate_implied_vol market_price S K T r option_type
             = Ok (Vol sigma)).
  { unfold calculate_implied_vol, calculate_implied_vol_traced.
    destruct (newton_total market_price S K T r option_type None None None HK' Hv)
      as [rn En]. rewrite En.
    destruct (converged rn); [eexists; reflexivity |].
    assert (Em : market_price = price_at S K T r option_type true_vol)
      by (unfold price_at; rewrite Hm; reflexivity).
    unfold implied_volatility_bisection. cbv zeta.
    change (Z.to_nat (kwarg 100%Z None)) with (Datatypes.S 99).
    change 0%Z with (Z.of_nat 0). rewrite Em.
    destruct (bisection_loop_converges S K T r option_type HS HK HT Hv true_vol
                (kwarg 1e-6 None) (3.0 - 0.001) 99 0
                (mkBisection (kwarg 0.001 None) (kwarg 3.0 None) None))
      as [res Eres].
    - unfold bracket_inv. simpl. repeat split; try lra. discriminate.
    - change (0 + Datatypes.S 99)%nat with 100%nat. simpl kwarg.
      pose proof pow_2_100 as Hp. pose proof (sqrt_lt_R0 T HT) as Hq.
      assert (Hpos : 0 < S * sqrt T) by now apply Rmult_lt_0_compat.
      assert (Hinv : / 2 ^ 100 <= / 1e30).
      { apply Rinv_le_contravar; lra. }
      assert (Hi0 : 0 < / 2 ^ 100).
      { apply Rinv_0_lt_compat. lra. }
      unfold Rdiv.
      apply Rle_lt_trans with (1e20 * ((3.0 - 0.001) * / 1e30)); [| lra].
      apply Rmult_le_compat;
        [lra | apply Rmult_le_pos; lra | lra | apply Rmult_le_compat_l; lra].
    - rewrite Eres. cbn [bind].
      apply bisection_loop_returned_spec in Eres. destruct Eres as [-> _].
      eexists. reflexivity. }
  assert (H0 : 0 < kwarg 0.2 (@None R)) by (simpl; lra).
  destruct Hret as [sigma E]. exists sigma.
  pose proof E as E'. apply calculate_implied_vol_source in E'.
  destruct E' as [[res [En [Hc <-]]] | [res [Eb [Hc <-]]]].
  - destruct (newton_converged_spec _ _ _ _ _ _ _ _ _ _ En Hc)
      as [_ [He [p [Hp Hf]]]].
    exists p. split; [exact E |].
    split; [apply (newton_positive_spec _ _ _ _ _ _ _ _ _ _ H0 En) |].
    split; [exact Hp |]. rewrite <- Hf. exact He.
  - destruct (bisection_converged_spec _ _ _ _ _ _ _ _ _ _ _ Eb Hc)
      as [He [p [Hp Hf]]].
    exists p. split; [exact E |]. split.
    + unfold implied_volatility_bisection in Eb.
      apply bind_Ok_inv in Eb. destruct Eb as [out [Eloop Eb]].
      apply (bisection_loop_bounds _ _ _ _ _ _ _ 0.001 3.0) in Eloop;
        [| simpl; repeat split; try lra; discriminate].
      destruct out as [res' | l]; simpl in Eb.
      * injection Eb as <-. simpl in Eloop. lra.
      * destruct Eloop as [_ [_ [_ Hmid]]].
        destruct (ImpliedVolatility.vol_mid l) as [m |]; [| discriminate].
        apply bind_Ok_inv in Eb. destruct Eb as [q [_ Eb]]. injection Eb as <-.
        simpl. specialize (Hmid m eq_refl). lra.
    + split; [exact Hp |]. rewrite <- Hf. exact He.
Qed.

(** X17 on the price of an at-the-money call at 25% volatility, the
    repository's own round-trip test. *)
Lemma implied_vol_reprices_witness :
  exists sigma,
    calculate_implied_vol (price_at 100 100 1 0.05 "call" 0.25)
      100 100 1 0.05 "call" = Ok (Vol sigma) /\
    0 < sigma.
Proof.
  assert (Hv : valid_kind "call") by (left; reflexivity).
  destruct (round_trip_spec 100 100 1 0.05 0.25
              (price_at 100 100 1 0.05 "call" 0.25) "call")
    as [sigma [p [E _]]]; try lra; try assumption.
  { rewrite sqrt_1. lra. }
  { apply price_at_ok; [left; lra | exact Hv]. }
  exists sigma. split; [exact E |].
  exact (proj1 (implied_vol_reprices _ 100 100 1 0.05 sigma "call" E)).
Defined.

(** X18. Round trip.  Price an option with the model at a volatility between
    0.001 and 3 (S, K, T > 0, S * sqrt T <= 1e20) and hand that price to
    [calculate_implied_vol]: it does not return NaN; it returns a
    positive volatility whose price is within 1e-6 of the one given. *)
Theorem implied_vol_round_trip (S K T r true_vol market_price : R)
  (option_type : string) :
  0 < S -> 0 < K -> 0 < T -> valid_kind option_type ->
  S * sqrt T <= 1e20 ->
  0.001 <= true_vol <= 3.0 ->
  black_scholes_price S K T r true_vol option_type = Ok market_price ->
  exists sigma p,
    calculate_implied_vol market_price S K T r option_type = Ok (Vol sigma) /\
    0 < sigma /\
    black_scholes_price S K T r sigma option_type = Ok p /\
    Rabs (p - market_price) < 1e-6.
Proof. apply round_trip_spec. Qed.

(** X18 at 25% volatility. *)
Lemma implied_vol_round_trip_witness :
  exists sigma p,
    calculate_implied_vol (price_at 100 100 1 0.05 "call" 0.25)
      100 100 1 0.05 "call" = Ok (Vol sigma) /\
    0 < sigma /\
    black_scholes_price 100 100 1 0.05 sigma "call" = Ok p /\
    Rabs (p - price_at 100 100 1 0.05 "call" 0.25) < 1e-6.
Proof.
  assert (Hv : valid_kind "call") by (left; reflexivity).
  apply (implied_vol_round_trip 100 100 1 0.05 0.25); try lra; try assumption.
  - rewrite sqrt_1. lra.
  - apply price_at_ok; [left; lra | exact Hv].
Defined.

(** ** The hedging simulator, row by row *)

Lemma hedge_step_rows (K T r sigma dt : R) (option_type : string)
  (times stock_path : array) (premium delta_0 S0 : R)
  (n_steps i : nat) (a : HedgeArrays) :
  K <> 0 -> option_type = "call"%string \/ option_type = "put"%string ->
  List.length times = (n_steps + 1)%nat ->
  List.length stock_path = (n_steps + 1)%nat ->
  (1 <= i <= n_steps)%nat ->
  hedge_inv r dt n_steps stock_path i a ->
  rows_inv K T r sigma option_type times stock_path premium delta_0 S0 i a ->
  exists a',
    hedge_step K T r sigma dt option_type times stock_path i a = Ok a' /\
    hedge_inv r dt n_steps stock_path (Datatypes.S i) a' /\
    rows_inv K T r sigma option_type times stock_path premium delta_0 S0
      (Datatypes.S i) a'.
Proof.
  intros HK Hkind Htimes Hpath Hi Hinv [R0 [R1 [R2 [Rsh Rval]]]].
  destruct (hedge_step_inv K T r sigma dt option_type times stock_path
              n_steps i a HK Hkind Htimes Hpath Hi Hinv) as [a' [E Hinv']].
  exists a'. split; [exact E |]. split; [exact Hinv' |].
  destruct Hinv as [[Ld [Ls [Lo [Lc Lp]]]] _].
  assert (Hv : valid_kind option_type).
  { destruct Hkind as [-> | ->]; [left | right]; reflexivity. }
  unfold hedge_step in E.
  rewrite (getitem_ok stock_path i) in E by lia. cbn [bind] in E.
  rewrite (getitem_ok times i) in E by lia. cbn [bind] in E. cbv zeta in E.
  assert (Hval :
    (if Rlt_dec 0.0001 (T - nth i times 0) then
       v <- black_scholes_price (nth i stock_path 0) K (T - nth i times 0) r
              sigma option_type ;;
       option_values <- setitem (a_option_values a) i v ;;
       d <- delta (nth i stock_path 0) K (T - nth i times 0) r sigma option_type ;;
       deltas <- setitem (a_deltas a) i d ;;
       Ok (option_values, deltas)
     else if (option_type =? "call")%string then
       option_values <- setitem (a_option_values a) i
                          (Rmax (nth i stock_path 0 - K) 0) ;;
       deltas <- setitem (a_deltas a) i
                   (if Rlt_dec K (nth i stock_path 0) then 1 else 0) ;;
       Ok (option_values, deltas)
     else
       option_values <- setitem (a_option_values a) i
                          (Rmax (K - nth i stock_path 0) 0) ;;
       deltas <- setitem (a_deltas a) i
                   (if Rlt_dec (nth i stock_path 0) K then -1 else 0) ;;
       Ok (option_values, deltas))
    = Ok (upd (a_option_values a) i
            (fst (row_valuation K r sigma option_type (nth i stock_path 0)
                    (T - nth i times 0))),
          upd (a_deltas a) i
            (snd (row_valuation K r sigma option_type (nth i stock_path 0)
                    (T - nth i times 0))))).
  { unfold row_valuation. destruct (Rlt_dec 0.0001 (T - nth i times 0)).
    - destruct (price_ok (nth i stock_path 0) K (T - nth i times 0) r sigma
                  option_type (or_introl HK) Hv) as [p Hp].
      rewrite Hp. cbn [bind value_of fst snd].
      rewrite (setitem_ok _ i p) by lia. cbn [bind].
      rewrite (delta_ok _ _ _ _ _ _ (or_introl HK)). cbn [bind value_of].
      rewrite (setitem_ok (a_deltas a) i) by lia. reflexivity.
    - destruct (option_type =? "call")%string; cbn [fst snd];
        rewrite (setitem_ok (a_option_values a) i) by lia; cbn [bind];
        rewrite (setitem_ok (a_deltas a) i) by lia; reflexivity. }
  rewrite Hval in E. clear Hval. cbn [bind fst snd] in E.
  set (vd := row_valuation K r sigma option_type (nth i stock_path 0)
               (T - nth i times 0)) in *.
  rewrite (getitem_ok (upd (a_deltas a) i (snd vd)) i) in E
    by (rewrite upd_length; lia).
  cbn [bind] in E.
  rewrite (getitem_ok (a_shares a) (i - 1)) in E by lia. cbn [bind] in E.
  rewrite (setitem_ok (a_shares a) i) in E by lia. cbn [bind] in E.
  rewrite (getitem_ok (a_cash a) (i - 1)) in E by lia. cbn [bind] in E.
  rewrite (setitem_ok (a_cash a) i) in E by lia. cbn [bind] in E.
  rewrite (getitem_ok (upd (a_cash a) i _) i) in E by (rewrite upd_length; lia).
  cbn [bind] in E.
  rewrite (getitem_ok (upd (a_shares a) i _) i) in E by (rewrite upd_length; lia).
  cbn [bind] in E.
  rewrite (getitem_ok (upd (a_option_values a) i (fst vd)) i) in E
    by (rewrite upd_length; lia).
  cbn [bind] in E.
  rewrite (setitem_ok (a_portfolio_values a) i) in E by lia. cbn [bind] in E.
  injection E as <-. unfold rows_inv.
  cbn [a_deltas a_shares a_option_values a_cash a_portfolio_values].
  rewrite !nth_upd_other by lia.
  split; [exact R0 |]. split; [exact R1 |]. split; [exact R2 |]. split.
  - intros j Hj. destruct (Nat.eq_dec j i) as [-> | Hne].
    + rewrite !nth_upd_same by lia. reflexivity.
    + rewrite !nth_upd_other by lia. apply Rsh. lia.
  - intros j Hj. destruct (Nat.eq_dec j i) as [-> | Hne].
    + rewrite !nth_upd_same by lia. symmetry. apply surjective_pairing.
    + rewrite !nth_upd_other by lia. apply Rval. lia.
Qed.

Lemma kind_of_position_cases (position : string) :
  kind_of_position position = "call"%string \/
  kind_of_position position = "put"%string.
Proof. unfold kind_of_position. destruct (str_in "call" (lower position)); auto. Qed.

Lemma kind_of_position_valid (position : string) :
  valid_kind (kind_of_position position).
Proof.
  destruct (kind_of_position_cases position) as [-> | ->]; [left | right]; reflexivity.
Qed.

(** A whole run, with what every row and the summary hold. *)
Lemma simulate_delta_hedging_rows (S0 K T r sigma : R) (n_steps : nat)
  (position : string) (standard_normal : nat -> R) :
  0 < S0 -> K <> 0 -> (1 <= n_steps)%nat ->
  let kind := kind_of_position position in
  let premium := value_of (black_scholes_price S0 K T r sigma kind) in
  let delta_0 := value_of (delta S0 K T r sigma kind) in
  exists path a,
    simulate_stock_path S0 r sigma T n_steps standard_normal = Ok path /\
    path_inv S0 r sigma (T / INR n_steps) standard_normal n_steps
      (n_steps + 1) path /\
    hedge_inv r (T / INR n_steps) n_steps path (n_steps + 1) a /\
    rows_inv K T r sigma kind (np_linspace 0 T (n_steps + 1)) path
      premium delta_0 S0 (n_steps + 1) a /\
    nth 0 (a_portfolio_values a) 0 = 0 /\
    simulate_delta_hedging S0 K T r sigma n_steps position standard_normal
    = Ok (mkDataFrame (np_linspace 0 T (n_steps + 1)) path (a_deltas a)
            (a_shares a) (a_option_values a) (a_cash a) (a_portfolio_values a),
          let final_S := nth n_steps path 0 in
          let payoff :=
            if (kind =? "call")%string
            then Rmax (final_S - K) 0 else Rmax (K - final_S) 0 in
          let portfolio_final := nth n_steps (a_portfolio_values a) 0 in
          mkSummary premium final_S payoff (premium - payoff)
            portfolio_final portfolio_final
            (if Rlt_dec 0 premium
             then Rabs portfolio_final / premium * 100 else 0)).
Proof.
  intros HS0 HK Hn kind premium delta_0. unfold simulate_delta_hedging.
  rewrite (py_div_ok _ _ (INR_steps_nonzero _ Hn)). cbn [bind].
  destruct (simulate_stock_path_spec S0 r sigma T n_steps standard_normal HS0 Hn)
    as [path [Epath Hpinv]].
  pose proof Hpinv as [Hlen [Hfirst _]].
  rewrite Epath. cbn [bind]. cbv zeta. fold (kind_of_position position). fold kind.
  pose proof (kind_of_position_cases position) as Hkind. fold kind in Hkind.
  pose proof (kind_of_position_valid position) as Hv. fold kind in Hv.
  destruct (price_ok S0 K T r sigma kind (or_introl HK) Hv) as [p Hp].
  assert (Eprem : premium = p) by (unfold premium; rewrite Hp; reflexivity).
  rewrite Hp. cbn [bind].
  pose proof (delta_ok S0 K T r sigma kind (or_introl HK)) as Hd.
  assert (Edel : delta_0 =
                 (if (lower kind =? "call")%string
                  then norm_cdf (d1_value S0 K T r sigma)
                  else norm_cdf (d1_value S0 K T r sigma) - 1))
    by (unfold delta_0; rewrite Hd; reflexivity).
  rewrite Hd. cbn [bind]. rewrite <- Edel, <- Eprem. clear Hd Hp.
  assert (Hz : (0 < List.length (np_zeros (n_steps + 1)))%nat)
    by (rewrite np_zeros_length; lia).
  assert (Hu : forall x, (0 < List.length (upd (np_zeros (n_steps + 1)) 0 x))%nat)
    by (intro; rewrite upd_length; exact Hz).
  repeat (first [ rewrite (setitem_ok (np_zeros (n_steps + 1)) 0 _ Hz)
                 | rewrite (getitem_ok _ 0 (Hu _)) ]; cbn [bind]).
  rewrite !nth_upd_same by exact Hz.
  set (dt := T / INR n_steps).
  set (times := np_linspace 0 T (n_steps + 1)).
  match goal with
  | |- context [for_range 1 n_steps ?body ?init] =>
      destruct (for_range_invariant
                  (fun i a => hedge_inv r dt n_steps path i a /\
                              rows_inv K T r sigma kind times path
                                premium delta_0 S0 i a /\
                              nth 0 (a_portfolio_values a) 0 = 0)
                  body n_steps 1 init)
        as [a [Eloop [Hinv [Hrows Hpv0]]]]
  end.
  - split; [| split].
    + unfold hedge_inv.
      cbn [a_deltas a_shares a_option_values a_cash a_portfolio_values].
      rewrite !upd_length, np_zeros_length.
      split; [repeat split; reflexivity |]. split.
      * intros j Hj. replace j with 0%nat by lia.
        rewrite !nth_upd_same by exact Hz. rewrite Hfirst. reflexivity.
      * intros j Hj. lia.
    + unfold rows_inv.
      cbn [a_deltas a_shares a_option_values a_cash a_portfolio_values].
      rewrite !nth_upd_same by exact Hz.
      split; [reflexivity |]. split; [reflexivity |]. split; [reflexivity |].
      split.
      * intros j Hj. replace j with 0%nat by lia.
        rewrite !nth_upd_same by exact Hz. reflexivity.
      * intros j Hj. lia.
    + cbn [a_portfolio_values]. rewrite nth_upd_same by exact Hz. ring.
  - intros i a0 Hi [Ha0 [Hr0 Hp0]].
    destruct (hedge_step_rows K T r sigma dt kind times path premium delta_0 S0
                n_steps i a0 HK Hkind) as [a1 [E1 [Hi1 Hr1]]];
      try assumption; try lia.
    { apply np_linspace_length. }
    exists a1. split; [exact E1 |]. split; [exact Hi1 |]. split; [exact Hr1 |].
    pose proof E1 as E1'.
    destruct Ha0 as [[_ [_ [_ [_ Lp]]]] _].
    unfold hedge_step in E1'.
    repeat (apply bind_Ok_inv in E1'; destruct E1' as [? [? E1']]).
    injection E1' as <-. cbn [a_portfolio_values].
    match goal with
    | H : setitem (a_portfolio_values a0) i _ = Ok ?pv |- nth 0 ?pv 0 = 0 =>
        rewrite setitem_ok in H by lia; injection H as <-
    end.
    rewrite nth_upd_other by lia. exact Hp0.
  - rewrite Eloop. cbn [bind].
    rewrite (getitem_last_ok path) by lia. cbn [bind].
    replace (1 + n_steps)%nat with (n_steps + 1)%nat in * by lia.
    pose proof Hinv as [[Ld [Ls [Lo [Lc Lp]]]] _].
    rewrite (getitem_last_ok (a_portfolio_values a)) by lia. cbn [bind].
    rewrite Hlen, Lp. replace (n_steps + 1 - 1)%nat with n_steps by lia.
    exists path, a. split; [reflexivity |]. repeat (split; [assumption |]). reflexivity.
Qed.

Lemma nth_map_seq (f : nat -> R) (n i : nat) :
  (i < n)%nat -> nth i (map f (seq 0 n)) 0 = f i.
Proof.
  intro Hi. rewrite (nth_indep _ 0 (f 0%nat)) by (rewrite length_map, length_seq; exact Hi).
  rewrite (map_nth f), seq_nth by exact Hi. reflexivity.
Qed.

Lemma np_linspace_nth (start stop : R) (num i : nat) :
  (i < num)%nat ->
  nth i (np_linspace start stop num) 0
  = start + INR i * ((stop - start) / INR (num - 1)).
Proof.
  intro Hi. unfold np_linspace.
  exact (nth_map_seq (fun k => start + INR k * ((stop - start) / INR (num - 1)))
           num i Hi).
Qed.

(** X19. The time grid.  Row i of a run is stamped i * T / n_steps: the
    first row 0, the last row T exactly. *)
Theorem hedge_time_grid (S0 K T r sigma : R) (n_steps : nat)
  (position : string) (standard_normal : nat -> R) :
  0 < S0 -> 0 < K -> (1 <= n_steps)%nat ->
  exists df summary,
    simulate_delta_hedging S0 K T r sigma n_steps position standard_normal
    = Ok (df, summary) /\
    List.length (col_time df) = (n_steps + 1)%nat /\
    (forall i, (i <= n_steps)%nat ->
       nth i (col_time df) 0 = INR i * T / INR n_steps) /\
    nth 0 (col_time df) 0 = 0 /\
    nth n_steps (col_time df) 0 = T.
Proof.
  intros HS0 HK Hn.
  destruct (simulate_delta_hedging_rows S0 K T r sigma n_steps position
              standard_normal HS0) as [path [a [_ [_ [_ [_ [_ E]]]]]]];
    [lra | exact Hn |].
  eexists. eexists. split; [exact E |]. cbn [col_time].
  pose proof (INR_steps_nonzero _ Hn) as Hne.
  assert (Hnth : forall i, (i <= n_steps)%nat ->
            nth i (np_linspace 0 T (n_steps + 1)) 0 = INR i * T / INR n_steps).
  { intros i Hi. rewrite np_linspace_nth by lia.
    replace (n_steps + 1 - 1)%nat with n_steps by lia. field. exact Hne. }
  split; [apply np_linspace_length |]. split; [exact Hnth |]. split.
  - rewrite Hnth by lia. simpl. field. exact Hne.
  - rewrite Hnth by lia. field. exact Hne.
Qed.

(** X19 on a two-step hedge over one year. *)
Lemma hedge_time_grid_witness :
  exists df summary,
    simulate_delta_hedging 100 100 1 0.05 0.2 2 "short_call" (fun _ => 0)
    = Ok (df, summary) /\
    nth 2 (col_time df) 0 = 1.
Proof.
  destruct (hedge_time_grid 100 100 1 0.05 0.2 2 "short_call" (fun _ => 0))
    as [df [summary [E [_ [_ [_ H]]]]]]; [lra | lra | lia |].
  exists df, summary. split; [exact E | exact H].
Defined.

(** X20. Inception, in exact arithmetic, for S0, K, T, sigma > 0 and
    n_steps >= 1.  Row 0 holds the premium as option value, the initial
    delta as delta and as shares held, premium - delta * S0 as cash, and a
    portfolio value of 0; the summary reports the same premium. *)
Theorem hedge_inception (S0 K T r sigma : R) (n_steps : nat)
  (position : string) (standard_normal : nat -> R) :
  0 < S0 -> 0 < K -> 0 < T -> 0 < sigma -> (1 <= n_steps)%nat ->
  exists df summary premium delta_0,
    simulate_delta_hedging S0 K T r sigma n_steps position standard_normal
    = Ok (df, summary) /\
    black_scholes_price S0 K T r sigma (kind_of_position position) = Ok premium /\
    delta S0 K T r sigma (kind_of_position position) = Ok delta_0 /\
    nth 0 (col_stock_price df) 0 = S0 /\
    nth 0 (col_option_value df) 0 = premium /\
    nth 0 (col_delta df) 0 = delta_0 /\
    nth 0 (col_shares_held df) 0 = delta_0 /\
    nth 0 (col_cash df) 0 = premium - delta_0 * S0 /\
    nth 0 (col_portfolio_value df) 0 = 0 /\
    option_premium summary = premium.
Proof.
  intros HS0 HK _ _ Hn.
  assert (HK' : K <> 0) by lra.
  destruct (simulate_delta_hedging_rows S0 K T r sigma n_steps position
              standard_normal HS0 HK' Hn)
    as [path [a [_ [[_ [Hfirst _]] [_ [[R0 [R1 [R2 [Rsh _]]]] [Hpv E]]]]]]].
  destruct (price_ok S0 K T r sigma (kind_of_position position)
              (or_introl HK') (kind_of_position_valid position)) as [p Hp].
  pose proof (delta_ok S0 K T r sigma (kind_of_position position) (or_introl HK'))
    as Hd.
  rewrite Hp, Hd in *. cbn [value_of] in *.
  eexists. eexists. exists p. eexists.
  split; [exact E |]. split; [reflexivity |]. split; [reflexivity |].
  cbn [col_stock_price col_option_value col_delta col_shares_held col_cash
         col_portfolio_value option_premium].
  repeat (split; [assumption |]).
  split; [rewrite Rsh by lia; exact R1 |].
  repeat (split; [assumption |]). reflexivity.
Qed.

(** X20 on a two-step hedge of a short put. *)
Lemma hedge_inception_witness :
  exists df summary,
    simulate_delta_hedging 100 100 1 0.05 0.2 2 "short_put" (fun _ => 0)
    = Ok (df, summary) /\
    nth 0 (col_portfolio_value df) 0 = 0.
Proof.
  destruct (hedge_inception 100 100 1 0.05 0.2 2 "short_put" (fun _ => 0))
    as [df [summary [premium [delta_0 [E [_ [_ [_ [_ [_ [_ [_ [H _]]]]]]]]]]]]];
    [lra | lra | lra | lra | lia |].
  exists df, summary. split; [exact E | exact H].
Defined.

(** X21. After every rebalancing the hedge holds exactly delta shares: the
    shares_held column equals the delta column. *)
Theorem hedge_holds_delta (S0 K T r sigma : R) (n_steps : nat)
  (position : string) (standard_normal : nat -> R) :
  0 < S0 -> 0 < K -> (1 <= n_steps)%nat ->
  exists df summary,
    simulate_delta_hedging S0 K T r sigma n_steps position standard_normal
    = Ok (df, summary) /\
    col_shares_held df = col_delta df.
Proof.
  intros HS0 HK Hn.
  destruct (simulate_delta_hedging_rows S0 K T r sigma n_steps position
              standard_normal HS0) as [path [a [_ [_ [Hinv [Hrows [_ E]]]]]]];
    [lra | exact Hn |].
  eexists. eexists. split; [exact E |]. cbn [col_shares_held col_delta].
  destruct Hinv as [[Ld [Ls _]] _]. destruct Hrows as [_ [_ [_ [Rsh _]]]].
  apply (nth_ext _ _ 0 0); [congruence |].
  intros i Hi. apply Rsh. lia.
Qed.

(** X21 on a two-step hedge. *)
Lemma hedge_holds_delta_witness :
  exists df summary,
    simulate_delta_hedging 100 100 1 0.05 0.2 2 "short_call" (fun _ => 0)
    = Ok (df, summary) /\
    col_shares_held df = col_delta df.
Proof.
  apply (hedge_holds_delta 100 100 1 0.05 0.2 2 "short_call" (fun _ => 0));
    [lra | lra | lia].
Defined.

(** X22. For S0, K, T, sigma > 0 and n_steps >= 1, the last row is priced
    at expiry, and the summary is read off it.
    option_value at step n_steps is the payoff (max(S - K, 0) for a call,
    max(K - S, 0) for a put), which the summary reports as option_payoff
    (>= 0); delta there is 1 or 0 (call), -1 or 0 (put); final_stock_price
    is the last price; theoretical_pnl = premium - payoff; hedging_error
    and hedge_portfolio_value are the last portfolio value; error_percent
    is >= 0. *)
Theorem hedge_expiry_and_summary (S0 K T r sigma : R) (n_steps : nat)
  (position : string) (standard_normal : nat -> R) :
  0 < S0 -> 0 < K -> 0 < T -> 0 < sigma -> (1 <= n_steps)%nat ->
  exists df summary,
    simulate_delta_hedging S0 K T r sigma n_steps position standard_normal
    = Ok (df, summary) /\
    let S_T := nth n_steps (col_stock_price df) 0 in
    let is_call := (kind_of_position position =? "call")%string in
    final_stock_price summary = S_T /\
    option_payoff summary
    = (if is_call then Rmax (S_T - K) 0 else Rmax (K - S_T) 0) /\
    0 <= option_payoff summary /\
    nth n_steps (col_option_value df) 0 = option_payoff summary /\
    nth n_steps (col_delta df) 0
    = (if is_call then (if Rlt_dec K S_T then 1 else 0)
       else (if Rlt_dec S_T K then -1 else 0)) /\
    theoretical_pnl summary = option_premium summary - option_payoff summary /\
    hedging_error summary = nth n_steps (col_portfolio_value df) 0 /\
    hedge_portfolio_value summary = hedging_error summary /\
    0 <= error_percent summary.
Proof.
  intros HS0 HK _ _ Hn.
  destruct (simulate_delta_hedging_rows S0 K T r sigma n_steps position
              standard_normal HS0) as [path [a [_ [_ [_ [Hrows [_ E]]]]]]];
    [lra | exact Hn |].
  eexists. eexists. split; [exact E |].
  cbn [col_stock_price col_option_value col_delta col_portfolio_value
         final_stock_price option_payoff theoretical_pnl hedging_error
         hedge_portfolio_value error_percent option_premium]. cbv zeta.
  destruct Hrows as [_ [_ [_ [_ Rval]]]].
  specialize (Rval n_steps ltac:(lia)).
  rewrite np_linspace_nth in Rval by lia.
  replace (n_steps + 1 - 1)%nat with n_steps in Rval by lia.
  replace (T - (0 + INR n_steps * ((T - 0) / INR n_steps))) with 0 in Rval
    by (field; now apply INR_steps_nonzero).
  unfold row_valuation in Rval.
  destruct (Rlt_dec 0.0001 0) as [Habs | _]; [lra |].
  set (S_T := nth n_steps path 0) in *.
  assert (Hpay : 0 <= (if (kind_of_position position =? "call")%string
                       then Rmax (S_T - K) 0 else Rmax (K - S_T) 0)).
  { destruct (kind_of_position position =? "call")%string; apply Rmax_r. }
  assert (Herr : forall premium pf,
            0 <= (if Rlt_dec 0 premium then Rabs pf / premium * 100 else 0)).
  { intros premium pf. destruct (Rlt_dec 0 premium); [| lra].
    apply Rmult_le_pos; [| lra].
    apply Rmult_le_pos; [apply Rabs_pos | left; now apply Rinv_0_lt_compat]. }
  split; [reflexivity |]. split; [reflexivity |]. split; [exact Hpay |].
  destruct (kind_of_position position =? "call")%string;
    injection Rval as Hov Hdl;
    (split; [exact Hov |]); (split; [exact Hdl |]);
    (split; [reflexivity |]); (split; [reflexivity |]); (split; [reflexivity |]);
    apply Herr.
Qed.

(** X22 on a two-step hedge. *)
Lemma hedge_expiry_and_summary_witness :
  exists df summary,
    simulate_delta_hedging 100 100 1 0.05 0.2 2 "short_call" (fun _ => 0)
    = Ok (df, summary) /\
    nth 2 (col_option_value df) 0 = option_payoff summary /\
    hedging_error summary = nth 2 (col_portfolio_value df) 0.
Proof.
  destruct (hedge_expiry_and_summary 100 100 1 0.05 0.2 2 "short_call"
              (fun _ => 0))
    as [df [summary [E [_ [_ [_ [H1 [_ [_ [H2 _]]]]]]]]]];
    [lra | lra | lra | lra | lia |].
  exists df, summary. split; [exact E |]. split; [exact H1 | exact H2].
Defined.

(** X23. With no steps there is no time step to divide by: both simulators
    raise ZeroDivisionError when n_steps = 0. *)
Theorem no_steps_raises (S0 K T r sigma : R) (position : string)
  (standard_normal : nat -> R) :
  simulate_stock_path S0 r sigma T 0 standard_normal = Raise ZeroDivisionError /\
  simulate_delta_hedging S0 K T r sigma 0 position standard_normal
  = Raise ZeroDivisionError.
Proof.
  unfold simulate_stock_path, simulate_delta_hedging, py_div. simpl INR.
  destruct (Req_dec_T 0 0) as [_ | Hne]; [split; reflexivity | contradiction].
Qed.

(** X24. The path in closed form, in exact arithmetic, for S0 > 0, T > 0
    and n_steps >= 1.  Entry i is
    S0 * exp(i * (r - sigma^2/2) * dt + sigma * sqrt(dt) * (Z_0 + ... + Z_(i-1)))
    with dt = T / n_steps; with sigma = 0 it is S0 * exp(r * i * dt),
    whatever the draws. *)
Theorem stock_path_closed_form (S0 r sigma T : R) (n_steps : nat)
  (standard_normal : nat -> R) :
  0 < S0 -> 0 < T -> (1 <= n_steps)%nat ->
  exists path,
    simulate_stock_path S0 r sigma T n_steps standard_normal = Ok path /\
    (forall i, (i <= n_steps)%nat ->
       nth i path 0 =
       S0 * exp (INR i * ((r - 0.5 * sigma ^ 2) * (T / INR n_steps))
                 + sigma * sqrt (T / INR n_steps) * sum_draws standard_normal i)) /\
    (sigma = 0 ->
     forall i, (i <= n_steps)%nat ->
       nth i path 0 = S0 * exp (r * (INR i * (T / INR n_steps)))).
Proof.
  intros HS0 _ Hn.
  destruct (simulate_stock_path_spec S0 r sigma T n_steps standard_normal HS0 Hn)
    as [path [E [_ [Hfirst [_ Hrec]]]]].
  exists path. split; [exact E |].
  assert (Hclosed : forall i, (i <= n_steps)%nat ->
            nth i path 0 =
            S0 * exp (INR i * ((r - 0.5 * sigma ^ 2) * (T / INR n_steps))
                      + sigma * sqrt (T / INR n_steps)
                        * sum_draws standard_normal i)).
  { induction i as [| i IH]; intro Hi.
    - rewrite Hfirst. simpl. replace (0 * _ + _ * 0) with 0 by ring.
      rewrite exp_0. ring.
    - rewrite Hrec by lia. replace (Datatypes.S i - 1)%nat with i by lia.
      rewrite IH by lia. rewrite Rmult_assoc, <- exp_plus. f_equal. f_equal.
      rewrite S_INR. simpl sum_draws. ring. }
  split; [exact Hclosed |].
  intros -> i Hi. rewrite Hclosed by exact Hi. f_equal. f_equal. ring.
Qed.

(** X24 on a two-step path without volatility. *)
Lemma stock_path_closed_form_witness :
  exists path,
    simulate_stock_path 100 0.05 0 1 2 (fun _ => 1) = Ok path /\
    nth 2 path 0 = 100 * exp (0.05 * (INR 2 * (1 / INR 2))).
Proof.
  destruct (stock_path_closed_form 100 0.05 0 1 2 (fun _ => 1))
    as [path [E [_ H]]]; [lra | lra | lia |].
  exists path. split; [exact E |]. apply (H eq_refl 2%nat). lia.
Defined.

(** ** The parity check *)

(** X25. [put_call_parity_check] accepts the model's own prices: in exact
    arithmetic, for S > 0, K > 0, T >= 0 and sigma > 0 the call and put
    prices of [black_scholes_price] give a difference of 0 and
    is_valid = true.  For S <= 0 the tolerance 0.01 * S is not positive
    and no pair of prices is accepted. *)
Theorem parity_check_on_model_prices (S K T r sigma : R) :
  (0 < S -> 0 < K -> 0 <= T -> 0 < sigma ->
   exists c p,
     black_scholes_price S K T r sigma "call" = Ok c /\
     black_scholes_price S K T r sigma "put" = Ok p /\
     difference (put_call_parity_check S K T r c p) = 0 /\
     is_valid (put_call_parity_check S K T r c p) = true /\
     message (put_call_parity_check S K T r c p) = "Parité respectée"%string) /\
  (S <= 0 ->
   forall c p, is_valid (put_call_parity_check S K T r c p) = false).
Proof.
  split.
  - intros HS HK _ _.
    destruct (parity_exact S K T r sigma) as [p [c [Hp [Hc E]]]]; [left; lra |].
    exists c, p. split; [exact Hc |]. split; [exact Hp |].
    unfold put_call_parity_check. cbn [difference is_valid message].
    replace (c + K * exp (- r * T) - (p + S)) with 0 by lra.
    rewrite Rabs_R0. split; [reflexivity |].
    destruct (Rlt_dec 0 (0.01 * S)); [split; reflexivity | lra].
  - intros HS c p. unfold put_call_parity_check. cbn [is_valid].
    destruct (Rlt_dec _ (0.01 * S)) as [Hlt | _]; [| reflexivity].
    pose proof (Rabs_pos (c + K * exp (- r * T) - (p + S))). lra.
Qed.

(** X25 at S = K = 100, T = 1, the repository's own parity test. *)
Lemma parity_check_on_model_prices_witness :
  exists c p,
    black_scholes_price 100 100 1 0.05 0.2 "call" = Ok c /\
    black_scholes_price 100 100 1 0.05 0.2 "put" = Ok p /\
    is_valid (put_call_parity_check 100 100 1 0.05 c p) = true.
Proof.
  destruct (proj1 (parity_check_on_model_prices 100 100 1 0.05 0.2))
    as [c [p [Hc [Hp [_ [H _]]]]]]; [lra | lra | lra | lra |].
  exists c, p. split; [exact Hc |]. split; [exact Hp | exact H].
Defined.

(** ** Repeated simulations *)

Lemma fold_left_Rmax_ge (a : array) (x : R) :
  x <= fold_left Rmax a x /\
  (forall y, In y a -> y <= fold_left Rmax a x) /\
  (fold_left Rmax a x = x \/ In (fold_left Rmax a x) a).
Proof.
  revert x. induction a as [| z a IH]; intro x; simpl.
  - split; [lra |]. split; [intros y [] | now left].
  - destruct (IH (Rmax x z)) as [H1 [H2 H3]].
    pose proof (Rmax_l x z). pose proof (Rmax_r x z).
    split; [lra |]. split.
    + intros y [<- | Hy]; [lra | now apply H2].
    + destruct H3 as [H3 | H3]; [| right; now right].
      rewrite H3. unfold Rmax. destruct (Rle_dec x z); [right; now left | now left].
Qed.

Lemma np_max_spec (a : array) (m : R) :
  np_max a = Ok m -> (forall y, In y a -> y <= m) /\ In m a.
Proof.
  destruct a as [| x a]; simpl; [discriminate |]. intros [= <-].
  destruct (fold_left_Rmax_ge a x) as [H1 [H2 H3]]. split.
  - intros y [<- | Hy]; [exact H1 | now apply H2].
  - destruct H3 as [-> | H3]; [now left | now right].
Qed.

Lemma np_sum_bound (a : array) (m : R) :
  (forall y, In y a -> Rabs y <= m) -> Rabs (np_sum a) <= INR (List.length a) * m.
Proof.
  induction a as [| x a IH]; intro H.
  - simpl. rewrite Rabs_R0. lra.
  - change (np_sum (x :: a)) with (x + np_sum a).
    change (List.length (x :: a)) with (Datatypes.S (List.length a)).
    rewrite S_INR.
    pose proof (Rabs_triang x (np_sum a)).
    pose proof (H x (or_introl eq_refl)).
    assert (Rabs (np_sum a) <= INR (List.length a) * m)
      by (apply IH; intros y Hy; apply H; now right).
    lra.
Qed.

Lemma np_mean_bound (a : array) (m : R) :
  a <> [] -> (forall y, In y a -> Rabs y <= m) -> Rabs (np_mean a) <= m.
Proof.
  intros Hne H. unfold np_mean.
  assert (Hlen : 0 < INR (List.length a)).
  { apply lt_0_INR. destruct a; [contradiction | simpl; lia]. }
  unfold Rdiv. rewrite Rabs_mult, (Rabs_pos_eq (/ _))
    by (left; now apply Rinv_0_lt_compat).
  apply (Rmult_le_reg_r (INR (List.length a))); [exact Hlen |].
  rewrite Rmult_assoc, Rinv_l, Rmult_1_r by lra.
  rewrite (Rmult_comm m). now apply np_sum_bound.
Qed.

Lemma np_mean_nonneg (a : array) : (forall y, In y a -> 0 <= y) -> 0 <= np_mean a.
Proof.
  intro H. unfold np_mean. apply Rmult_le_pos.
  - induction a as [| x a IH]; [simpl; lra |].
    change (np_sum (x :: a)) with (x + np_sum a).
    pose proof (H x (or_introl eq_refl)).
    assert (0 <= np_sum a) by (apply IH; intros y Hy; apply H; now right). lra.
  - destruct a; simpl List.length.
    + simpl. rewrite Rinv_0. lra.
    + left. apply Rinv_0_lt_compat, lt_0_INR. lia.
Qed.

Lemma simulate_summary_spec (S0 K T r sigma : R) (n_steps : nat)
  (position : string) (standard_normal : nat -> R) :
  0 < S0 -> K <> 0 -> (1 <= n_steps)%nat ->
  exists df summary,
    simulate_delta_hedging S0 K T r sigma n_steps position standard_normal
    = Ok (df, summary) /\
    hedging_error summary = nth n_steps (col_portfolio_value df) 0 /\
    0 <= error_percent summary.
Proof.
  intros HS0 HK Hn.
  destruct (simulate_delta_hedging_rows S0 K T r sigma n_steps position
              standard_normal HS0 HK Hn) as [path [a [_ [_ [_ [_ [_ E]]]]]]].
  eexists. eexists. split; [exact E |].
  cbn [hedging_error error_percent col_portfolio_value]. cbv zeta.
  split; [reflexivity |].
  destruct (Rlt_dec 0 _); [| lra].
  apply Rmult_le_pos; [| lra].
  apply Rmult_le_pos; [apply Rabs_pos | left; now apply Rinv_0_lt_compat].
Qed.

Lemma Forall_nth_nonneg (a : array) :
  (forall j, (j < List.length a)%nat -> 0 <= nth j a 0) ->
  forall y, In y a -> 0 <= y.
Proof.
  intros H y Hy. destruct (In_nth a y 0 Hy) as [j [Hj <-]]. now apply H.
Qed.

(** X26. [run_multiple_simulations], in exact arithmetic, for S0, K, T,
    sigma > 0 and n_steps >= 1.  With no simulation it raises ValueError
    (the maximum of an empty array).  With n_simulations >= 1 it returns:
    errors has one entry per
    run, entry i being the hedging_error of the run seeded with i;
    max_error is the largest |error| and is attained; |mean_error| <=
    max_error; the standard deviations and mean_error_percent are >= 0. *)
Theorem run_multiple_simulations_spec (S0 K T r sigma : R)
  (n_simulations n_steps : nat) (standard_normal_seeded : nat -> nat -> R) :
  0 < S0 -> 0 < K -> 0 < T -> 0 < sigma -> (1 <= n_steps)%nat ->
  (n_simulations = 0%nat ->
   run_multiple_simulations S0 K T r sigma n_simulations n_steps
     standard_normal_seeded = Raise ValueError) /\
  ((1 <= n_simulations)%nat ->
   exists stats,
     run_multiple_simulations S0 K T r sigma n_simulations n_steps
       standard_normal_seeded = Ok stats /\
     List.length (errors stats) = n_simulations /\
     (forall i, (i < n_simulations)%nat ->
        exists df summary,
          simulate_delta_hedging S0 K T r sigma n_steps "short_call"
            (standard_normal_seeded i) = Ok (df, summary) /\
          nth i (errors stats) 0 = hedging_error summary) /\
     (forall i, (i < n_simulations)%nat ->
        Rabs (nth i (errors stats) 0) <= max_error stats) /\
     (exists i, (i < n_simulations)%nat /\
        max_error stats = Rabs (nth i (errors stats) 0)) /\
     Rabs (mean_error stats) <= max_error stats /\
     0 <= std_error stats /\ 0 <= std_error_percent stats /\
     0 <= mean_error_percent stats).
Proof.
  intros HS0 HK _ _ Hn. split.
  - intros ->. reflexivity.
  - intro Hsim.
    destruct (for_range_invariant
                (runs_inv S0 K T r sigma n_steps standard_normal_seeded)
                (fun i (lists : list R * list R) =>
                   out <- simulate_delta_hedging S0 K T r sigma n_steps
                            "short_call" (standard_normal_seeded i) ;;
                   Ok (fst lists ++ [hedging_error (snd out)],
                       snd lists ++ [error_percent (snd out)]))
                n_simulations 0 ([], [])) as [[errs percs] [Eloop Hinv]].
    + split; [reflexivity |]. split; [reflexivity |]. intros j Hj. lia.
    + intros i [errs percs] Hi [L1 [L2 Hrows]].
      destruct (simulate_summary_spec S0 K T r sigma n_steps "short_call"
                  (standard_normal_seeded i) HS0) as [df [summary [E [_ Hpos]]]];
        [lra | exact Hn |].
      rewrite E. cbn [bind snd fst]. eexists. split; [reflexivity |].
      unfold runs_inv. cbn [fst snd] in *. rewrite !length_app, L1, L2.
      split; [simpl; lia |]. split; [simpl; lia |].
      intros j Hj. destruct (Nat.eq_dec j i) as [-> | Hne].
      * exists df, summary. split; [exact E |].
        rewrite !app_nth2 by lia. rewrite L1, L2, Nat.sub_diag. simpl.
        repeat split; try reflexivity. exact Hpos.
      * destruct (Hrows j) as [df' [s' [E' [H1 [H2 H3]]]]]; [lia |].
        exists df', s'. split; [exact E' |].
        rewrite !app_nth1 by lia. repeat split; assumption.
    + simpl Nat.add in Hinv.
      destruct Hinv as [L1 [L2 Hrows]]. cbn [fst snd] in *.
      destruct (np_max (np_abs errs)) as [m | e] eqn:Emax.
      2:{ destruct errs; [simpl in L1; lia | discriminate]. }
      exists (mkStats (np_mean errs) (np_std errs) (np_mean percs) (np_std percs)
                m errs).
      split.
      { unfold run_multiple_simulations. cbv zeta. rewrite Eloop.
        cbn [bind fst snd]. rewrite Emax. reflexivity. }
      cbn [errors max_error mean_error std_error std_error_percent
             mean_error_percent].
      apply np_max_spec in Emax. destruct Emax as [Hub Hatt].
      assert (Hle : forall y, In y errs -> Rabs y <= m).
      { intros y Hy. apply Hub. unfold np_abs. now apply in_map. }
      split; [exact L1 |]. split; [| split; [| split; [| split; [| split; [| split]]]]].
      * intros i Hi. destruct (Hrows i Hi) as [df [s [E [H1 _]]]]. eauto.
      * intros i Hi. apply Hle, nth_In. lia.
      * unfold np_abs in Hatt. apply in_map_iff in Hatt.
        destruct Hatt as [y [Hy Hin]]. destruct (In_nth errs y 0 Hin) as [i [Hi <-]].
        exists i. split; [lia | now symmetry].
      * apply np_mean_bound; [| exact Hle]. destruct errs; [simpl in L1; lia | discriminate].
      * apply sqrt_pos.
      * apply sqrt_pos.
      * apply np_mean_nonneg, Forall_nth_nonneg. intros j Hj.
        destruct (Hrows j) as [_ [_ [_ [_ [_ H3]]]]]; [lia | exact H3].
Qed.

(** X26 on two runs of two steps. *)
Lemma run_multiple_simulations_spec_witness :
  exists stats,
    run_multiple_simulations 100 100 1 0.05 0.2 2 2 (fun _ _ => 0) = Ok stats /\
    List.length (errors stats) = 2%nat /\
    Rabs (mean_error stats) <= max_error stats.
Proof.
  assert (HS : 0 < 100) by lra.
  assert (HT : 0 < 1) by lra.
  assert (Hs : 0 < 0.2) by lra.
  assert (Hn : (1 <= 2)%nat) by lia.
  destruct (proj2 (run_multiple_simulations_spec 100 100 1 0.05 0.2 2 2
                     (fun _ _ => 0) HS HS HT Hs Hn) Hn)
    as [stats [E [L [_ [_ [_ [H _]]]]]]].
  exists stats. split; [exact E |]. split; [exact L | exact H].
Defined.

(** ** The volatility smile *)

Lemma insert_row_perm row rows : Permutation (row :: rows) (insert_row row rows).
Proof.
  induction rows as [| x rest IH]; simpl; [reflexivity |].
  destruct (Rle_dec (row_strike row) (row_strike x)); [reflexivity |].
  rewrite perm_swap. now apply perm_skip.
Qed.

Lemma insert_row_sorted row rows :
  StronglySorted (fun a b => row_strike a <= row_strike b) rows ->
  StronglySorted (fun a b => row_strike a <= row_strike b) (insert_row row rows).
Proof.
  induction rows as [| x rest IH]; intro Hs; simpl.
  - constructor; constructor.
  - inversion Hs as [| ? ? Hrest Hall]; subst.
    destruct (Rle_dec (row_strike row) (row_strike x)) as [Hle | Hgt].
    + constructor; [exact Hs |]. constructor; [exact Hle |].
      eapply Forall_impl; [| exact Hall]. simpl. intros a Ha. lra.
    + constructor; [now apply IH |].
      apply (Permutation_Forall (insert_row_perm row rest)).
      constructor; [lra | exact Hall].
Qed.

Lemma insertion_sort_sorts : sorts_by_strike insertion_sort.
Proof.
  intro rows. unfold insertion_sort. induction rows as [| x rest [IHp IHs]]; simpl.
  - split; constructor.
  - split.
    + rewrite <- insert_row_perm. now apply perm_skip.
    + now apply insert_row_sorted.
Qed.

Lemma smile_results_app (S T r : R) (pre post : list OptionQuote) rows :
  smile_results S T r pre = Done rows ->
  smile_results S T r (pre ++ post)
  = and_then (smile_results S T r post) (fun more => Done (rows ++ more)).
Proof.
  revert rows. induction pre as [| q pre IH]; intros rows E; simpl in *.
  - injection E as <-. destruct (smile_results S T r post); reflexivity.
  - destruct (smile_row S T r q) as [row | f]; [| discriminate]. simpl in *.
    destruct (smile_results S T r pre) as [rows' | f]; [| discriminate].
    simpl in E. injection E as <-. rewrite (IH rows' eq_refl).
    destruct (smile_results S T r post); reflexivity.
Qed.

(** X27. How [analyze_volatility_smile] fails.  An empty list raises
    KeyError 'strike'.  The first option that fails ends the whole call
    with its error, whatever comes after it: an absent key raises
    KeyError naming that key, and a kind that is neither call nor put
    raises ValueError. *)
Theorem analyze_smile_failures
  (sort_values : list SmileRow -> list SmileRow) (S T r : R) :
  analyze_volatility_smile sort_values [] S T r = Failed (KeyError "strike") /\
  (forall pre q post rows f,
     smile_results S T r pre = Done rows ->
     smile_row S T r q = Failed f ->
     analyze_volatility_smile sort_values (pre ++ q :: post) S T r = Failed f) /\
  (forall q, q_strike q = None ->
     smile_row S T r q = Failed (KeyError "strike")) /\
  (forall q K, q_strike q = Some K -> q_price q = None ->
     smile_row S T r q = Failed (KeyError "price")) /\
  (forall q K price, q_strike q = Some K -> q_price q = Some price ->
     q_type q = None ->
     smile_row S T r q = Failed (KeyError "type")) /\
  (forall q K price kind, q_strike q = Some K -> q_price q = Some price ->
     q_type q = Some kind -> ~ valid_kind kind -> K <> 0 \/ T <= 0 ->
     smile_row S T r q = Failed (Raised ValueError)).
Proof.
  split; [reflexivity |]. split; [| split; [| split; [| split]]].
  - intros pre q post rows f Hpre Hq. unfold analyze_volatility_smile.
    rewrite (smile_results_app S T r pre (q :: post) rows Hpre). simpl.
    rewrite Hq. reflexivity.
  - intros q H. unfold smile_row. rewrite H. reflexivity.
  - intros q K H1 H2. unfold smile_row. rewrite H1, H2. reflexivity.
  - intros q K price H1 H2 H3. unfold smile_row. rewrite H1, H2, H3. reflexivity.
  - intros q K price kind H1 H2 H3 Hn HK. unfold smile_row.
    rewrite H1, H2, H3. simpl.
    unfold calculate_implied_vol, calculate_implied_vol_traced.
    rewrite newton_invalid_kind by assumption. reflexivity.
Qed.

(** X27 on a list whose first option has no price and whose second has
    no key at all: the first one decides. *)
Lemma analyze_smile_failures_witness :
  analyze_volatility_smile insertion_sort
    [mkQuote (Some 110) None (Some "call"%string) None;
     mkQuote None None None None] 100 1 0.05
  = Failed (KeyError "price").
Proof.
  destruct (analyze_smile_failures insertion_sort 100 1 0.05)
    as [_ [Hfirst [_ [Hprice _]]]].
  apply (Hfirst [] (mkQuote (Some 110) None (Some "call"%string) None)
           [mkQuote None None None None] []); [reflexivity |].
  apply (Hprice _ 110); reflexivity.
Defined.

Lemma calculate_implied_vol_total (market_price S K T r : R)
  (option_type : string) :
  K <> 0 \/ T <= 0 -> valid_kind option_type ->
  exists v, calculate_implied_vol market_price S K T r option_type = Ok v.
Proof.
  intros HK Hv. unfold calculate_implied_vol, calculate_implied_vol_traced.
  destruct (newton_total market_price S K T r option_type None None None HK Hv)
    as [rn En]. rewrite En.
  destruct (converged rn); [eexists; reflexivity |].
  destruct (bisection_total market_price S K T r option_type None None None None
              HK Hv) as [rb Eb]; [simpl; lia |].
  rewrite Eb. destruct (converged rb); eexists; reflexivity.
Qed.

Lemma smile_row_ok (S T r : R) (q : OptionQuote) :
  S <> 0 -> well_formed_quote T q ->
  exists row, smile_row S T r q = Done row /\ row_of_quote S T r q row.
Proof.
  intros HS [K [price [kind [H1 [H2 [H3 [Hv HK]]]]]]].
  destruct (calculate_implied_vol_total price S K T r kind HK Hv) as [v Ev].
  exists (mkRow K (K / S) price kind v). unfold smile_row, row_of_quote.
  rewrite H1, H2, H3. simpl. rewrite Ev. simpl.
  unfold calculate_moneyness. rewrite (py_div_ok _ _ HS). simpl.
  repeat split; first [reflexivity | exact Ev].
Qed.

Lemma smile_results_ok (S T r : R) (option_data : list OptionQuote) :
  S <> 0 -> Forall (well_formed_quote T) option_data ->
  exists results,
    smile_results S T r option_data = Done results /\
    Forall2 (row_of_quote S T r) option_data results.
Proof.
  intros HS Hall. induction Hall as [| q rest Hq Hrest IH]; simpl.
  - exists []. split; [reflexivity | constructor].
  - destruct (smile_row_ok S T r q HS Hq) as [row [Er Hr]].
    destruct IH as [results [Eres Hres]].
    exists (row :: results). rewrite Er. simpl. rewrite Eres. simpl.
    split; [reflexivity | now constructor].
Qed.

(** X28. What [analyze_volatility_smile] returns.  For S > 0, T >= 0 and a
    non-empty list of options that all have their three keys, a kind that
    is call or put and a positive strike, it returns
    [results.sort_values('strike')], where [results] has one row per
    option, in the order of the options, each with the strike, price and
    kind of its option, moneyness = strike / S and the implied volatility
    (or NaN) that [calculate_implied_vol] gives. *)
Theorem analyze_smile_rows
  (sort_values : list SmileRow -> list SmileRow) (S T r : R)
  (option_data : list OptionQuote) :
  0 < S -> 0 <= T -> option_data <> [] ->
  Forall listed_option option_data ->
  exists results,
    analyze_volatility_smile sort_values option_data S T r
    = Done (sort_values results) /\
    Forall2 (row_of_quote S T r) option_data results.
Proof.
  intros HS _ Hne Hall.
  assert (HS' : S <> 0) by lra.
  assert (Hwf : Forall (well_formed_quote T) option_data).
  { apply (Forall_impl _ (P := listed_option)); [| exact Hall].
    intros q [K [price [kind [H1 [H2 [H3 [Hv HK]]]]]]].
    exists K, price, kind. repeat split; try assumption. left. lra. }
  destruct (smile_results_ok S T r option_data HS' Hwf) as [results [E Hrows]].
  exists results. unfold analyze_volatility_smile. rewrite E. simpl.
  destruct results as [| row results].
  - inversion Hrows. subst. contradiction.
  - split; [reflexivity | exact Hrows].
Qed.

(** X28 on the three calls of the docstring, listed out of order (strikes
    110, 90, 100), with insertion sort for the sort: the rows come back by
    increasing strike. *)
Lemma analyze_smile_rows_witness :
  exists df,
    analyze_volatility_smile insertion_sort
      [mkQuote (Some 110) (Some 6.8) (Some "call"%string) None;
       mkQuote (Some 90) (Some 15.5) (Some "call"%string) None;
       mkQuote (Some 100) (Some 10.5) (Some "call"%string) None] 100 1 0.05
    = Done df /\
    map row_strike df = [90; 100; 110] /\
    map row_price df = [15.5; 10.5; 6.8].
Proof.
  destruct (analyze_smile_rows insertion_sort 100 1 0.05
              [mkQuote (Some 110) (Some 6.8) (Some "call"%string) None;
               mkQuote (Some 90) (Some 15.5) (Some "call"%string) None;
               mkQuote (Some 100) (Some 10.5) (Some "call"%string) None])
    as [results [E Hrows]].
  - lra.
  - lra.
  - discriminate.
  - repeat constructor;
      eexists; eexists; exists "call"%string;
      (repeat split; try reflexivity; [left; reflexivity | lra]).
  - inversion Hrows as [| q1 r1 l1 l1' [K1 [P1 _]] Hrows1]; subst.
    inversion Hrows1 as [| q2 r2 l2 l2' [K2 [P2 _]] Hrows2]; subst.
    inversion Hrows2 as [| q3 r3 l3 l3' [K3 [P3 _]] Hrows3]; subst.
    inversion Hrows3; subst.
    cbn [q_strike q_price] in K1, K2, K3, P1, P2, P3.
    injection K1 as K1. injection K2 as K2. injection K3 as K3.
    injection P1 as P1. injection P2 as P2. injection P3 as P3.
    exists (insertion_sort [r1; r2; r3]). split; [exact E |].
    unfold insertion_sort. cbn [fold_right insert_row].
    rewrite <- K2, <- K3.
    destruct (Rle_dec 90 100) as [_ | Hn]; [| lra].
    cbn [insert_row]. rewrite <- K1, <- K2, <- K3.
    destruct (Rle_dec 110 90) as [Hn | _]; [lra |].
    destruct (Rle_dec 110 100) as [Hn | _]; [lra |].
    cbn [map]. rewrite <- K1, <- K2, <- K3, <- P1, <- P2, <- P3.
    split; reflexivity.
Defined.

Lemma synthetic_options_spec (S T r base_vol skew convexity : R)
  (strikes : list R) :
  S <> 0 -> Forall (fun K => K <> 0 \/ T <= 0) strikes ->
  exists option_data,
    synthetic_options S T r base_vol skew convexity strikes = Ok option_data /\
    Forall2 (synthetic_quote S T r base_vol skew convexity) strikes option_data.
Proof.
  intros HS Hall. induction Hall as [| K rest HK Hrest IH].
  - exists []. split; [reflexivity | constructor].
  - cbn [synthetic_options]. rewrite (py_div_ok _ _ HS). cbn [bind]. cbv zeta.
    set (sigma := Rmax (base_vol + skew * (K / S - 1) + convexity * (K / S - 1) ^ 2) 0.05).
    set (kind := if Rle_dec S K then "call"%string else "put"%string).
    assert (Hv : valid_kind kind).
    { unfold kind. destruct (Rle_dec S K); [left | right]; reflexivity. }
    destruct (price_ok S K T r sigma kind HK Hv) as [p Hp].
    rewrite Hp. cbn [bind]. destruct IH as [data [E Hdata]]. rewrite E. cbn [bind].
    eexists. split; [reflexivity |]. constructor; [| exact Hdata].
    exists sigma, p. repeat split; try reflexivity; try assumption.
    unfold sigma. apply Rmax_r.
Qed.

Lemma default_strikes_spec (S : R) :
  List.length (default_strikes S) = 9%nat /\
  forall K, In K (default_strikes S) ->
    exists i, (i < 9)%nat /\ K = S * (0.80 + INR i * 0.05).
Proof.
  unfold default_strikes. split; [now rewrite length_map, length_seq |].
  intros K HK. apply in_map_iff in HK. destruct HK as [i [<- Hi]].
  apply in_seq in Hi. exists i. split; [lia | reflexivity].
Qed.

Lemma default_strike_range (S K : R) :
  0 < S -> In K (default_strikes S) -> 0.8 <= K / S <= 1.2 /\ 0 < K.
Proof.
  intros HS HK. destruct (proj2 (default_strikes_spec S) K HK) as [i [Hi ->]].
  assert (Hi0 : 0 <= INR i) by apply pos_INR.
  assert (Hi8 : INR i <= 8).
  { replace 8 with (INR 8) by (simpl; lra). apply le_INR. lia. }
  replace (S * (0.80 + INR i * 0.05) / S) with (0.80 + INR i * 0.05) by (field; lra).
  split; [lra |]. apply Rmult_lt_0_compat; lra.
Qed.

(** X29. What [generate_synthetic_smile_data] builds.  For S <> 0 and
    strikes for which the price is defined, it returns one option per
    strike, in order: a call when K >= S and a put otherwise, with
    true_vol = max(base_vol + skew*(K/S - 1) + convexity*(K/S - 1)^2, 0.05),
    never below 0.05, and the model's price at that volatility.  Without
    strikes it uses the nine strikes 0.80*S, 0.85*S, ..., 1.20*S.  With
    S = 0 and at least one strike it raises ZeroDivisionError. *)
Theorem synthetic_smile_data_spec (S T r : R)
  (base_vol skew convexity : option R) (strikes : option (list R)) :
  let used := match strikes with None => default_strikes S | Some l => l end in
  (strikes = None -> List.length used = 9%nat /\
     forall i, (i < 9)%nat -> nth i used 0 = S * (0.80 + INR i * 0.05)) /\
  (S <> 0 -> Forall (fun K => K <> 0 \/ T <= 0) used ->
   exists option_data,
     generate_synthetic_smile_data S T r base_vol skew convexity strikes
     = Ok option_data /\
     Forall2 (synthetic_quote S T r (kwarg 0.2 base_vol) (kwarg (-0.1) skew)
                (kwarg 0.05 convexity)) used option_data) /\
  (S = 0 -> used <> [] ->
   generate_synthetic_smile_data S T r base_vol skew convexity strikes
   = Raise ZeroDivisionError).
Proof.
  intro used. split; [| split].
  - intros ->. unfold used. split; [apply default_strikes_spec |].
    intros i Hi. unfold default_strikes.
    apply (nth_map_seq (fun k => S * (0.80 + INR k * 0.05)) 9 i Hi).
  - intros HS Hall. unfold generate_synthetic_smile_data. cbv zeta. fold used.
    now apply synthetic_options_spec.
  - intros -> Hne. unfold generate_synthetic_smile_data. cbv zeta. fold used.
    destruct used as [| K rest]; [contradiction |]. simpl. unfold py_div.
    destruct (Req_dec_T 0 0); [reflexivity | contradiction].
Qed.

(** X29 with the default strikes around S = 100. *)
Lemma synthetic_smile_data_spec_witness :
  exists option_data,
    generate_synthetic_smile_data 100 1 0.05 None None None None = Ok option_data /\
    List.length option_data = 9%nat.
Proof.
  destruct (synthetic_smile_data_spec 100 1 0.05 None None None None)
    as [Hdef [Hgen _]].
  destruct Hgen as [data [E Hdata]]; [lra | |].
  - apply Forall_forall. intros K HK. left.
    assert (H100 : 0 < 100) by lra.
    destruct (default_strike_range 100 K H100 HK). lra.
  - exists data. split; [exact E |].
    rewrite <- (Forall2_length Hdata). exact (proj1 (Hdef eq_refl)).
Defined.

Lemma Forall2_Forall_right {A B : Type} (P : A -> B -> Prop) (Q : B -> Prop)
  (l1 : list A) (l2 : list B) :
  Forall2 P l1 l2 -> (forall a b, In a l1 -> P a b -> Q b) -> Forall Q l2.
Proof.
  intros H12 Hstep. induction H12 as [| a b l1 l2 Hab H12 IH]; constructor.
  - apply (Hstep a b); [now left | assumption].
  - apply IH. intros a' b' Hin. apply Hstep. now right.
Qed.

Lemma Forall2_chain {A B C : Type} (P : A -> B -> Prop) (Q : B -> C -> Prop)
  (Goal_ : C -> Prop) (l1 : list A) (l2 : list B) (l3 : list C) :
  Forall2 P l1 l2 -> Forall2 Q l2 l3 ->
  (forall a b c, In a l1 -> P a b -> Q b c -> Goal_ c) ->
  Forall Goal_ l3.
Proof.
  intros H12. revert l3. induction H12 as [| a b l1 l2 Hab H12 IH]; intros l3 H23 Hstep.
  - inversion H23. constructor.
  - inversion H23 as [| ? c ? l3' Hbc H23']; subst. constructor.
    + apply (Hstep a b c); [now left | assumption | assumption].
    + apply IH; [exact H23' |]. intros a' b' c' Hin. apply Hstep. now right.
Qed.

(** X30. The generator and the analysis compose.  For S > 0, T > 0
    (S * sqrt T <= 1e20) and smile parameters with 0 <= base_vol <= 2,
    |skew| <= 1 and |convexity| <= 1, analysing the nine generated options
    does not raise and returns nine rows sorted by strike; none has a NaN
    implied volatility, and each implied volatility is positive and
    reprices its option within 1e-6. *)
Theorem synthetic_smile_round_trip
  (sort_values : list SmileRow -> list SmileRow) (S T r : R)
  (base_vol skew convexity : option R) :
  sorts_by_strike sort_values ->
  0 < S -> 0 < T -> S * sqrt T <= 1e20 ->
  0 <= kwarg 0.2 base_vol <= 2 ->
  - 1 <= kwarg (-0.1) skew <= 1 ->
  - 1 <= kwarg 0.05 convexity <= 1 ->
  exists option_data df,
    generate_synthetic_smile_data S T r base_vol skew convexity None
    = Ok option_data /\
    analyze_volatility_smile sort_values option_data S T r = Done df /\
    List.length df = 9%nat /\
    StronglySorted (fun a b => row_strike a <= row_strike b) df /\
    Forall (row_reprices S T r) df.
Proof.
  intros Hsort HS HT Hbig Hb Hs Hc.
  assert (HS' : S <> 0) by lra.
  destruct (synthetic_options_spec S T r (kwarg 0.2 base_vol) (kwarg (-0.1) skew)
              (kwarg 0.05 convexity) (default_strikes S) HS')
    as [data [Egen Hdata]].
  { apply Forall_forall. intros K HK. left.
    destruct (default_strike_range S K HS HK). lra. }
  assert (Hwf : Forall (well_formed_quote T) data).
  { apply (Forall2_Forall_right _ _ _ _ Hdata).
    intros K q HK [sigma [p [-> [_ [_ Hp]]]]].
    exists K, p. eexists. repeat split; try reflexivity.
    + destruct (Rle_dec S K); [left | right]; reflexivity.
    + left. destruct (default_strike_range S K HS HK). lra. }
  assert (Hlen : List.length data = 9%nat).
  { rewrite <- (Forall2_length Hdata). apply default_strikes_spec. }
  assert (Hne : data <> []) by (intros ->; discriminate).
  destruct (smile_results_ok S T r data HS' Hwf) as [results [Eres Hrows]].
  destruct (Hsort results) as [Hperm Hsorted].
  exists data, (sort_values results).
  split; [unfold generate_synthetic_smile_data; exact Egen |].
  split.
  { unfold analyze_volatility_smile. rewrite Eres. simpl.
    destruct results; [inversion Hrows; subst; contradiction | reflexivity]. }
  split; [rewrite <- (Permutation_length Hperm), <- (Forall2_length Hrows); exact Hlen |].
  split; [exact Hsorted |].
  apply (Permutation_Forall Hperm).
  apply (Forall2_chain
           (synthetic_quote S T r (kwarg 0.2 base_vol) (kwarg (-0.1) skew)
              (kwarg 0.05 convexity))
           (row_of_quote S T r) (row_reprices S T r)
           (default_strikes S) data results Hdata Hrows).
  intros K q row HK [sigma [p [-> [Hsig [Hlow Hp]]]]] [R1 [R2 [R3 [Riv _]]]].
  cbn [q_strike q_price q_type] in R1, R2, R3.
  injection R1 as R1. injection R2 as R2. injection R3 as R3.
  destruct (default_strike_range S K HS HK) as [[Hm1 Hm2] HKpos].
  assert (Hhigh : sigma <= 3.0).
  { rewrite Hsig. apply Rmax_lub; [| lra].
    set (x := K / S - 1) in *. assert (Hx : - 0.2 <= x <= 0.2) by (unfold x; lra).
    assert (kwarg (-0.1) skew * x <= 0.2) by nra.
    assert (kwarg 0.05 convexity * x ^ 2 <= 0.04) by (simpl; nra).
    lra. }
  destruct (round_trip_spec S K T r sigma p
              (if Rle_dec S K then "call"%string else "put"%string))
    as [s [p' [Eiv [Hs0 [Hp' Herr]]]]]; try assumption; try lra.
  { destruct (Rle_dec S K); [left | right]; reflexivity. }
  unfold row_reprices. rewrite <- R1, <- R2, <- R3 in *.
  rewrite Eiv in Riv. injection Riv as Riv.
  exists s, p'. repeat split; try assumption. now symmetry.
Qed.

(** X30 with the defaults of the generator (base_vol 0.2, skew -0.1,
    convexity 0.05), S = 100, T = 1, and insertion sort for the sort. *)
Lemma synthetic_smile_round_trip_witness :
  exists option_data df,
    generate_synthetic_smile_data 100 1 0.05 None None None None
    = Ok option_data /\
    analyze_volatility_smile insertion_sort option_data 100 1 0.05 = Done df /\
    List.length df = 9%nat /\
    Forall (row_reprices 100 1 0.05) df.
Proof.
  destruct (synthetic_smile_round_trip insertion_sort 100 1 0.05 None None None)
    as [data [df [E1 [E2 [L [_ H]]]]]];
    try exact insertion_sort_sorts; try (simpl; lra).
  { rewrite sqrt_1. lra. }
  exists data, df. repeat split; assumption.
Defined.
